(** * GenAlgo: a genetic algorithm for the TSP with an LRU fitness cache

    Shallow embedding of [GenAlgo/main.go].

    - Go [int] values (city numbers, sizes, flags) are integers [Z]; the
      values the program handles stay far from the 64-bit bounds.
    - Go [float64] values are the kernel's binary64 floats ([PrimFloat]).
    - A run-time panic (nil dereference, index out of range, invalid argument
      to [rand.Intn], length out of range in [make]) is an explicit outcome. *)

From Stdlib Require Import ZArith Lia Floats.
From Stdlib Require Import Numbers.Cyclic.Int63.Uint63 Strings.Ascii Strings.String.
From Stdlib Require Import DecimalString DecimalZ DecimalPos.
From stdpp Require Import gmap strings fin_maps functions sorting.
From stdpp Require Import list.

Open Scope Z_scope.

(** ** Outcomes of fallible code *)

Inductive panic : Set :=
| NilDereference      (* invalid memory address or nil pointer dereference *)
| IndexOutOfRange     (* index or slice bounds out of range *)
| InvalidIntnArgument (* rand.Intn called with n <= 0 *)
| MakeOutOfRange.     (* make([]T, n) with a length out of range *)

Inductive result (A : Type) : Type :=
| Ok (a : A)
| Panic (e : panic).
Arguments Ok {A} a.
Arguments Panic {A} e.

(** ** The LRU cache ([LRUCache], lines 34-83)

    [container/list] elements and the [*cacheEntry] each one holds are heap
    objects; an element is named by its address (a [nat]), [entries] is the
    memory holding the entry behind each element, [llist] is the recency list
    from front to back and [cache] is the Go map from key to element. *)

Module LRU.

Record cacheEntry : Set := mkEntry { key : string; value : float }.

Record LRUCache : Type := mkLRU {
  capacity : Z;
  cache : gmap string nat;
  llist : list nat;  (* the field [list] *)
  entries : nat → cacheEntry;
  fresh : nat
}.

Definition NewLRUCache (capacity : Z) : LRUCache :=
  mkLRU capacity ∅ [] (λ _, mkEntry "" 0%float) 0%nat.

(** [list.MoveToFront(e)]: nothing happens when [e] is not an element of the
    list. *)
Definition MoveToFront (e : nat) (l : list nat) : list nat :=
  if decide (e ∈ l) then e :: filter (λ x, x ≠ e) l else l.

(** [list.Remove(e)]. *)
Definition Remove (e : nat) (l : list nat) : list nat :=
  filter (λ x, x ≠ e) l.

(** [list.Back()]: the last element, [None] for Go's [nil]. *)
Definition Back (l : list nat) : option nat := last l.

Definition Len (l : list nat) : Z := Z.of_nat (length l).

Definition Get (k : string) (lc : LRUCache) : (float * bool) * LRUCache :=
  match cache lc !! k with
  | Some elem =>
      (value (entries lc elem), true,
       mkLRU (capacity lc) (cache lc) (MoveToFront elem (llist lc))
             (entries lc) (fresh lc))
  | None => (0%float, false, lc)
  end.

Definition Put (k : string) (v : float) (lc : LRUCache) : result LRUCache :=
  match cache lc !! k with
  | Some elem =>
      Ok (mkLRU (capacity lc) (cache lc) (MoveToFront elem (llist lc))
                (<[elem := mkEntry (key (entries lc elem)) v]> (entries lc))
                (fresh lc))
  | None =>
      let evicted :=
        if bool_decide (capacity lc ≤ Len (llist lc)) then
          match Back (llist lc) with
          | Some oldest =>
              Ok (delete (key (entries lc oldest)) (cache lc),
                  Remove oldest (llist lc))
          | None => Panic NilDereference
          end
        else Ok (cache lc, llist lc) in
      match evicted with
      | Ok (c, l) =>
          let elem := fresh lc in
          Ok (mkLRU (capacity lc) (<[k := elem]> c) (elem :: l)
                    (<[elem := mkEntry k v]> (entries lc)) (S elem))
      | Panic e => Panic e
      end
  end.

(** Sequences of cache operations. *)
Inductive op : Set :=
| OGet (k : string)
| OPut (k : string) (v : float).

Definition step (o : op) (lc : LRUCache) : result LRUCache :=
  match o with
  | OGet k => Ok (snd (Get k lc))
  | OPut k v => Put k v lc
  end.

Fixpoint run (ops : list op) (lc : LRUCache) : result LRUCache :=
  match ops with
  | [] => Ok lc
  | o :: ops' =>
      match step o lc with
      | Ok lc' => run ops' lc'
      | Panic e => Panic e
      end
  end.

(** The entries of the cache, most recently used first. *)
Definition contents (lc : LRUCache) : list (string * float) :=
  (λ e, (key (entries lc e), value (entries lc e))) <$> llist lc.

Definition keys (lc : LRUCache) : list string :=
  (λ e, key (entries lc e)) <$> llist lc.

(** Eviction as it is observed from outside: a key that the map holds before
    an operation and no longer holds after it. *)
Definition evicted (lc lc' : LRUCache) : list string :=
  filter (λ k, cache lc' !! k = None) (keys lc).

Fixpoint evictions (ops : list op) (lc : LRUCache) : list string :=
  match ops with
  | [] => []
  | o :: ops' =>
      match step o lc with
      | Ok lc' => evicted lc lc' ++ evictions ops' lc'
      | Panic _ => []
      end
  end.

(** Inserting a sequence of key/value pairs, one [Put] each. *)
Definition puts (kvs : list (string * float)) : list op :=
  (λ p, OPut p.1 p.2) <$> kvs.

Definition isPut (k : string) (o : op) : Prop :=
  match o with
  | OPut k' _ => k' = k
  | OGet _ => False
  end.

(** The representation invariant that links the map and the recency list:
    the map sends exactly the keys of the listed entries to their elements. *)
Record wf (lc : LRUCache) : Prop := mkWf {
  wf_nodup : NoDup (llist lc);
  wf_list : ∀ e, e ∈ llist lc → cache lc !! key (entries lc e) = Some e;
  wf_map : ∀ k e, cache lc !! k = Some e → e ∈ llist lc ∧ key (entries lc e) = k;
  wf_fresh : ∀ e, e ∈ llist lc → (e < fresh lc)%nat
}.

End LRU.

(** ** The cache as the spec describes it

    A second model, written from the contract of the FitnessCache: the
    entries ordered by recency of access, most recent first.  [Get] of a
    present key marks it most recently used; [Put] of a present key
    overwrites the value and marks it most recently used; [Put] of a new key
    into a full cache evicts the least recently used entry first. *)

Module LRUSpec.

Fixpoint assoc (k : string) (s : list (string * float)) : option float :=
  match s with
  | [] => None
  | (k', v) :: s' => if decide (k' = k) then Some v else assoc k s'
  end.

Definition touch (k : string) (v : float) (s : list (string * float)) :
  list (string * float) :=
  (k, v) :: filter (λ p, p.1 ≠ k) s.

Definition get (k : string) (s : list (string * float)) :
  option float * list (string * float) :=
  match assoc k s with
  | Some v => (Some v, touch k v s)
  | None => (None, s)
  end.

(** [None]: eviction from an empty cache, which the contract does not
    cover. *)
Definition put (cap : Z) (k : string) (v : float) (s : list (string * float)) :
  option (list (string * float)) :=
  match assoc k s with
  | Some _ => Some (touch k v s)
  | None =>
      if bool_decide (cap ≤ Z.of_nat (length s)) then
        match s with
        | [] => None
        | _ => Some ((k, v) :: removelast s)
        end
      else Some ((k, v) :: s)
  end.

Definition step (cap : Z) (o : LRU.op) (s : list (string * float)) :
  option (list (string * float)) :=
  match o with
  | LRU.OGet k => Some (get k s).2
  | LRU.OPut k v => put cap k v s
  end.

Fixpoint run (cap : Z) (ops : list LRU.op) (s : list (string * float)) :
  option (list (string * float)) :=
  match ops with
  | [] => Some s
  | o :: ops' =>
      match step cap o s with
      | Some s' => run cap ops' s'
      | None => None
      end
  end.

(** The key an operation names. *)
Definition keyOf (o : LRU.op) : string :=
  match o with LRU.OGet k | LRU.OPut k _ => k end.

Definition names (o : LRU.op) (k : string) : bool :=
  bool_decide (keyOf o = k).

(** The position (counted from 1) of the last operation of a history that
    names the key [k]; 0 when none does.  A [Get] that misses names a key
    that is absent, so for a key that is in the cache after the history the
    operation at this position is an access that found or stored it. *)
Fixpoint lastAccess (k : string) (h : list LRU.op) : nat :=
  match h with
  | [] => 0
  | o :: h' =>
      match lastAccess k h' with
      | O => if names o k then 1 else 0
      | S n => S (S n)
      end
  end.

(** The entries are ordered by the time of their last access, the most
    recent first, and every entry has been accessed. *)
Definition by_recency (h : list LRU.op) (s : list (string * float)) : Prop :=
  StronglySorted (λ a b, (lastAccess b h < lastAccess a h)%nat) s.*1 ∧
  Forall (λ a, (0 < lastAccess a h ≤ length h)%nat) s.*1.

End LRUSpec.

(** ** Tours, keys and distances (lines 19-32, 85-122, 181-189)

    The functions of this part only read the sequence of a tour; they are
    stated on its contents, a list of city numbers. *)

Module Tour.

Record Point : Set := mkPoint { x : float; y : float }.

Definition DistanceMatrix : Set := list (list float).

(** [dm[i][j]]; an index outside the matrix panics. *)
Definition Distance (dm : DistanceMatrix) (i j : Z) : result float :=
  if bool_decide (0 ≤ i ∧ 0 ≤ j) then
    match dm !! Z.to_nat i with
    | Some row =>
        match row !! Z.to_nat j with
        | Some d => Ok d
        | None => Panic IndexOutOfRange
        end
    | None => Panic IndexOutOfRange
    end
  else Panic IndexOutOfRange.

(** [math.Hypot], after the portable implementation of the Go library. *)
Definition Hypot (p q : float) : float :=
  let p := PrimFloat.abs p in
  let q := PrimFloat.abs q in
  if PrimFloat.eqb p infinity || PrimFloat.eqb q infinity then infinity
  else if PrimFloat.is_nan p || PrimFloat.is_nan q then nan
  else
    let '(p, q) := if PrimFloat.ltb p q then (q, p) else (p, q) in
    if PrimFloat.eqb p 0 then 0%float
    else
      let q := (q / p)%float in
      (p * PrimFloat.sqrt (1 + q * q))%float.

Definition createDistanceMatrix (points : list Point) : DistanceMatrix :=
  (λ pi, (λ pj, Hypot (x pi - x pj) (y pi - y pj)) <$> points) <$> points.

(** The loop of [normalizePath]: [i] is the index of the next element,
    [minIdx] and [minVal] are the loop variables. *)
Fixpoint minIndex (i minIdx : nat) (minVal : Z) (path : list Z) : nat :=
  match path with
  | [] => minIdx
  | v :: rest =>
      if bool_decide (v < minVal) then minIndex (S i) i v rest
      else minIndex (S i) minIdx minVal rest
  end.

Definition normalizePath (path : list Z) : list Z :=
  match path with
  | [] => path
  | p0 :: _ =>
      let minIdx := minIndex 0 0 p0 path in
      drop minIdx path ++ take minIdx path
  end.

(** [strconv.Itoa]. *)
Definition Itoa (n : Z) : string := NilZero.string_of_int (Z.to_int n).

(** The loop of [getKey] over the normalized path, [i] the index of the next
    city and [builder] the text written so far. *)
Fixpoint writeCities (i : nat) (builder : string) (cities : list Z) : string :=
  match cities with
  | [] => builder
  | city :: rest =>
      let builder := if bool_decide (0 < i)%nat then builder +:+ "," else builder in
      writeCities (S i) (builder +:+ Itoa city) rest
  end.

Definition getKey (path : list Z) : string :=
  let normalized := normalizePath path in
  writeCities 0 "" normalized.

(** The loop of [calculateDistance]. *)
Fixpoint sumLegs (dm : DistanceMatrix) (total : float) (prev : Z)
    (path : list Z) : result float :=
  match path with
  | [] =>
      match Distance dm prev 0 with
      | Ok d => Ok (total + d)%float
      | Panic e => Panic e
      end
  | city :: rest =>
      match Distance dm prev city with
      | Ok d => sumLegs dm (total + d)%float city rest
      | Panic e => Panic e
      end
  end.

Definition calculateDistance (path : list Z) (dm : DistanceMatrix) : result float :=
  sumLegs dm 0%float 0 path.

(** A valid tour over [N] cities: a permutation of 1, ..., N-1. *)
Definition validTour (N : Z) (path : list Z) : Prop :=
  path ≡ₚ seqZ 1 (N - 1).

End Tour.

(** ** The program state and the genetic operators (lines 124-266)

    - A path is a slice over a whole backing array (every path of the program
      comes from [make([]int, n)], with length equal to capacity): a [Route]
      holds the address of its array in [heap], so two routes with the same
      address share their sequence.  An address that was never allocated
      reads as the nil slice.
    - [math/rand] is an oracle: [tape] lists the raw draws of the run and
      [cursor] is the number of draws consumed.
    - [lru] is the single [*LRUCache] of the run, [stdout] what was printed.
    - A panic keeps the state in which it arose. *)

Module Prog.
Import Tour.

Record Route : Set := mkRoute { path : nat; distance : float }.

Inductive output : Set :=
| PrintReadError                       (* "Error reading file: ..." *)
| PrintNoCities                        (* "No cities specified. ..." *)
| PrintGen (gen : Z) (best : float)    (* "Gen %d: Best = %.2f" *)
| PrintBest (best : float).            (* "Best route distance: %.2f" *)

Record State : Type := mkState {
  heap : list (list Z);
  tape : nat → N;
  cursor : nat;
  lru : LRU.LRUCache;
  stdout : list output
}.

Definition M (A : Type) : Type := State → result A * State.

Definition ret {A} (a : A) : M A := λ st, (Ok a, st).

Definition bind {A B} (m : M A) (k : A → M B) : M B :=
  λ st, match m st with
        | (Ok a, st') => k a st'
        | (Panic e, st') => (Panic e, st')
        end.

Definition raise {A} (e : panic) : M A := λ st, (Panic e, st).

#[global] Instance M_ret : MRet M := @ret.
#[global] Instance M_bind : MBind M := λ A B k m, bind m k.

(** *** Primitive effects *)

(** [rand.Intn(n)]: a value of [0, n); panics when [n <= 0]. *)
Definition Intn (n : Z) : M Z :=
  λ st, if bool_decide (n ≤ 0) then (Panic InvalidIntnArgument, st)
        else (Ok (Z.of_N (tape st (cursor st)) `mod` n),
              mkState (heap st) (tape st) (S (cursor st)) (lru st) (stdout st)).

(** [rand.Float64()]: a multiple of 2^-53 in [0, 1). *)
Definition Float64 : M float :=
  λ st, (Ok (PrimFloat.of_uint63
               (Uint63.of_Z (Z.of_N (tape st (cursor st)) `mod` 2 ^ 53))
             / 0x1p53)%float,
         mkState (heap st) (tape st) (S (cursor st)) (lru st) (stdout st)).

(** The contents of the slice at address [l]. *)
Definition readPath (l : nat) : M (list Z) :=
  λ st, (Ok (default [] (heap st !! l)), st).

Definition writePath (l : nat) (p : list Z) : M unit :=
  λ st, (Ok tt, mkState (<[l := p]> (heap st)) (tape st) (cursor st) (lru st)
                        (stdout st)).

(** [make([]int, n)] once filled with [p]: a new backing array. *)
Definition newPath (p : list Z) : M nat :=
  λ st, (Ok (length (heap st)),
         mkState (heap st ++ [p]) (tape st) (cursor st) (lru st) (stdout st)).

Definition cacheGet (key : string) : M (float * bool) :=
  λ st, let '(r, lc) := LRU.Get key (lru st) in
        (Ok r, mkState (heap st) (tape st) (cursor st) lc (stdout st)).

Definition cachePut (key : string) (value : float) : M unit :=
  λ st, match LRU.Put key value (lru st) with
        | Ok lc => (Ok tt, mkState (heap st) (tape st) (cursor st) lc (stdout st))
        | Panic e => (Panic e, st)
        end.

Definition print (o : output) : M unit :=
  λ st, (Ok tt, mkState (heap st) (tape st) (cursor st) (lru st)
                        (stdout st ++ [o])).

(** [p[i]] for a Go [int] index. *)
Definition index {A} (p : list A) (i : Z) : option A :=
  if bool_decide (0 ≤ i) then p !! Z.to_nat i else None.

(** [for i := 0; i < n; i++ { body }]. *)
Fixpoint times (n : nat) (body : M unit) : M unit :=
  match n with
  | O => mret tt
  | S n' => body ;; times n' body
  end.

(** [path[a], path[b] = path[b], path[a]] on the array at address [l]. *)
Definition swapCities (l : nat) (a b : Z) : M unit :=
  p ← readPath l;
  match index p a, index p b with
  | Some va, Some vb =>
      writePath l (<[Z.to_nat b := va]> (<[Z.to_nat a := vb]> p))
  | _, _ => raise IndexOutOfRange
  end.

(** *** [mutate] (lines 255-266) *)

Definition mutate (route : Route) (mutationRate : float) : M Route :=
  f ← Float64;
  if PrimFloat.leb mutationRate f then mret route
  else
    p ← readPath (path route);
    let size := Z.of_nat (length p) in
    n ← Intn 3;
    let swaps := n + 1 in
    times (Z.to_nat swaps)
      (a ← Intn size; b ← Intn size; swapCities (path route) a b) ;;
    mret route.

(** *** [crossover] (lines 221-253) *)

(** [used[city]] for a [map[int]bool]: false when the key is absent. *)
Definition isUsed (used : gmap Z bool) (city : Z) : bool :=
  default false (used !! city).

(** The loop [for i := a; i <= b; i++], with [n] iterations left. *)
Fixpoint copySegment (n i : nat) (parent1 parent2 : list Z)
    (s : list Z * gmap Z bool * list Z * gmap Z bool) :
    result (list Z * gmap Z bool * list Z * gmap Z bool) :=
  match n with
  | O => Ok s
  | S n' =>
      let '(child1Path, used1, child2Path, used2) := s in
      match parent1 !! i, parent2 !! i with
      | Some c1, Some c2 =>
          copySegment n' (S i) parent1 parent2
            (<[i := c1]> child1Path, <[c1 := true]> used1,
             <[i := c2]> child2Path, <[c2 := true]> used2)
      | _, _ => Panic IndexOutOfRange
      end
  end.

(** The loop of [fillChild] over the cities of the parent. *)
Fixpoint fillLoop (size : nat) (used : gmap Z bool) (child : list Z)
    (pos : nat) (parent : list Z) : list Z :=
  match parent with
  | [] => child
  | city :: rest =>
      if negb (isUsed used city) then
        fillLoop size used (<[pos := city]> child) ((pos + 1) `mod` size) rest
      else fillLoop size used child pos rest
  end.

Definition fillChild (size b : nat) (child : list Z) (parent : list Z)
    (used : gmap Z bool) : list Z :=
  fillLoop size used child ((b + 1) `mod` size) parent.

(** The two children for the cut points [a <= b]. *)
Definition crossoverPaths (a b : nat) (parent1 parent2 : list Z) :
    result (list Z * list Z) :=
  let size := length parent1 in
  match copySegment (S b - a) a parent1 parent2
          (replicate size 0, ∅, replicate size 0, ∅) with
  | Ok (child1Path, used1, child2Path, used2) =>
      Ok (fillChild size b child1Path parent2 used1,
          fillChild size b child2Path parent1 used2)
  | Panic e => Panic e
  end.

Definition crossover (parent1 parent2 : Route) : M (Route * Route) :=
  p1 ← readPath (path parent1);
  p2 ← readPath (path parent2);
  let size := Z.of_nat (length p1) in
  a ← Intn size;
  b ← Intn size;
  let '(a, b) := if bool_decide (a > b) then (b, a) else (a, b) in
  match crossoverPaths (Z.to_nat a) (Z.to_nat b) p1 p2 with
  | Ok (child1Path, child2Path) =>
      l1 ← newPath child1Path;
      l2 ← newPath child2Path;
      mret (mkRoute l1 0, mkRoute l2 0)
  | Panic e => raise e
  end.

(** *** The duplicate-avoiding wrappers (lines 124-151) *)

(** [cache.Get(getKey(route.path))], keeping only the presence flag. *)
Definition known (route : Route) : M bool :=
  p ← readPath (path route);
  '(_, found) ← cacheGet (getKey p);
  mret found.

(** The loop of [cachedCrossover], with [n] attempts left. *)
Fixpoint cachedCrossoverLoop (n : nat) (parent1 parent2 : Route) :
    M (Route * Route) :=
  match n with
  | O => crossover parent1 parent2
  | S n' =>
      '(child1, child2) ← crossover parent1 parent2;
      p1 ← readPath (path child1);
      let key1 := getKey p1 in
      p2 ← readPath (path child2);
      let key2 := getKey p2 in
      '(_, exists_1) ← cacheGet key1;
      if negb exists_1 then
        '(_, exists_2) ← cacheGet key2;
        if negb exists_2 then mret (child1, child2)
        else cachedCrossoverLoop n' parent1 parent2
      else cachedCrossoverLoop n' parent1 parent2
  end.

Definition cachedCrossover (parent1 parent2 : Route) : M (Route * Route) :=
  let maxAttempts := 15%nat in
  cachedCrossoverLoop maxAttempts parent1 parent2.

(** The loop of [cachedMutate], with [n] attempts left. *)
Fixpoint cachedMutateLoop (n : nat) (route : Route)
    (mutationRate originalRate : float) : M Route :=
  match n with
  | O => mutate route originalRate
  | S n' =>
      mutated ← mutate route mutationRate;
      found ← known mutated;
      if negb found then mret mutated
      else cachedMutateLoop n' route (mutationRate * 1.5)%float originalRate
  end.

Definition cachedMutate (route : Route) (mutationRate : float) : M Route :=
  let maxAttempts := 8%nat in
  let originalRate := mutationRate in
  cachedMutateLoop maxAttempts route mutationRate originalRate.

(** The contents of the sequence at an address. *)
Definition contentsAt (st : State) (l : nat) : list Z :=
  default [] (heap st !! l).

(** [st'] differs from [st] by draws of the random source and by a
    rearrangement of the sequence at address [l]. *)
Definition rearranged (l : nat) (st st' : State) : Prop :=
  tape st' = tape st ∧ lru st' = lru st ∧ stdout st' = stdout st ∧
  ∃ p', p' ≡ₚ contentsAt st l ∧ heap st' = <[l := p']> (heap st).

(** One attempt of [cachedMutate]: the mutated route and whether its key is
    in the cache. *)
Definition attempt (route : Route) (mutationRate : float) : M (Route * bool) :=
  mutated ← mutate route mutationRate;
  found ← known mutated;
  mret (mutated, found).

(** The rate after [k] multiplications by 1.5. *)
Fixpoint escalate (k : nat) (rate : float) : float :=
  match k with
  | O => rate
  | S k' => (escalate k' rate * 1.5)%float
  end.

(** [collided route rate k st st']: from [st], the attempts number 0 to
    [k-1], made at the rates [rate], [rate * 1.5], ..., all gave a route
    whose key is in the cache, and left the state [st']. *)
Inductive collided (route : Route) (rate : float) : nat → State → State → Prop :=
| collided_O st : collided route rate 0 st st
| collided_S k st st1 st2 m :
    collided route rate k st st1 →
    attempt route (escalate k rate) st1 = (Ok (m, true), st2) →
    collided route rate (S k) st st2.

End Prog.

(** ** Evaluation, selection and the evolution loop (lines 153-219, 322-396)

    [make([]T, n)] panics when [n] is negative and when [n] elements take
    more than 2^48 bytes, the bound of the runtime on one allocation (as on
    linux/amd64).  Memory is taken to be available below that bound. *)

Module Evolution.
Import Tour Prog.

(** The greatest length [make([]Route, n)] accepts: a [Route] takes 32
    bytes (a slice header of 24 bytes and a [float64]). *)
Definition maxRoutes : Z := 2 ^ 43.

(** The greatest length [make([]int, n)] accepts: an [int] takes 8 bytes. *)
Definition maxInts : Z := 2 ^ 45.

(** The greatest length [make(DistanceMatrix, n)] accepts: a row is a slice
    header of 24 bytes.  A row of that many [float64] is accepted too. *)
Definition maxRows : Z := 2 ^ 48 `div` 24.

(** One job of [evaluatePopulation]: the body of the worker loop for the
    route of one index. *)
Definition evaluateRoute (dm : DistanceMatrix) (r : Route) : M Route :=
  p ← readPath (path r);
  let key := getKey p in
  '(dist, found) ← cacheGet key;
  if found : bool then mret (mkRoute (path r) dist)
  else
    match calculateDistance p dm with
    | Ok d => cachePut key d;; mret (mkRoute (path r) d)
    | Panic e => raise e
    end.

(** [evaluatePopulation] under the schedule in which the jobs run one after
    the other in the order of the queue, which is the only schedule with one
    worker and a possible one with several.  The population array is passed
    by reference in the source; the updated array is returned here. *)
Fixpoint evaluatePopulation (population : list Route) (dm : DistanceMatrix) :
    M (list Route) :=
  match population with
  | [] => mret []
  | r :: rest =>
      r' ← evaluateRoute dm r;
      rest' ← evaluatePopulation rest dm;
      mret (r' :: rest')
  end.

(** The matrix has [N] rows of [N] distances. *)
Definition squareMatrix (N : Z) (dm : DistanceMatrix) : Prop :=
  Z.of_nat (length dm) = N ∧ Forall (λ row, Z.of_nat (length row) = N) dm.

(** [rand.Shuffle(n, swap)]: [for i := n-1; i > 0; i-- { swap(i, Intn(i+1)) }],
    entered with [i = n-1]. *)
Fixpoint shuffleFrom (i : nat) (l : nat) : M unit :=
  match i with
  | O => mret tt
  | S i' =>
      j ← Intn (Z.of_nat i + 1);
      swapCities l (Z.of_nat i) j;;
      shuffleFrom i' l
  end.

Definition randomRoute (numCities : Z) : M Route :=
  if bool_decide (numCities - 1 < 0 ∨ maxInts < numCities - 1)
  then raise MakeOutOfRange
  else
    let n := Z.to_nat (numCities - 1) in
    let path :=
      foldl (λ p i, <[Z.to_nat (i - 1) := i]> p) (replicate n 0)
            (seqZ 1 (numCities - 1)) in
    l ← newPath path;
    shuffleFrom (n - 1) l;;
    mret (mkRoute l 0).

(** The loop of [initializePopulation], with [n] routes left to create. *)
Fixpoint fillPopulation (n : nat) (numCities : Z) : M (list Route) :=
  match n with
  | O => mret []
  | S n' =>
      r ← randomRoute numCities;
      rest ← fillPopulation n' numCities;
      mret (r :: rest)
  end.

Definition initializePopulation (popSize numCities : Z) : M (list Route) :=
  if bool_decide (popSize < 0 ∨ maxRoutes < popSize) then raise MakeOutOfRange
  else fillPopulation (Z.to_nat popSize) numCities.

(** [population[rand.Intn(len(population))]]. *)
Definition pick (population : list Route) : M Route :=
  i ← Intn (Z.of_nat (length population));
  match index population i with
  | Some r => mret r
  | None => raise IndexOutOfRange
  end.

(** The loop of [tournamentSelection], with [n] iterations left. *)
Fixpoint tournamentLoop (n : nat) (population : list Route) (best : Route) :
    M Route :=
  match n with
  | O => mret best
  | S n' =>
      competitor ← pick population;
      tournamentLoop n' population
        (if PrimFloat.ltb (distance competitor) (distance best)
         then competitor else best)
  end.

Definition tournamentSelection (population : list Route) (tournamentSize : Z) :
    M Route :=
  best ← pick population;
  tournamentLoop (Z.to_nat (tournamentSize - 1)) population best.

(** The closure [updateBest] of [main], as a function of the record. *)
Definition updateBest (best r : Route) : Route :=
  if PrimFloat.ltb (distance r) (distance best) then r else best.

(** The flags of the command line. *)
Record Config : Set := mkConfig {
  inputFile : string;
  popSize : Z;
  generations : Z;
  tournament : Z;
  mutationRate : float;
  eliteSize : Z;
  cacheSize : Z
}.

(** The loop [for len(newPopulation) < popSize], with [fuel] bounding the
    number of iterations; each one appends two routes, so [popSize]
    iterations are never exhausted. *)
Fixpoint breed (fuel : nat) (cfg : Config) (population newPopulation : list Route) :
    M (list Route) :=
  match fuel with
  | O => mret newPopulation
  | S fuel' =>
      if bool_decide (Z.of_nat (length newPopulation) < popSize cfg) then
        parent1 ← tournamentSelection population (tournament cfg);
        parent2 ← tournamentSelection population (tournament cfg);
        '(child1, child2) ← cachedCrossover parent1 parent2;
        child1 ← cachedMutate child1 (mutationRate cfg);
        child2 ← cachedMutate child2 (mutationRate cfg);
        breed fuel' cfg population (newPopulation ++ [child1; child2])
      else mret newPopulation
  end.

Section Loop.

(** [sort.Slice(population, less)] with [less] comparing distances.  The
    library does not fix the order of routes that [less] does not separate:
    the sort is a parameter. *)
Variable sortSlice : list Route → list Route.

(** The body of the generation loop.  [population[:eliteSize]] panics when
    [eliteSize] exceeds the capacity of the population.  In the first
    generation the capacity is the length [popSize] of the array made by
    [initializePopulation]; a later generation is reached only when
    [eliteSize <= popSize], and its population has length [popSize], so the
    test on the length decides the panic in every run of [main]. *)
Definition generation (cfg : Config) (dm : DistanceMatrix) (gen : Z)
    (s : list Route * Route) : M (list Route * Route) :=
  let '(population, best) := s in
  let population := sortSlice population in
  match population with
  | [] => raise IndexOutOfRange
  | first :: _ =>
      let best := updateBest best first in
      elite ←
        (if bool_decide (eliteSize cfg > 0) then
           if bool_decide (eliteSize cfg ≤ Z.of_nat (length population))
           then mret (take (Z.to_nat (eliteSize cfg)) population)
           else raise IndexOutOfRange
         else mret []);
      newPopulation ← breed (Z.to_nat (popSize cfg)) cfg population elite;
      let newPopulation := take (Z.to_nat (popSize cfg)) newPopulation in
      newPopulation ← evaluatePopulation newPopulation dm;
      (if bool_decide (gen `rem` 50 = 0 ∨ gen = generations cfg - 1)
       then print (PrintGen gen (distance best)) else mret tt);;
      mret (newPopulation, best)
  end.

(** [for gen := ...; gen < generations; gen++], with [n] iterations left. *)
Fixpoint evolve (n : nat) (cfg : Config) (dm : DistanceMatrix) (gen : Z)
    (s : list Route * Route) : M (list Route * Route) :=
  match n with
  | O => mret s
  | S n' =>
      s' ← generation cfg dm gen s;
      evolve n' cfg dm (gen + 1) s'
  end.

(** What [main] does before the loop once the points are read: the matrix
    (whose [make] panics on more than [maxRows] points), the cache, the
    first population and its evaluation, the first record. *)
Definition setup (cfg : Config) (points : list Point) :
    M (DistanceMatrix * (list Route * Route)) :=
  let numCities := Z.of_nat (length points) in
  (if bool_decide (maxRows < numCities) then raise MakeOutOfRange
   else mret tt);;
  let dm := createDistanceMatrix points in
  (λ st, (Ok tt, mkState (heap st) (tape st) (cursor st)
                         (LRU.NewLRUCache (cacheSize cfg)) (stdout st)));;
  population ← initializePopulation (popSize cfg) numCities;
  population ← evaluatePopulation population dm;
  match population with
  | [] => raise IndexOutOfRange
  | best :: _ => mret (dm, (population, best))
  end.

(** [main].  [readPointsFromFile] is the file system's answer for the input
    file: [None] for an error, the points otherwise.  The line that prints
    the execution time is left out. *)
Definition main (readPointsFromFile : string → option (list Point))
    (cfg : Config) : M unit :=
  if bool_decide (inputFile cfg ≠ "") then
    match readPointsFromFile (inputFile cfg) with
    | None => print PrintReadError
    | Some points =>
        '(dm, s) ← setup cfg points;
        '(_, best) ← evolve (Z.to_nat (generations cfg)) cfg dm 0 s;
        print (PrintBest (distance best))
    end
  else print PrintNoCities.

End Loop.

(** Insertion sort by distance, one possible behaviour of [sort.Slice]. *)
Fixpoint insertByDistance (r : Route) (l : list Route) : list Route :=
  match l with
  | [] => [r]
  | r' :: l' =>
      if PrimFloat.ltb (distance r') (distance r)
      then r' :: insertByDistance r l' else r :: l
  end.

Definition insertionSort (l : list Route) : list Route :=
  foldr insertByDistance [] l.

End Evolution.

(** ** What a computation prints *)

Module Output.
Import Prog.

(** One of the two reports of [main]. *)
Definition report (o : output) : Prop :=
  o = PrintNoCities ∨ o = PrintReadError.

(** Whatever its outcome, a return or a panic, the computation leaves the
    output as it was. *)
Definition quiet {A} (m : M A) : Prop :=
  ∀ st, stdout (m st).2 = stdout st.

(** Whatever its outcome, the computation only appends lines to the
    output, and every line it appends satisfies [P]. *)
Definition emits {A} (P : output → Prop) (m : M A) : Prop :=
  ∀ st, ∃ lines, stdout (m st).2 = stdout st ++ lines ∧ Forall P lines.

End Output.

(** ** Concrete inputs *)

Module Examples.
Import Tour Prog.

(** Four cities on a line, at abscissas 0, 1, 2 and 3. *)
Definition line4 : DistanceMatrix :=
  createDistanceMatrix
    [mkPoint 0 0; mkPoint 1 0; mkPoint 2 0; mkPoint 3 0].

(** A state with the given arrays, the given first draws of the random
    source (0 afterwards), a new cache and nothing printed. *)
Definition stateOf (arrays : list (list Z)) (draws : list N) (capacity : Z) :
    State :=
  mkState arrays (λ i, default 0%N (draws !! i)) 0 (LRU.NewLRUCache capacity) [].

End Examples.

(** ** Reading the cities ([readPointsFromFile], lines 268-320)

    - A Go string is its sequence of bytes, a [string] here.
    - The file system and [bufio.Scanner] are the environment: the file is
      given as the lines that [scanner.Scan] delivers, or as the error of
      [os.Open].
    - [strconv.ParseFloat] is a parameter: its value is used whatever the
      error it reports.
    - Memory is available up to the bound of the runtime on one allocation
      (2^48 bytes, as on linux/amd64). *)

Module GoStrings.

Definition code (a : ascii) : N := N_of_ascii a.

(** [unicode.IsSpace] on the UTF-8 encodings of one, two and three bytes:
    U+0009 to U+000D and U+0020; U+0085 and U+00A0; U+1680, U+2000 to
    U+200A, U+2028, U+2029, U+202F, U+205F and U+3000.  A byte that starts
    no valid encoding decodes as U+FFFD, which is not a space. *)
Definition space1 (a : ascii) : bool :=
  ((9 <=? code a) && (code a <=? 13) || (code a =? 32))%N.

Definition space2 (a b : ascii) : bool :=
  ((code a =? 0xC2) && ((code b =? 0x85) || (code b =? 0xA0)))%N.

Definition space3 (a b c : ascii) : bool :=
  ((code a =? 0xE1) && (code b =? 0x9A) && (code c =? 0x80)
   || (code a =? 0xE2) && (code b =? 0x80)
      && ((0x80 <=? code c) && (code c <=? 0x8A)
          || (code c =? 0xA8) || (code c =? 0xA9) || (code c =? 0xAF))
   || (code a =? 0xE2) && (code b =? 0x81) && (code c =? 0x9F)
   || (code a =? 0xE3) && (code b =? 0x80) && (code c =? 0x80))%N.

(** [strings.TrimLeftFunc(s, unicode.IsSpace)]. *)
Fixpoint trimLeft (s : string) : string :=
  match s with
  | EmptyString => s
  | String a s1 =>
      if space1 a then trimLeft s1
      else
        match s1 with
        | EmptyString => s
        | String b s2 =>
            if space2 a b then trimLeft s2
            else
              match s2 with
              | EmptyString => s
              | String c s3 => if space3 a b c then trimLeft s3 else s
              end
        end
  end.

(** The same from the end, on the reversed string: the last rune is a
    space when the bytes that end the string are one of the encodings. *)
Fixpoint trimReversed (s : string) : string :=
  match s with
  | EmptyString => s
  | String c s1 =>
      if space1 c then trimReversed s1
      else
        match s1 with
        | EmptyString => s
        | String b s2 =>
            if space2 b c then trimReversed s2
            else
              match s2 with
              | EmptyString => s
              | String a s3 => if space3 a b c then trimReversed s3 else s
              end
        end
  end.

(** [strings.TrimRightFunc(s, unicode.IsSpace)]. *)
Definition trimRight (s : string) : string :=
  String.rev (trimReversed (String.rev s)).

(** [strings.TrimSpace]. *)
Definition TrimSpace (s : string) : string := trimRight (trimLeft s).

(** [strings.HasPrefix]. *)
Definition HasPrefix (s prefix : string) : bool := String.prefix prefix s.

(** [strings.Split(s, sep)] for a separator of one byte. *)
Fixpoint Split (s : string) (sep : ascii) : list string :=
  match s with
  | EmptyString => [EmptyString]
  | String a s' =>
      if Ascii.eqb a sep then EmptyString :: Split s' sep
      else
        match Split s' sep with
        | piece :: pieces => String a piece :: pieces
        | [] => [String a EmptyString]
        end
  end.

(** The loop of [strings.Fields]: [field] is the field being read. *)
Fixpoint fieldsLoop (field : string) (s : string) : list string :=
  let close rest := if bool_decide (field = EmptyString) then rest
                    else field :: rest in
  match s with
  | EmptyString => close []
  | String a s1 =>
      if space1 a then close (fieldsLoop EmptyString s1)
      else
        match s1 with
        | EmptyString => fieldsLoop (field +:+ String a EmptyString) s1
        | String b s2 =>
            if space2 a b then close (fieldsLoop EmptyString s2)
            else
              match s2 with
              | EmptyString => fieldsLoop (field +:+ String a EmptyString) s1
              | String c s3 =>
                  if space3 a b c then close (fieldsLoop EmptyString s3)
                  else fieldsLoop (field +:+ String a EmptyString) s1
              end
        end
  end.

(** [strings.Fields]. *)
Definition Fields (s : string) : list string := fieldsLoop EmptyString s.

(** The loop of [strconv.Atoi] over the digits: [None] for a syntax error. *)
Fixpoint digits (n : Z) (s : string) : option Z :=
  match s with
  | EmptyString => Some n
  | String ch s' =>
      if ((48 <=? code ch) && (code ch <=? 57))%N
      then digits (n * 10 + (Z.of_N (code ch) - 48)) s'
      else None
  end.

(** The value [strconv.Atoi] returns for a 64-bit [int], with or without
    an error: 0 on a syntax error, the nearest bound on a range error. *)
Definition Atoi (s : string) : Z :=
  match s with
  | EmptyString => 0
  | String s0 s' =>
      let signed := Ascii.eqb s0 "-" || Ascii.eqb s0 "+" in
      let body := if signed then s' else s in
      match body with
      | EmptyString => 0
      | _ =>
          match digits 0 body with
          | Some n =>
              let n := if Ascii.eqb s0 "-" then - n else n in
              Z.max (- 2 ^ 63) (Z.min (2 ^ 63 - 1) n)
          | None => 0
          end
      end
  end.

End GoStrings.

Module Reader.
Import Tour GoStrings.

(** The variables of the loop. *)
Record Reader : Set := mkReader {
  dimension : Z;
  points : list Point;
  inCoordSection : bool
}.

(** The greatest length [make([]Point, n)] accepts: a [Point] takes 16
    bytes, and [make] panics when the bytes exceed 2^48. *)
Definition maxPoints : Z := 2 ^ 44.

(** The value of a DIMENSION line: the text after the first colon, or
    after the first blank when there is no colon; [make] panics on a
    negative length and on one above [maxPoints]. *)
Definition dimensionOf (line : string) : result Z :=
  let parts := Split line ":" in
  let parts := if bool_decide (length parts < 2)%nat then Split line " "
               else parts in
  match parts !! 1%nat with
  | Some p1 =>
      let dimension := Atoi (TrimSpace p1) in
      if bool_decide (dimension < 0 ∨ maxPoints < dimension)
      then Panic MakeOutOfRange
      else Ok dimension
  | None => Panic IndexOutOfRange
  end.

(** The slice has the length that the last DIMENSION line gave. *)
Definition sized (r : Reader) : Prop :=
  Z.of_nat (length (points r)) = dimension r.

Section Read.

Variable ParseFloat : string → float.

(** The part of the loop body for a line of the coordinate section. *)
Definition setPoint (line : string) (r : Reader) : result Reader :=
  match Fields line with
  | p0 :: p1 :: p2 :: _ =>
      let idx := Atoi p0 in
      let x := ParseFloat p1 in
      let y := ParseFloat p2 in
      if bool_decide (idx >= 1 ∧ idx ≤ dimension r) then
        if bool_decide (idx - 1 < Z.of_nat (length (points r))) then
          Ok (mkReader (dimension r)
                (<[Z.to_nat (idx - 1) := mkPoint x y]> (points r))
                (inCoordSection r))
        else Panic IndexOutOfRange
      else Ok r
  | _ => Ok r
  end.

(** The loop body for one line; the flag says that the loop is left. *)
Definition readLine (text : string) (r : Reader) : result (Reader * bool) :=
  let line := TrimSpace text in
  if bool_decide (line = EmptyString) then Ok (r, false)
  else
    let dimensioned :=
      if HasPrefix line "DIMENSION" then
        match dimensionOf line with
        | Ok dimension =>
            Ok (mkReader dimension
                  (replicate (Z.to_nat dimension) (mkPoint 0 0))
                  (inCoordSection r))
        | Panic e => Panic e
        end
      else Ok r in
    match dimensioned with
    | Panic e => Panic e
    | Ok r =>
        if HasPrefix line "NODE_COORD_SECTION" then
          Ok (mkReader (dimension r) (points r) true, false)
        else if inCoordSection r && HasPrefix line "EOF" then Ok (r, true)
        else if inCoordSection r then
          match setPoint line r with
          | Ok r' => Ok (r', false)
          | Panic e => Panic e
          end
        else Ok (r, false)
    end.

(** [for scanner.Scan() { ... }]. *)
Fixpoint scan (lines : list string) (r : Reader) : result Reader :=
  match lines with
  | [] => Ok r
  | text :: rest =>
      match readLine text r with
      | Ok (r', true) => Ok r'
      | Ok (r', false) => scan rest r'
      | Panic e => Panic e
      end
  end.

(** [readPointsFromFile]: [None] for the error of [os.Open]. *)
Definition readPointsFromFile (open : string → option (list string))
    (filename : string) : result (option (list Point)) :=
  match open filename with
  | None => Ok None
  | Some lines =>
      match scan lines (mkReader 0 [] false) with
      | Ok r => Ok (Some (points r))
      | Panic e => Panic e
      end
  end.

End Read.

End Reader.

(** ** Files in the TSPLIB layout *)

Module TspFile.
Import Tour GoStrings.

(** Every byte of the text satisfies [P]. *)
Fixpoint allBytes (P : ascii → Prop) (s : string) : Prop :=
  match s with
  | EmptyString => True
  | String a s' => P a ∧ allBytes P s'
  end.

(** A printable ASCII byte that is not a blank. *)
Definition plain (a : ascii) : Prop := (33 ≤ code a ≤ 126)%N.

(** A decimal digit. *)
Definition numeral (a : ascii) : Prop := (48 ≤ code a ≤ 57)%N.

(** A token: a text of plain bytes that is not empty. *)
Definition token (s : string) : Prop := s ≠ EmptyString ∧ allBytes plain s.

Fixpoint blank (k : nat) : string :=
  match k with
  | O => EmptyString
  | S k' => String " " (blank k')
  end.

(** The line "DIMENSION : n", with any number of blanks around the colon. *)
Definition dimensionLine (k1 k2 : nat) (n : Z) : string :=
  "DIMENSION" +:+ blank k1 +:+ ":" +:+ blank k2 +:+ Itoa n.

(** The line of the city of index [i] (from 0): its number and the texts
    of its coordinates, separated by one blank. *)
Definition coordLine (i : nat) (c : string * string) : string :=
  Itoa (Z.of_nat i + 1) +:+ " " +:+ c.1 +:+ " " +:+ c.2.

(** A line that is neither a DIMENSION line nor the start of the section
    of coordinates. *)
Definition neutral (text : string) : Prop :=
  HasPrefix (TrimSpace text) "DIMENSION" = false ∧
  HasPrefix (TrimSpace text) "NODE_COORD_SECTION" = false.

(** The point that a pair of coordinate texts denotes. *)
Definition pointOf (ParseFloat : string → float) (c : string * string) :
    Point :=
  mkPoint (ParseFloat c.1) (ParseFloat c.2).

Definition tspFile (header : list string) (k1 k2 : nat)
    (coords : list (string * string)) (trailer : list string) : list string :=
  header
  ++ [dimensionLine k1 k2 (Z.of_nat (length coords)); "NODE_COORD_SECTION"]
  ++ imap coordLine coords ++ ["EOF"] ++ trailer.

End TspFile.

(** ** Histories of cache operations *)

Module History.
Import LRU.

(** The value of the last [Put] of the key [k] in a history, [None] when the
    history has no [Put] of [k]. *)
Fixpoint lastPut (k : string) (h : list op) : option float :=
  match h with
  | [] => None
  | o :: h' =>
      match lastPut k h' with
      | Some v => Some v
      | None =>
          match o with
          | OPut k' v => if decide (k' = k) then Some v else None
          | OGet _ => None
          end
      end
  end.

(** The keys a history names, each one once. *)
Definition distinctKeys (h : list op) : list string :=
  remove_dups (LRUSpec.keyOf <$> h).

(** The cache a history leaves when it is run on a new cache (the new cache
    itself when the history panics). *)
Definition after (cap : Z) (h : list op) : LRUCache :=
  match run h (NewLRUCache cap) with
  | Ok lc => lc
  | Panic _ => NewLRUCache cap
  end.

End History.

(** ** The text of a key *)

Module KeyText.

(** The text holds no comma. *)
Fixpoint commaFree (s : string) : Prop :=
  match s with
  | EmptyString => True
  | String a s' => a ≠ ","%char ∧ commaFree s'
  end.

(** The text is empty or starts with a comma. *)
Definition commaLed (s : string) : Prop :=
  match s with
  | EmptyString => True
  | String a _ => a = ","%char
  end.

End KeyText.

(** ** States of a run *)

Module Safety.
Import Tour Prog.

(** Every array of the heap holds a valid tour over [N] cities, and the
    cache is coupled (map and list agree) with capacity [cap]. *)
Definition Inv (N cap : Z) (st : State) : Prop :=
  Forall (validTour N) (heap st) ∧ LRU.wf (lru st) ∧ LRU.capacity (lru st) = cap.

(** The array of the route has been allocated. *)
Definition allocated (st : State) (r : Route) : Prop :=
  (path r < length (heap st))%nat.

(** [st'] holds, below address [n], the arrays that [st] holds, has no
    fewer arrays, and has read the same random source and printed the
    same text. *)
Definition keeps (n : nat) (st st' : State) : Prop :=
  (∀ l, (l < n)%nat → heap st' !! l = heap st !! l) ∧
  (length (heap st) ≤ length (heap st'))%nat ∧
  tape st' = tape st ∧ stdout st' = stdout st.

(** [d] is the length of a valid tour over [N] cities whose key is [key]. *)
Definition lengthFor (N : Z) (dm : DistanceMatrix) (key : string) (d : float) :
    Prop :=
  ∃ p, validTour N p ∧ getKey p = key ∧ calculateDistance p dm = Ok d.

(** Every entry of the cache holds, under its key, the length of a valid
    tour with that key. *)
Definition cacheSound (N : Z) (dm : DistanceMatrix) (lc : LRU.LRUCache) : Prop :=
  Forall (λ kv, lengthFor N dm kv.1 kv.2) (LRU.contents lc).

(** The distance of the route is the length of a valid tour that has the
    key of the route's sequence. *)
Definition scored (N : Z) (dm : DistanceMatrix) (st : State) (r : Route) : Prop :=
  lengthFor N dm (getKey (contentsAt st (path r))) (distance r).

(** [d] is the length of some valid tour over [N] cities. *)
Definition tourLength (N : Z) (dm : DistanceMatrix) (d : float) : Prop :=
  ∃ p, validTour N p ∧ calculateDistance p dm = Ok d.

(** What the evolution loop maintains: the invariant of the state, a sound
    cache, and a population of [popSize] allocated routes whose distances,
    like the distance of the record, are lengths of valid tours. *)
Definition loopInv (N cap popSize : Z) (dm : DistanceMatrix)
    (s : list Route * Route) (st : State) : Prop :=
  Inv N cap st ∧ cacheSound N dm (lru st) ∧
  Forall (allocated st) s.1 ∧ Z.of_nat (length s.1) = popSize ∧
  Forall (λ r, tourLength N dm (distance r)) s.1 ∧
  tourLength N dm (distance s.2).

(** The state after [n] further draws of the random source. *)
Definition advance (n : nat) (st : State) : State :=
  mkState (heap st) (tape st) (n + cursor st) (lru st) (stdout st).

(** The route that the [i]-th next draw picks in a population. *)
Definition drawnRoute (population : list Route) (st : State) (i : nat) :
    option Route :=
  population !! Z.to_nat (Z.of_N (tape st (i + cursor st))
                          `mod` Z.of_nat (length population)).

End Safety.

(** * Auxiliary facts about lists *)

Module ListFacts.

Lemma fmap_filter_on {A B} (f : A → B) (P : A → Prop) (Q : B → Prop)
    `{∀ x, Decision (P x)} `{∀ y, Decision (Q y)} (l : list A) :
  (∀ x, x ∈ l → (P x ↔ Q (f x))) →
  f <$> filter P l = filter Q (f <$> l).
Proof.
  induction l as [|a l IH]; intros Hiff; [done|].
  rewrite fmap_cons, !filter_cons.
  assert (Ha : P a ↔ Q (f a)) by (apply Hiff; left).
  assert (Hl : f <$> filter P l = filter Q (f <$> l)).
  { apply IH. intros x Hx. apply Hiff. by right. }
  destruct (decide (P a)) as [Hp|Hp], (decide (Q (f a))) as [Hq|Hq];
    try tauto; try done.
  by rewrite fmap_cons, Hl.
Qed.

Lemma filter_ne_snoc (l : list nat) x :
  NoDup (l ++ [x]) → filter (λ y, y ≠ x) (l ++ [x]) = l.
Proof.
  intros Hnd. apply NoDup_app in Hnd as (_ & Hdisj & _).
  rewrite filter_app, filter_cons_False, filter_nil, app_nil_r by (intros ?; done).
  clear -Hdisj. induction l as [|a l IH]; [done|].
  rewrite filter_cons_True.
  - f_equal. apply IH. intros y Hy. apply Hdisj. by right.
  - intros ->. apply (Hdisj x); [left | apply list_elem_of_singleton]; done.
Qed.

Lemma removelast_sublist {A} (l : list A) : removelast l `sublist_of` l.
Proof.
  destruct l as [|x l _] using rev_ind; [done|].
  rewrite removelast_last. by apply sublist_inserts_r.
Qed.

Lemma StronglySorted_sublist {A} (R : relation A) (l1 l2 : list A) :
  l1 `sublist_of` l2 → StronglySorted R l2 → StronglySorted R l1.
Proof.
  induction 1 as [|x l1 l2 Hsub IH|x l1 l2 Hsub IH]; intros Hs; [done|..].
  - apply StronglySorted_cons in Hs as [Hall Hs].
    apply StronglySorted_cons. split; [|by apply IH].
    apply Forall_forall. intros y Hy.
    rewrite Forall_forall in Hall. apply Hall. by eapply elem_of_sublist.
  - apply StronglySorted_cons in Hs as [_ Hs]. by apply IH.
Qed.

End ListFacts.

(** * Properties of the LRU cache *)

Module LRUFacts.
Import LRU ListFacts.

Lemma wf_new cap : wf (NewLRUCache cap).
Proof.
  split; simpl.
  - constructor.
  - intros e He. by apply elem_of_nil in He.
  - intros k e He. by rewrite lookup_empty in He.
  - intros e He. by apply elem_of_nil in He.
Qed.

Lemma wf_key_inj lc e1 e2 :
  wf lc → e1 ∈ llist lc → e2 ∈ llist lc →
  key (entries lc e1) = key (entries lc e2) → e1 = e2.
Proof.
  intros Hwf H1 H2 Heq.
  pose proof (wf_list lc Hwf e1 H1) as Ha.
  pose proof (wf_list lc Hwf e2 H2) as Hb.
  rewrite Heq in Ha. congruence.
Qed.

Lemma wf_nodup_keys lc : wf lc → NoDup (keys lc).
Proof.
  intros Hwf. unfold keys.
  apply NoDup_fmap_2_strong; [|apply Hwf].
  intros e1 e2 H1 H2 Heq. by apply (wf_key_inj lc).
Qed.

Lemma wf_lookup_keys lc k :
  wf lc → (is_Some (cache lc !! k) ↔ k ∈ keys lc).
Proof.
  intros Hwf. unfold keys. rewrite list_elem_of_fmap. split.
  - intros [e He]. destruct (wf_map lc Hwf k e He) as [Hin Hk]. eauto.
  - intros (e & -> & Hin). rewrite (wf_list lc Hwf e Hin). eauto.
Qed.

Lemma wf_dom lc : wf lc → dom (cache lc) = list_to_set (keys lc).
Proof.
  intros Hwf. apply set_eq. intros k.
  rewrite elem_of_dom, elem_of_list_to_set. by apply wf_lookup_keys.
Qed.

Lemma wf_size lc : wf lc → size (cache lc) = length (llist lc).
Proof.
  intros Hwf. rewrite <- size_dom, wf_dom by done.
  rewrite size_list_to_set by (by apply wf_nodup_keys).
  unfold keys. by rewrite length_fmap.
Qed.

(** *** The cache refines the model written from its contract *)

Lemma assoc_fmap_Some (ent : nat → cacheEntry) (l : list nat) k e :
  e ∈ l → key (ent e) = k →
  (∀ e', e' ∈ l → key (ent e') = k → e' = e) →
  LRUSpec.assoc k ((λ e, (key (ent e), value (ent e))) <$> l)
  = Some (value (ent e)).
Proof.
  induction l as [|a l IH]; intros Hin Hk Huniq; [by apply elem_of_nil in Hin|].
  simpl. destruct (decide (key (ent a) = k)) as [Ha|Ha].
  - rewrite (Huniq a); [done | left | done].
  - apply elem_of_cons in Hin as [->|Hin]; [done|].
    apply IH; [done..|]. intros e' He'. apply Huniq. by right.
Qed.

Lemma assoc_fmap_None (ent : nat → cacheEntry) (l : list nat) k :
  (∀ e, e ∈ l → key (ent e) ≠ k) →
  LRUSpec.assoc k ((λ e, (key (ent e), value (ent e))) <$> l) = None.
Proof.
  induction l as [|a l IH]; intros Hne; [done|].
  simpl. rewrite decide_False by (apply Hne; left).
  apply IH. intros e He. apply Hne. by right.
Qed.

Lemma assoc_contents lc k :
  wf lc →
  LRUSpec.assoc k (contents lc) = (λ e, value (entries lc e)) <$> cache lc !! k.
Proof.
  intros Hwf. unfold contents.
  destruct (cache lc !! k) as [e|] eqn:Hk; simpl.
  - destruct (wf_map lc Hwf k e Hk) as [Hin Hkey].
    apply assoc_fmap_Some; [done..|].
    intros e' He' Hk'. apply (wf_key_inj lc); [done..|congruence].
  - apply assoc_fmap_None. intros e He Hkey.
    pose proof (wf_list lc Hwf e He) as Hl. congruence.
Qed.

Lemma wf_MoveToFront lc e ent' :
  wf lc → e ∈ llist lc →
  (∀ e', key (ent' e') = key (entries lc e')) →
  wf (mkLRU (capacity lc) (cache lc) (MoveToFront e (llist lc)) ent' (fresh lc)).
Proof.
  intros Hwf Hin Hent. unfold MoveToFront. rewrite decide_True by done.
  assert (Hsame : ∀ x, x ∈ e :: filter (λ y, y ≠ e) (llist lc) ↔ x ∈ llist lc).
  { intros x. rewrite elem_of_cons, list_elem_of_filter.
    destruct (decide (x = e)) as [Hxe|Hxe]; [rewrite Hxe|]; tauto. }
  split; simpl.
  - constructor; [|apply NoDup_filter, Hwf].
    rewrite list_elem_of_filter. by intros [Hne _].
  - intros x Hx. apply Hsame in Hx. rewrite Hent. by apply Hwf.
  - intros k x Hk. destruct (wf_map lc Hwf k x Hk) as [Hx Hkx].
    split; [by apply Hsame | by rewrite Hent].
  - intros x Hx. apply Hsame in Hx. by apply Hwf.
Qed.

Lemma contents_MoveToFront lc e ent' :
  wf lc → e ∈ llist lc →
  (∀ e', key (ent' e') = key (entries lc e')) →
  (∀ e', e' ≠ e → ent' e' = entries lc e') →
  contents (mkLRU (capacity lc) (cache lc) (MoveToFront e (llist lc)) ent' (fresh lc))
  = LRUSpec.touch (key (entries lc e)) (value (ent' e)) (contents lc).
Proof.
  intros Hwf Hin Hkey Hother. unfold contents, MoveToFront, LRUSpec.touch; simpl.
  rewrite decide_True by done. rewrite fmap_cons, Hkey. f_equal.
  rewrite <- (fmap_filter_on _ (λ y, y ≠ e) (λ p, p.1 ≠ key (entries lc e))).
  - apply list_fmap_ext. intros i x Hx.
    apply list_elem_of_lookup_2, list_elem_of_filter in Hx as [Hne _].
    by rewrite Hother.
  - intros x Hx. simpl. split.
    + intros Hne Heq. apply Hne. by apply (wf_key_inj lc).
    + by intros Hne ->.
Qed.

Lemma Get_refines lc k :
  wf lc →
  wf (Get k lc).2 ∧ capacity (Get k lc).2 = capacity lc ∧
  contents (Get k lc).2 = (LRUSpec.get k (contents lc)).2 ∧
  (Get k lc).1 = match (LRUSpec.get k (contents lc)).1 with
                 | Some v => (v, true)
                 | None => (0%float, false)
                 end.
Proof.
  intros Hwf. unfold Get, LRUSpec.get. rewrite assoc_contents by done.
  destruct (cache lc !! k) as [e|] eqn:Hk; simpl; [|done].
  destruct (wf_map lc Hwf k e Hk) as [Hin Hkey].
  split; [by apply wf_MoveToFront|]. split; [done|]. split; [|done].
  subst k. by apply contents_MoveToFront.
Qed.

Lemma Put_refines lc k v :
  wf lc →
  match LRUSpec.put (capacity lc) k v (contents lc) with
  | Some s' => ∃ lc', Put k v lc = Ok lc' ∧ wf lc' ∧
                      capacity lc' = capacity lc ∧ contents lc' = s'
  | None => Put k v lc = Panic NilDereference
  end.
Proof.
  intros Hwf. unfold Put, LRUSpec.put. rewrite assoc_contents by done.
  destruct (cache lc !! k) as [e|] eqn:Hk; simpl.
  { destruct (wf_map lc Hwf k e Hk) as [Hin Hkey].
    assert (Hkeys : ∀ e', key ((<[e:=mkEntry (key (entries lc e)) v]> (entries lc)) e')
                          = key (entries lc e')).
    { intros e'. destruct (decide (e = e')) as [->|Hne].
      - by rewrite fn_lookup_insert.
      - by rewrite fn_lookup_insert_ne. }
    eexists. split; [done|]. split; [by apply wf_MoveToFront|]. split; [done|].
    rewrite contents_MoveToFront; [|done..|].
    - by rewrite fn_lookup_insert, Hkey.
    - intros e' Hne. by rewrite fn_lookup_insert_ne. }
  assert (Hfresh : fresh lc ∉ llist lc).
  { intros Hin. apply (wf_fresh lc Hwf) in Hin. lia. }
  assert (Hcont : ∀ l : list nat, fresh lc ∉ l →
            (λ e, (key ((<[fresh lc:=mkEntry k v]> (entries lc)) e),
                   value ((<[fresh lc:=mkEntry k v]> (entries lc)) e))) <$> l
            = (λ e, (key (entries lc e), value (entries lc e))) <$> l).
  { intros l Hl. apply list_fmap_ext. intros i x Hx.
    rewrite fn_lookup_insert_ne; [done|].
    intros <-. by apply Hl, list_elem_of_lookup_2 with i. }
  unfold Len, contents. rewrite length_fmap.
  destruct (bool_decide (capacity lc ≤ Z.of_nat (length (llist lc)))) eqn:Hfull.
  - destruct (llist lc) as [|e0 l0 _] eqn:Hl using rev_ind; simpl; [done|].
    unfold Back. rewrite last_snoc, fmap_app. simpl.
    destruct (((λ e, (key (entries lc e), value (entries lc e))) <$> l0)
              ++ [(key (entries lc e0), value (entries lc e0))]) as [|p0 s0] eqn:Hs.
    { by apply app_nil in Hs as [_ ?]. }
    rewrite <- Hs, removelast_last.
    assert (Hd : NoDup (l0 ++ [e0])) by (rewrite <- Hl; apply Hwf).
    eexists. split; [done|]. unfold Remove. rewrite filter_ne_snoc by done.
    assert (Hfl0 : fresh lc ∉ l0).
    { intros Hin. apply Hfresh, elem_of_app. by left. }
    split.
    * split; simpl.
      -- constructor; [done|]. by apply NoDup_app in Hd as (? & _).
      -- intros e He. apply elem_of_cons in He as [->|He].
         ++ by rewrite fn_lookup_insert, lookup_insert_eq.
         ++ rewrite fn_lookup_insert_ne by (intros <-; done).
            rewrite lookup_insert_ne.
            ** rewrite lookup_delete_ne.
               --- apply Hwf. rewrite Hl. apply elem_of_app. by left.
               --- intros Heq.
                   assert (He0 : e0 = e).
                   { apply (wf_key_inj lc); [done|..|done]; rewrite Hl;
                       apply elem_of_app;
                       [right; by apply list_elem_of_singleton | by left]. }
                   subst e. apply NoDup_app in Hd as (_ & Hdisj & _).
                   apply (Hdisj e0 He). by apply list_elem_of_singleton.
            ** intros Hke.
               assert (Hin : e ∈ llist lc) by (rewrite Hl; apply elem_of_app; by left).
               pose proof (wf_list lc Hwf e Hin). congruence.
      -- intros k' e. destruct (decide (k = k')) as [<-|Hkk].
         ++ rewrite lookup_insert_eq. intros [= <-].
           rewrite fn_lookup_insert. split; [left|done].
         ++ rewrite lookup_insert_ne by done.
            destruct (decide (key (entries lc e0) = k')) as [Hkd|Hkd];
              [by rewrite Hkd, lookup_delete_eq|].
            rewrite lookup_delete_ne by done.
            intros He. destruct (wf_map lc Hwf k' e He) as [Hin Hkey].
            rewrite Hl in Hin. apply elem_of_app in Hin as [Hin|Hin].
            ** split; [by right|].
               rewrite fn_lookup_insert_ne; [done|]. by intros <-.
            ** apply list_elem_of_singleton in Hin as ->. done.
      -- intros e He. apply elem_of_cons in He as [->|He]; [lia|].
         assert (Hin : e ∈ llist lc) by (rewrite Hl; apply elem_of_app; by left).
         apply (wf_fresh lc Hwf) in Hin. lia.
    * split; [done|]. unfold contents. simpl.
      rewrite fn_lookup_insert. simpl. f_equal. by apply Hcont.
  - eexists. split; [done|]. split.
    + split; simpl.
      * constructor; [done|apply Hwf].
      * intros e He. apply elem_of_cons in He as [->|He].
        -- by rewrite fn_lookup_insert, lookup_insert_eq.
        -- rewrite fn_lookup_insert_ne by (intros <-; done).
           rewrite lookup_insert_ne; [by apply Hwf|].
           intros Hke. pose proof (wf_list lc Hwf e He). congruence.
      * intros k' e. destruct (decide (k = k')) as [<-|Hkk].
        -- rewrite lookup_insert_eq. intros [= <-].
           rewrite fn_lookup_insert. split; [left|done].
        -- rewrite lookup_insert_ne by done.
           intros He. destruct (wf_map lc Hwf k' e He) as [Hin Hkey].
           split; [by right|]. rewrite fn_lookup_insert_ne; [done|]. by intros <-.
      * intros e He. apply elem_of_cons in He as [->|He]; [lia|].
        apply (wf_fresh lc Hwf) in He. lia.
    + split; [done|]. unfold contents. simpl.
      rewrite fn_lookup_insert. simpl. f_equal. by apply Hcont.
Qed.

End LRUFacts.

(** * Properties of the cache model written from the contract *)

Module LRUSpecFacts.
Import LRUSpec ListFacts.

Lemma assoc_None k s : assoc k s = None ↔ k ∉ s.*1.
Proof.
  induction s as [|[k' v] s IH]; simpl.
  - split; [intros _; apply not_elem_of_nil | done].
  - rewrite not_elem_of_cons. destruct (decide (k' = k)) as [->|Hne].
    + split; [done | intros [? _]; done].
    + rewrite IH. split; [intros ?; split; [congruence|done] | by intros [_ ?]].
Qed.

Lemma assoc_filter_ne k k' s :
  k ≠ k' → assoc k (filter (λ p, p.1 ≠ k') s) = assoc k s.
Proof.
  intros Hne. induction s as [|[k0 v0] s IH]; [done|].
  rewrite filter_cons. simpl. destruct (decide (k0 ≠ k')) as [H0|H0]; simpl.
  - by rewrite IH.
  - rewrite IH. rewrite decide_False; [done|].
    intros ->. by apply H0.
Qed.

Lemma assoc_touch k k' v s :
  assoc k (touch k' v s) = if decide (k' = k) then Some v else assoc k s.
Proof.
  unfold touch. simpl. destruct (decide (k' = k)); [done|].
  by apply assoc_filter_ne.
Qed.

Lemma assoc_removelast k v s :
  assoc k s = Some v →
  assoc k (removelast s) = Some v ∨ assoc k (removelast s) = None.
Proof.
  induction s as [|[k0 v0] s IH]; [done|]. intros Hk.
  destruct s as [|p s]; [by right|].
  change (removelast ((k0, v0) :: p :: s)) with ((k0, v0) :: removelast (p :: s)).
  simpl in Hk |- *. destruct (decide (k0 = k)); [by left|]. by apply IH.
Qed.

Lemma keys_filter k (s : list (string * float)) :
  (filter (λ p, p.1 ≠ k) s).*1 = filter (λ a, a ≠ k) s.*1.
Proof. by apply (fmap_filter_on fst (λ p, p.1 ≠ k) (λ a, a ≠ k)). Qed.

Lemma length_touch k v s :
  k ∈ s.*1 → (length (touch k v s) ≤ length s)%nat.
Proof.
  intros Hk. unfold touch. simpl.
  apply list_elem_of_fmap in Hk as ([k0 v0] & -> & Hin). simpl.
  apply (length_filter_lt (λ p, p.1 ≠ k0)) in Hin; [lia|].
  simpl. by intros ?.
Qed.

Lemma assoc_Some_elem k v s : assoc k s = Some v → k ∈ s.*1.
Proof.
  intros Hk. destruct (decide (k ∈ s.*1)) as [|Hn]; [done|].
  apply assoc_None in Hn. congruence.
Qed.

(** With a capacity of at least one the model never gets stuck and never
    holds more entries than the capacity. *)
Lemma step_length cap o s :
  1 ≤ cap → Z.of_nat (length s) ≤ cap →
  ∃ s', step cap o s = Some s' ∧ Z.of_nat (length s') ≤ cap.
Proof.
  intros Hcap Hlen. destruct o as [k|k v]; simpl.
  - eexists. split; [done|]. unfold get.
    destruct (assoc k s) as [v|] eqn:Hk; simpl; [|done].
    apply assoc_Some_elem, (length_touch k v) in Hk.
    unfold touch in *. simpl in *. lia.
  - unfold put. destruct (assoc k s) as [v0|] eqn:Hk.
    + eexists. split; [done|].
      apply assoc_Some_elem, (length_touch k v) in Hk.
      unfold touch in *. simpl in *. lia.
    + case_bool_decide as Hfull.
      * destruct s as [|p s _] using rev_ind; [simpl in Hfull; lia|].
        assert (Hl : length (s ++ [p]) = S (length s))
          by (rewrite length_app; simpl; lia).
        destruct (s ++ [p]) as [|q r] eqn:Hs; [by apply app_nil in Hs as [_ ?]|].
        rewrite <- Hs. eexists. split; [done|].
        rewrite removelast_last. simpl in *. lia.
      * eexists. split; [done|]. simpl. lia.
Qed.

Lemma run_length cap ops s :
  1 ≤ cap → Z.of_nat (length s) ≤ cap →
  ∃ s', run cap ops s = Some s' ∧ Z.of_nat (length s') ≤ cap.
Proof.
  intros Hcap. revert s. induction ops as [|o ops IH]; intros s Hlen; simpl.
  - eauto.
  - destruct (step_length cap o s Hcap Hlen) as (s' & -> & Hlen'). by apply IH.
Qed.

Lemma run_app cap ops1 ops2 s :
  run cap (ops1 ++ ops2) s =
  match run cap ops1 s with Some s' => run cap ops2 s' | None => None end.
Proof.
  revert s. induction ops1 as [|o ops1 IH]; intros s; simpl; [done|].
  destruct (step cap o s); [apply IH | done].
Qed.

(** *** Recency order *)

Lemma lastAccess_snoc k h o :
  lastAccess k (h ++ [o]) = if names o k then S (length h) else lastAccess k h.
Proof.
  induction h as [|o' h IH]; simpl.
  - by destruct (names o k).
  - rewrite IH. destruct (names o k); [done|].
    by destruct (lastAccess k h).
Qed.

Lemma names_keyOf o k : names o k = bool_decide (keyOf o = k).
Proof. by destruct o. Qed.

Lemma by_recency_keep h o s :
  keyOf o ∉ s.*1 → by_recency h s → by_recency (h ++ [o]) s.
Proof.
  intros Hk [Hs Hall].
  assert (Hsame : ∀ a, a ∈ s.*1 → lastAccess a (h ++ [o]) = lastAccess a h).
  { intros a Ha. rewrite lastAccess_snoc, names_keyOf.
    rewrite bool_decide_eq_false_2; [done|]. by intros <-. }
  split.
  - revert Hsame Hs. clear. generalize (s.*1). intros l.
    induction l as [|a l IH]; intros Hsame Hs; [constructor|].
    apply StronglySorted_cons in Hs as [Ha Hs].
    apply StronglySorted_cons. split.
    + rewrite Forall_forall in Ha. apply Forall_forall. intros b Hb.
      rewrite !Hsame; [by apply Ha | left | by right].
    + apply IH; [|done]. intros b Hb. apply Hsame. by right.
  - rewrite Forall_forall in Hall. apply Forall_forall. intros a Ha.
    rewrite Hsame, length_app by done. specialize (Hall a Ha). simpl. lia.
Qed.

Lemma by_recency_front h o v s (l : list (string * float)) :
  l.*1 `sublist_of` s.*1 → keyOf o ∉ l.*1 →
  by_recency h s → by_recency (h ++ [o]) ((keyOf o, v) :: l).
Proof.
  intros Hsub Hk [Hs Hall].
  assert (Hsame : ∀ a, a ∈ l.*1 → lastAccess a (h ++ [o]) = lastAccess a h).
  { intros a Ha. rewrite lastAccess_snoc, names_keyOf.
    rewrite bool_decide_eq_false_2; [done|]. by intros <-. }
  assert (Hnew : lastAccess (keyOf o) (h ++ [o]) = S (length h)).
  { by rewrite lastAccess_snoc, names_keyOf, bool_decide_eq_true_2. }
  rewrite Forall_forall in Hall.
  assert (Hold : ∀ a, a ∈ l.*1 → (0 < lastAccess a h ≤ length h)%nat).
  { intros a Ha. apply Hall. by eapply elem_of_sublist. }
  split; rewrite fmap_cons; simpl.
  - apply StronglySorted_cons. split.
    + apply Forall_forall. intros a Ha. rewrite Hnew, Hsame by done.
      specialize (Hold a Ha). lia.
    + apply (StronglySorted_sublist _ _ _ Hsub) in Hs.
      revert Hsame Hs. clear. generalize (l.*1). intros l0.
      induction l0 as [|a l0 IH]; intros Hsame Hs; [constructor|].
      apply StronglySorted_cons in Hs as [Ha Hs].
      apply StronglySorted_cons. split.
      * rewrite Forall_forall in Ha. apply Forall_forall. intros b Hb.
        rewrite !Hsame; [by apply Ha | left | by right].
      * apply IH; [|done]. intros b Hb. apply Hsame. by right.
  - constructor.
    + rewrite Hnew, length_app. simpl. lia.
    + apply Forall_forall. intros a Ha. rewrite Hsame, length_app by done.
      specialize (Hold a Ha). simpl. lia.
Qed.

Lemma by_recency_touch h o v s :
  by_recency h s → by_recency (h ++ [o]) (touch (keyOf o) v s).
Proof.
  intros Hs. unfold touch. apply (by_recency_front h o v s); [| |done].
  - rewrite keys_filter. apply sublist_filter.
  - rewrite keys_filter, list_elem_of_filter. by intros [? _].
Qed.

Lemma by_recency_step cap h o s s' :
  by_recency h s → step cap o s = Some s' → by_recency (h ++ [o]) s'.
Proof.
  intros Hs. destruct o as [k|k v]; simpl.
  - intros [= <-]. unfold get. destruct (assoc k s) as [v|] eqn:Hk; simpl.
    + by apply (by_recency_touch h (LRU.OGet k)).
    + apply by_recency_keep; [|done]. by apply assoc_None.
  - unfold put. destruct (assoc k s) as [v0|] eqn:Hk.
    + intros [= <-]. by apply (by_recency_touch h (LRU.OPut k v)).
    + apply assoc_None in Hk. case_bool_decide.
      * destruct s as [|p s0] eqn:Hs0; [done|]. rewrite <- Hs0 in *.
        intros [= <-]. apply (by_recency_front h (LRU.OPut k v) v s); [| |done].
        -- apply fmap_sublist, removelast_sublist.
        -- intros Hin. apply Hk. eapply elem_of_sublist; [done|].
           apply fmap_sublist, removelast_sublist.
      * intros [= <-]. by apply (by_recency_front h (LRU.OPut k v) v s).
Qed.

Lemma by_recency_run cap h ops s s' :
  by_recency h s → run cap ops s = Some s' → by_recency (h ++ ops) s'.
Proof.
  revert h s. induction ops as [|o ops IH]; intros h s Hs; simpl.
  - intros [= <-]. by rewrite app_nil_r.
  - destruct (step cap o s) as [s1|] eqn:Hstep; [|done]. intros Hrun.
    rewrite (cons_middle o), app_assoc. eapply IH; [|done].
    by eapply by_recency_step.
Qed.

Lemma by_recency_nil : by_recency [] [].
Proof. split; constructor. Qed.

(** In a list ordered by recency the last key is the least recently
    accessed one. *)
Lemma by_recency_last h s p a :
  by_recency h s → last s = Some p → a ∈ s.*1 →
  (lastAccess p.1 h ≤ lastAccess a h)%nat.
Proof.
  intros [Hs _] Hlast Ha. apply last_Some in Hlast as [s0 ->].
  rewrite fmap_app in Hs, Ha. simpl in *.
  apply elem_of_app in Ha as [Ha|Ha].
  - assert (Hlt : (lastAccess p.1 h < lastAccess a h)%nat); [|lia].
    apply (StronglySorted_app_1_elem_of _ _ _ a p.1 Hs Ha).
    by apply list_elem_of_singleton.
  - apply list_elem_of_singleton in Ha as ->. done.
Qed.

End LRUSpecFacts.

(** * LRU semantics and totality of the cache *)

Module LRUTheorems.
Import LRU LRUFacts LRUSpecFacts ListFacts.

Lemma step_refines lc o :
  wf lc →
  match LRUSpec.step (capacity lc) o (contents lc) with
  | Some s' => ∃ lc', step o lc = Ok lc' ∧ wf lc' ∧
                      capacity lc' = capacity lc ∧ contents lc' = s'
  | None => step o lc = Panic NilDereference
  end.
Proof.
  intros Hwf. destruct o as [k|k v]; simpl.
  - destruct (Get_refines lc k Hwf) as (Hwf' & Hcap & Hcont & _). eauto.
  - by apply Put_refines.
Qed.

Lemma run_refines ops : ∀ lc,
  wf lc →
  match LRUSpec.run (capacity lc) ops (contents lc) with
  | Some s' => ∃ lc', run ops lc = Ok lc' ∧ wf lc' ∧
                      capacity lc' = capacity lc ∧ contents lc' = s'
  | None => run ops lc = Panic NilDereference
  end.
Proof.
  induction ops as [|o ops IH]; intros lc Hwf; simpl; [eauto|].
  pose proof (step_refines lc o Hwf) as Hstep.
  destruct (LRUSpec.step (capacity lc) o (contents lc)) as [s1|].
  - destruct Hstep as (lc1 & -> & Hwf1 & Hcap1 & <-).
    specialize (IH lc1 Hwf1). rewrite Hcap1 in IH.
    destruct (LRUSpec.run (capacity lc) ops (contents lc1)) as [s2|]; [|done].
    destruct IH as (lc2 & -> & Hwf2 & Hcap2 & <-).
    exists lc2. split; [done|]. split; [done|]. split; [congruence|done].
  - by rewrite Hstep.
Qed.

(** Every state reached from a new cache of capacity at least one is
    well formed, holds at most [cap] entries and lists them by recency. *)
Lemma reachable cap h :
  1 ≤ cap →
  ∃ lc, run h (NewLRUCache cap) = Ok lc ∧ wf lc ∧ capacity lc = cap ∧
        Len (llist lc) ≤ cap ∧ LRUSpec.by_recency h (contents lc).
Proof.
  intros Hcap.
  pose proof (run_refines h (NewLRUCache cap) (wf_new cap)) as Href.
  simpl in Href. change (contents (NewLRUCache cap)) with (@nil (string * float)) in Href.
  destruct (run_length cap h [] Hcap) as (s' & Hrun & Hlen); [simpl; lia|].
  rewrite Hrun in Href. destruct Href as (lc & Hlc & Hwf & Hc & <-).
  exists lc. split; [done|]. split; [done|]. split; [done|]. split.
  - unfold Len. unfold contents in Hlen. by rewrite length_fmap in Hlen.
  - apply (by_recency_run cap [] h [] _ by_recency_nil Hrun).
Qed.

Lemma Get_result lc k :
  wf lc →
  (Get k lc).1 = match LRUSpec.assoc k (contents lc) with
                 | Some v => (v, true)
                 | None => (0%float, false)
                 end.
Proof.
  intros Hwf. destruct (Get_refines lc k Hwf) as (_ & _ & _ & ->).
  unfold LRUSpec.get. by destruct (LRUSpec.assoc k (contents lc)).
Qed.

Lemma keys_contents lc : keys lc = (contents lc).*1.
Proof. unfold keys, contents. by rewrite <- list_fmap_compose. Qed.

Lemma lookup_None_keys lc k : wf lc → (cache lc !! k = None ↔ k ∉ keys lc).
Proof.
  intros Hwf. rewrite <- (wf_lookup_keys lc k Hwf), eq_None_not_Some. done.
Qed.

Lemma run_nonpositive cap ops lc :
  cap ≤ 0 → run ops (NewLRUCache cap) = Ok lc → lc = NewLRUCache cap.
Proof.
  intros Hcap. induction ops as [|o ops IH]; simpl.
  - by intros [= <-].
  - destruct o as [k|k v]; simpl.
    + unfold Get. simpl. rewrite lookup_empty. simpl. apply IH.
    + unfold Put. simpl. rewrite lookup_empty.
      rewrite bool_decide_eq_true_2 by (unfold Len; simpl; lia). done.
Qed.

(** C10. A cache made by [NewLRUCache] with capacity at least one never
    panics in [Put] and never stores more entries than its capacity, whatever
    sequence of [Get] and [Put] is applied to it; with a capacity of zero or
    less, [Put] of a key that is not present dereferences the nil element
    returned by [Back] on the empty recency list. *)
Theorem Put_total_and_bounded (cap : Z) (ops : list op) :
  (1 ≤ cap →
     ∃ lc, run ops (NewLRUCache cap) = Ok lc ∧
           Len (llist lc) ≤ cap ∧ Z.of_nat (size (cache lc)) ≤ cap) ∧
  (cap ≤ 0 →
     ∀ lc k v, run ops (NewLRUCache cap) = Ok lc → cache lc !! k = None →
               Put k v lc = Panic NilDereference).
Proof.
  split.
  - intros Hcap. destruct (reachable cap ops Hcap) as (lc & Hrun & Hwf & _ & Hlen & _).
    exists lc. split; [done|]. split; [done|].
    rewrite wf_size by done. exact Hlen.
  - intros Hcap lc k v Hrun _. apply run_nonpositive in Hrun as ->; [|done].
    unfold Put. simpl. rewrite lookup_empty.
    rewrite bool_decide_eq_true_2 by (unfold Len; simpl; lia). done.
Qed.

Lemma Put_total_and_bounded_witness :
  (∃ lc, run [OPut "a" 1%float; OGet "a"; OPut "b" 2%float] (NewLRUCache 1) = Ok lc ∧
         Len (llist lc) ≤ 1 ∧ Z.of_nat (size (cache lc)) ≤ 1) ∧
  (∀ lc k v, run [OGet "a"] (NewLRUCache 0) = Ok lc → cache lc !! k = None →
             Put k v lc = Panic NilDereference).
Proof.
  split.
  - apply (proj1 (Put_total_and_bounded 1 [OPut "a" 1%float; OGet "a"; OPut "b" 2%float])).
    lia.
  - apply (proj2 (Put_total_and_bounded 0 [OGet "a"])). lia.
Defined.

(** *** Put then Get *)

Lemma step_assoc_keep cap o s s' k v :
  ¬ isPut k o → LRUSpec.assoc k s = Some v →
  LRUSpec.step cap o s = Some s' →
  LRUSpec.assoc k s' = Some v ∨ LRUSpec.assoc k s' = None.
Proof.
  intros Hput Hk. destruct o as [k'|k' v']; simpl in *.
  - intros [= <-]. unfold LRUSpec.get.
    destruct (LRUSpec.assoc k' s) as [v0|] eqn:Hk'; cbn [snd]; [|by left].
    rewrite assoc_touch. destruct (decide (k' = k)) as [->|]; [|by left].
    left. congruence.
  - unfold LRUSpec.put. destruct (LRUSpec.assoc k' s) as [v0|] eqn:Hk'.
    + intros [= <-]. rewrite assoc_touch, decide_False by done. by left.
    + case_bool_decide.
      * destruct s as [|p s0] eqn:Hs; [done|]. rewrite <- Hs in *.
        intros [= <-]. simpl. rewrite decide_False by done.
        by apply assoc_removelast.
      * intros [= <-]. simpl. rewrite decide_False by done. by left.
Qed.

Lemma retained lc ops : ∀ lc' k v,
  wf lc → LRUSpec.assoc k (contents lc) = Some v →
  run ops lc = Ok lc' → Forall (λ o, ¬ isPut k o) ops →
  k ∉ evictions ops lc →
  wf lc' ∧ LRUSpec.assoc k (contents lc') = Some v.
Proof.
  revert lc. induction ops as [|o ops IH]; intros lc lc' k v Hwf Hk; simpl.
  - by intros [= <-] _ _.
  - pose proof (step_refines lc o Hwf) as Hstep.
    destruct (LRUSpec.step (capacity lc) o (contents lc)) as [s1|] eqn:Hs1.
    2: { by rewrite Hstep. }
    destruct Hstep as (lc1 & Hlc1 & Hwf1 & _ & <-). rewrite Hlc1.
    intros Hrun Hall Hev. apply Forall_cons in Hall as [Ho Hall].
    apply not_elem_of_app in Hev as [Hev1 Hev].
    apply (IH lc1); try done.
    destruct (step_assoc_keep _ _ _ _ _ _ Ho Hk Hs1) as [|Hnone]; [done|].
    exfalso. apply Hev1. unfold evicted. apply list_elem_of_filter. split.
    + apply lookup_None_keys; [done|]. rewrite keys_contents.
      by apply assoc_None.
    + rewrite keys_contents. by eapply assoc_Some_elem.
Qed.

Lemma Put_reachable cap h lc k v :
  1 ≤ cap → run h (NewLRUCache cap) = Ok lc →
  ∃ lc1 s1, Put k v lc = Ok lc1 ∧ wf lc ∧ wf lc1 ∧ capacity lc = cap ∧
            LRUSpec.put cap k v (contents lc) = Some s1 ∧ contents lc1 = s1 ∧
            LRUSpec.by_recency h (contents lc) ∧ Len (llist lc) ≤ cap.
Proof.
  intros Hcap Hrun.
  destruct (reachable cap h Hcap) as (lc0 & Hrun0 & Hwf & Hc & Hlen & Hrec).
  assert (lc0 = lc) as -> by congruence.
  pose proof (Put_refines lc k v Hwf) as Hput. rewrite Hc in Hput.
  destruct (step_length cap (OPut k v) (contents lc) Hcap) as (s1 & Hs1 & _).
  { unfold contents. by rewrite length_fmap. }
  simpl in Hs1. rewrite Hs1 in Hput. destruct Hput as (lc1 & Hlc1 & Hwf1 & _ & Hc1).
  exists lc1, s1. done.
Qed.

(** *** Eviction *)

Lemma assoc_snoc_ne k s p :
  p.1 ≠ k → LRUSpec.assoc k (s ++ [p]) = LRUSpec.assoc k s.
Proof.
  intros Hne. induction s as [|[k0 v0] s IH]; simpl.
  - destruct p as [kp vp]. simpl in *. by rewrite decide_False.
  - by rewrite IH.
Qed.

Lemma filter_none {A} (P : A → Prop) `{∀ x, Decision (P x)} (l : list A) :
  (∀ x, x ∈ l → ¬ P x) → filter P l = [].
Proof.
  induction l as [|a l IH]; intros Hno; [done|].
  rewrite filter_cons_False by (apply Hno; left).
  apply IH. intros x Hx. apply Hno. by right.
Qed.

Lemma Put_evicts cap h lc k v :
  1 ≤ cap → run h (NewLRUCache cap) = Ok lc →
  Len (llist lc) = cap → cache lc !! k = None →
  ∃ lc1 victim,
    Put k v lc = Ok lc1 ∧ evicted lc lc1 = [victim] ∧
    (∀ k', k' ∈ keys lc →
           (LRUSpec.lastAccess victim h ≤ LRUSpec.lastAccess k' h)%nat) ∧
    (∀ k', k' ≠ k → k' ≠ victim → (Get k' lc1).1 = (Get k' lc).1) ∧
    (Get victim lc1).1 = (0%float, false) ∧
    (Get k lc1).1 = (v, true) ∧
    Len (llist lc1) = cap.
Proof.
  intros Hcap Hrun Hfull Hk.
  destruct (Put_reachable cap h lc k v Hcap Hrun)
    as (lc1 & s1 & Hput & Hwf & Hwf1 & Hc & Hs1 & Hc1 & Hrec & _).
  assert (Hnk : k ∉ (contents lc).*1).
  { rewrite <- keys_contents. by apply lookup_None_keys. }
  assert (Hlen : Z.of_nat (length (contents lc)) = cap).
  { unfold contents. by rewrite length_fmap. }
  unfold LRUSpec.put in Hs1. rewrite (proj2 (assoc_None _ _) Hnk) in Hs1.
  rewrite bool_decide_eq_true_2 in Hs1 by lia.
  destruct (contents lc) as [|p s0 _] eqn:Hs using rev_ind.
  { simpl in Hlen. lia. }
  destruct (s0 ++ [p]) as [|q r] eqn:Hs0; [by apply app_nil in Hs0 as [_ ?]|].
  rewrite <- Hs0 in *. clear Hs0 q r. rewrite removelast_last in Hs1.
  injection Hs1 as <-.
  pose proof (wf_nodup_keys lc Hwf) as Hnd. rewrite keys_contents, Hs in Hnd.
  rewrite fmap_app in Hnd, Hnk. simpl in Hnd.
  apply NoDup_app in Hnd as (_ & Hdisj & _).
  assert (Hp0 : p.1 ∉ s0.*1).
  { intros Hin. apply (Hdisj _ Hin). by apply list_elem_of_singleton. }
  apply not_elem_of_app in Hnk as [Hk0 Hkp].
  simpl in Hkp. rewrite list_elem_of_singleton in Hkp.
  exists lc1, p.1. split; [done|]. split; [|split; [|split; [|split; [|split]]]].
  - unfold evicted. rewrite keys_contents, Hs, fmap_app, filter_app. simpl.
    rewrite filter_none.
    + rewrite filter_cons_True; [done|].
      apply lookup_None_keys; [done|]. rewrite keys_contents, Hc1, fmap_cons.
      simpl. apply not_elem_of_cons. split; [congruence|done].
    + intros x Hx Hnone. apply lookup_None_keys in Hnone; [|done].
      apply Hnone. rewrite keys_contents, Hc1, fmap_cons. by right.
  - intros k' Hk'. rewrite keys_contents, Hs in Hk'.
    apply (by_recency_last h (s0 ++ [p])); [done| |done]. apply last_snoc.
  - intros k' Hne1 Hne2. rewrite !Get_result, Hc1, Hs by done. simpl.
    rewrite decide_False by done. by rewrite assoc_snoc_ne.
  - rewrite Get_result, Hc1 by done. simpl.
    rewrite decide_False by congruence.
    by rewrite (proj2 (assoc_None _ _) Hp0).
  - rewrite Get_result, Hc1 by done. simpl. by rewrite decide_True.
  - unfold Len. rewrite <- Hlen. f_equal.
    rewrite <- (length_fmap (λ e, (key (entries lc1 e), value (entries lc1 e)))).
    fold (contents lc1). rewrite Hc1, length_app. simpl. lia.
Qed.

(** *** Inserting distinct keys *)

Lemma run_puts_fit cap kvs : ∀ s,
  NoDup (kvs.*1 ++ s.*1) →
  Z.of_nat (length s + length kvs) ≤ cap →
  LRUSpec.run cap (puts kvs) s = Some (reverse kvs ++ s).
Proof.
  induction kvs as [|[k v] kvs IH]; intros s Hnd Hlen; [done|].
  simpl in *. apply NoDup_cons in Hnd as [Hk Hnd].
  apply not_elem_of_app in Hk as [Hk1 Hk2].
  unfold LRUSpec.put. rewrite (proj2 (assoc_None _ _) Hk2).
  rewrite bool_decide_eq_false_2 by lia.
  rewrite IH.
  - by rewrite reverse_cons, <- app_assoc.
  - simpl. apply NoDup_app. apply NoDup_app in Hnd as (Hn1 & Hdisj & Hn2).
    split; [done|]. split.
    + intros x Hx. apply not_elem_of_cons. split; [by intros ->|by apply Hdisj].
    + by constructor.
  - simpl. lia.
Qed.

Lemma assoc_NoDup k v s :
  NoDup s.*1 → (k, v) ∈ s → LRUSpec.assoc k s = Some v.
Proof.
  induction s as [|[k0 v0] s IH]; intros Hnd Hin; [by apply elem_of_nil in Hin|].
  simpl in *. apply NoDup_cons in Hnd as [Hk0 Hnd].
  apply elem_of_cons in Hin as [[= -> ->]|Hin].
  - by rewrite decide_True.
  - rewrite decide_False; [by apply IH|].
    intros ->. apply Hk0. apply list_elem_of_fmap. by exists (k, v).
Qed.

Lemma insert_distinct cap kvs :
  1 ≤ cap → NoDup kvs.*1 → Z.of_nat (length kvs) = cap + 1 →
  ∃ lc k1 v1, run (puts kvs) (NewLRUCache cap) = Ok lc ∧
    head kvs = Some (k1, v1) ∧
    contents lc = reverse (tail kvs) ∧
    (Get k1 lc).1 = (0%float, false) ∧
    (∀ k v, (k, v) ∈ tail kvs → (Get k lc).1 = (v, true)).
Proof.
  intros Hcap Hnd Hlen.
  destruct kvs as [|[kn vn] kvs0 _] using rev_ind; [simpl in Hlen; lia|].
  rewrite length_app in Hlen. simpl in Hlen.
  rewrite fmap_app in Hnd. simpl in Hnd.
  apply NoDup_app in Hnd as (Hnd0 & Hdisj & _).
  assert (Hkn : kn ∉ kvs0.*1).
  { intros Hin. apply (Hdisj _ Hin). by apply list_elem_of_singleton. }
  destruct kvs0 as [|[k1 v1] rest]; [simpl in Hlen; lia|].
  assert (Hspec : LRUSpec.run cap (puts (((k1, v1) :: rest) ++ [(kn, vn)])) []
                  = Some (reverse (rest ++ [(kn, vn)]))).
  { unfold puts. rewrite fmap_app. rewrite run_app.
    fold (puts ((k1, v1) :: rest)). rewrite run_puts_fit.
    - rewrite app_nil_r. simpl. unfold LRUSpec.put.
      rewrite (proj2 (assoc_None _ _)).
      + rewrite bool_decide_eq_true_2.
        * rewrite reverse_cons.
          destruct (reverse rest ++ [(k1, v1)]) as [|q r] eqn:Hr;
            [by apply app_nil in Hr as [_ ?]|].
          rewrite <- Hr, removelast_last. by rewrite reverse_snoc.
        * rewrite length_reverse. simpl in *. lia.
      + rewrite fmap_reverse, elem_of_reverse. done.
    - by rewrite app_nil_r.
    - simpl in *. lia. }
  pose proof (run_refines (puts (((k1, v1) :: rest) ++ [(kn, vn)]))
                (NewLRUCache cap) (wf_new cap)) as Href.
  simpl capacity in Href.
  change (contents (NewLRUCache cap)) with (@nil (string * float)) in Href.
  rewrite Hspec in Href. destruct Href as (lc & Hrun & Hwf & _ & Hc).
  exists lc, k1, v1. split; [done|]. split; [done|]. split; [done|].
  assert (Hndt : NoDup (reverse (rest ++ [(kn, vn)])).*1).
  { rewrite fmap_reverse, reverse_Permutation, fmap_app. simpl.
    apply NoDup_app. simpl in Hnd0. apply NoDup_cons in Hnd0 as [_ Hnd0].
    split; [done|]. split; [|apply NoDup_singleton].
    intros x Hx Hxn. apply list_elem_of_singleton in Hxn as ->.
    apply Hkn. simpl. by right. }
  split.
  - rewrite Get_result, Hc by done.
    rewrite (proj2 (assoc_None _ _)); [done|].
    rewrite fmap_reverse, elem_of_reverse, fmap_app. simpl.
    apply not_elem_of_app. simpl in Hnd0. apply NoDup_cons in Hnd0 as [Hk1 _].
    split; [done|]. rewrite list_elem_of_singleton. intros ->.
    apply Hkn. simpl. left.
  - intros k v Hin. rewrite Get_result, Hc by done.
    rewrite (assoc_NoDup k v); [done..|]. by apply elem_of_reverse.
Qed.

(** C4. The cache obeys LRU semantics, for every capacity of at least one
    and every state reached from a new cache:
    - after [Put k v], and any further operations among which there is no
      other [Put] of [k] and none evicts [k], [Get k] returns [v];
    - [Put] of a new key into a full cache evicts exactly one key, the one
      whose last access is the oldest, and leaves every other entry as it was;
    - inserting [cap + 1] distinct keys into a new cache evicts exactly the
      first one;
    - with capacity 2, after Put("a",1), Put("b",2), Put("c",3), Get("a")
      finds nothing, Get("b") returns 2 and Get("c") returns 3. *)
Theorem LRU_semantics (cap : Z) :
  1 ≤ cap →
  (∀ h lc k v,
     run h (NewLRUCache cap) = Ok lc →
     ∃ lc1, Put k v lc = Ok lc1 ∧
       ∀ ops lc2,
         run ops lc1 = Ok lc2 → Forall (λ o, ¬ isPut k o) ops →
         k ∉ evictions ops lc1 → (Get k lc2).1 = (v, true)) ∧
  (∀ h lc k v,
     run h (NewLRUCache cap) = Ok lc →
     Len (llist lc) = cap → cache lc !! k = None →
     ∃ lc1 victim,
       Put k v lc = Ok lc1 ∧ evicted lc lc1 = [victim] ∧
       (∀ k', k' ∈ keys lc →
              (LRUSpec.lastAccess victim h ≤ LRUSpec.lastAccess k' h)%nat) ∧
       (∀ k', k' ≠ k → k' ≠ victim → (Get k' lc1).1 = (Get k' lc).1) ∧
       (Get victim lc1).1 = (0%float, false) ∧
       (Get k lc1).1 = (v, true) ∧
       Len (llist lc1) = cap) ∧
  (∀ kvs,
     NoDup kvs.*1 → Z.of_nat (length kvs) = cap + 1 →
     ∃ lc k1 v1,
       run (puts kvs) (NewLRUCache cap) = Ok lc ∧
       head kvs = Some (k1, v1) ∧
       contents lc = reverse (tail kvs) ∧
       (Get k1 lc).1 = (0%float, false) ∧
       (∀ k v, (k, v) ∈ tail kvs → (Get k lc).1 = (v, true))) ∧
  (∃ lc,
     run [OPut "a" 1%float; OPut "b" 2%float; OPut "c" 3%float] (NewLRUCache 2)
     = Ok lc ∧
     Get "a" lc = (0%float, false, lc) ∧
     (Get "b" lc).1 = (2%float, true) ∧
     (Get "c" (Get "b" lc).2).1 = (3%float, true)).
Proof.
  intros Hcap. split; [|split; [|split]].
  - intros h lc k v Hrun.
    destruct (Put_reachable cap h lc k v Hcap Hrun)
      as (lc1 & s1 & Hput & Hwf & Hwf1 & Hc & Hs1 & Hc1 & _).
    exists lc1. split; [done|]. intros ops lc2 Hrun2 Hnoput Hnoev.
    assert (Hk1 : LRUSpec.assoc k (contents lc1) = Some v).
    { rewrite Hc1. unfold LRUSpec.put in Hs1.
      destruct (LRUSpec.assoc k (contents lc)).
      - injection Hs1 as <-. by rewrite assoc_touch, decide_True.
      - case_bool_decide.
        + destruct (contents lc); [done|]. injection Hs1 as <-.
          simpl. by rewrite decide_True.
        + injection Hs1 as <-. simpl. by rewrite decide_True. }
    destruct (retained lc1 ops lc2 k v Hwf1 Hk1 Hrun2 Hnoput Hnoev) as [Hwf2 Hk2].
    by rewrite Get_result, Hk2.
  - intros h lc k v. by apply Put_evicts.
  - intros kvs. by apply insert_distinct.
  - eexists. split; [reflexivity|]. by vm_compute.
Qed.

Lemma LRU_semantics_witness :
  ∃ lc k1 v1,
    run (puts [("x", 5%float); ("y", 6%float); ("z", 7%float)]) (NewLRUCache 2)
    = Ok lc ∧
    head [("x", 5%float); ("y", 6%float); ("z", 7%float)] = Some (k1, v1) ∧
    contents lc = reverse (tail [("x", 5%float); ("y", 6%float); ("z", 7%float)]) ∧
    (Get k1 lc).1 = (0%float, false) ∧
    (∀ k v, (k, v) ∈ tail [("x", 5%float); ("y", 6%float); ("z", 7%float)] →
            (Get k lc).1 = (v, true)).
Proof.
  apply (proj1 (proj2 (proj2 (LRU_semantics 2 ltac:(lia))))).
  - compute_done.
  - reflexivity.
Defined.

End LRUTheorems.

(** * Properties of keys and distances *)

Module TourFacts.
Import Tour Examples.

Lemma minIndex_ge i minIdx minVal path :
  (∀ v, v ∈ path → minVal ≤ v) → minIndex i minIdx minVal path = minIdx.
Proof.
  revert i. induction path as [|v rest IH]; intros i Hge; simpl; [done|].
  rewrite bool_decide_eq_false_2.
  - apply IH. intros w Hw. apply Hge. by right.
  - assert (Hv : minVal ≤ v) by (apply Hge; left). lia.
Qed.

(** The loop stops on the first occurrence of the least element. *)
Lemma minIndex_first l1 : ∀ i minIdx minVal m l2,
  (∀ v, v ∈ l1 → m < v) → (∀ v, v ∈ l2 → m ≤ v) → m < minVal →
  minIndex i minIdx minVal (l1 ++ m :: l2) = (i + length l1)%nat.
Proof.
  induction l1 as [|a l1 IH]; intros i minIdx minVal m l2 H1 H2 Hm; simpl.
  - rewrite bool_decide_eq_true_2 by done.
    rewrite minIndex_ge by done. lia.
  - assert (Ha : m < a) by (apply H1; left).
    assert (H1' : ∀ v, v ∈ l1 → m < v) by (intros v Hv; apply H1; by right).
    case_bool_decide; rewrite IH by done; lia.
Qed.

Lemma normalizePath_first l1 m l2 :
  (∀ v, v ∈ l1 → m < v) → (∀ v, v ∈ l2 → m ≤ v) →
  normalizePath (l1 ++ m :: l2) = m :: l2 ++ l1.
Proof.
  intros H1 H2. unfold normalizePath.
  destruct l1 as [|a l1]; simpl.
  - rewrite bool_decide_eq_false_2 by lia.
    rewrite minIndex_ge by done. simpl. by rewrite app_nil_r.
  - rewrite bool_decide_eq_false_2 by lia.
    assert (Ha : m < a) by (apply H1; left).
    rewrite minIndex_first; [|intros v Hv; apply H1; by right|done|done].
    change (a :: l1 ++ m :: l2) with ((a :: l1) ++ m :: l2).
    rewrite drop_app_length', take_app_length' by (simpl; lia). done.
Qed.

(** A non-empty sequence without repetition splits around its least
    element, which is smaller than every other one. *)
Lemma least_split (path : list Z) :
  path ≠ [] → NoDup path →
  ∃ l1 m l2, path = l1 ++ m :: l2 ∧ ∀ v, v ∈ l1 ++ l2 → m < v.
Proof.
  induction path as [|a rest IH]; intros Hne Hnd; [done|].
  apply NoDup_cons in Hnd as [Ha Hnd].
  destruct rest as [|b rest'].
  { exists [], a, []. split; [done|]. intros v Hv. by apply elem_of_nil in Hv. }
  destruct (IH ltac:(done) Hnd) as (l1 & m & l2 & Heq & Hmin).
  rewrite Heq in *. clear Heq IH.
  destruct (decide (a < m)) as [Hlt|Hge].
  - exists [], a, (l1 ++ m :: l2). split; [done|]. simpl.
    intros v Hv. apply elem_of_app in Hv as [Hv|Hv].
    + assert (m < v) by (apply Hmin, elem_of_app; by left). lia.
    + apply elem_of_cons in Hv as [->|Hv]; [done|].
      assert (m < v) by (apply Hmin, elem_of_app; by right). lia.
  - exists (a :: l1), m, l2. split; [done|]. simpl.
    intros v Hv. apply elem_of_cons in Hv as [->|Hv]; [|by apply Hmin].
    assert (a ≠ m); [|lia].
    intros ->. apply Ha. apply elem_of_app. right. left.
Qed.

(** Rotating a sequence split around [m] gives a sequence split around [m]
    with the same elements in the same cyclic order. *)
Lemma rotation_split (l1 l2 : list Z) m n :
  (n ≤ length (l1 ++ m :: l2))%nat →
  ∃ r1 r2,
    drop n (l1 ++ m :: l2) ++ take n (l1 ++ m :: l2) = r1 ++ m :: r2 ∧
    r2 ++ r1 = l2 ++ l1.
Proof.
  intros Hn. destruct (decide (n ≤ length l1)%nat) as [Hle|Hgt].
  - exists (drop n l1), (l2 ++ take n l1).
    rewrite drop_app_le, take_app_le by done.
    rewrite <- !app_assoc. simpl. split; [done|].
    by rewrite take_drop.
  - rewrite length_app in Hn. simpl in Hn.
    assert (Hj : ∃ j, n = (length l1 + S j)%nat)
      by (exists (n - length l1 - 1)%nat; lia).
    destruct Hj as [j ->].
    exists (drop j l2 ++ l1), (take j l2).
    rewrite drop_app_add, take_app_add. simpl.
    rewrite <- !app_assoc. split; [done|].
    by rewrite app_assoc, take_drop.
Qed.

Lemma normalizePath_rotation (path : list Z) n :
  (n ≤ length path)%nat → NoDup path →
  normalizePath (drop n path ++ take n path) = normalizePath path.
Proof.
  intros Hn Hnd. destruct (decide (path = [])) as [->|Hne].
  { by rewrite drop_nil, take_nil. }
  destruct (least_split path Hne Hnd) as (l1 & m & l2 & -> & Hmin).
  destruct (rotation_split l1 l2 m n Hn) as (r1 & r2 & -> & Hrot).
  assert (Hmin' : ∀ v, v ∈ r1 ++ r2 → m < v).
  { intros v Hv. apply Hmin.
    assert (Hv' : v ∈ r2 ++ r1) by (revert Hv; rewrite !elem_of_app; tauto).
    rewrite Hrot in Hv'. revert Hv'. rewrite !elem_of_app. tauto. }
  rewrite !normalizePath_first.
  - by rewrite Hrot.
  - intros v Hv. apply Hmin, elem_of_app. by left.
  - intros v Hv. apply Z.lt_le_incl, Hmin, elem_of_app. by right.
  - intros v Hv. apply Hmin', elem_of_app. by left.
  - intros v Hv. apply Z.lt_le_incl, Hmin', elem_of_app. by right.
Qed.

(** C3. [getKey] is a function of the contents of the tour alone, and the
    key of a tour (a sequence without repeated city) does not change when the
    sequence is rotated: by [n] places, or written as a cut [l2 ++ l1] of
    [l1 ++ l2]. *)
Theorem getKey_rotation_invariant (T : list Z) :
  NoDup T →
  (∀ n, getKey (rotate n T) = getKey T) ∧
  (∀ l1 l2, T = l1 ++ l2 → getKey (l2 ++ l1) = getKey T).
Proof.
  intros Hnd. split.
  - intros n. unfold getKey, rotate. f_equal.
    destruct (decide (T = [])) as [->|Hne]; [by rewrite drop_nil, take_nil|].
    apply normalizePath_rotation; [|done].
    apply Nat.lt_le_incl, Nat.mod_upper_bound.
    by destruct T.
  - intros l1 l2 ->. unfold getKey. f_equal.
    pose proof (normalizePath_rotation (l1 ++ l2) (length l1)) as Hrot.
    rewrite drop_app_length, take_app_length in Hrot.
    apply Hrot; [|done]. rewrite length_app. lia.
Qed.

Lemma getKey_rotation_invariant_witness :
  (∀ n, getKey (rotate n [3; 1; 2]) = getKey [3; 1; 2]) ∧
  (∀ l1 l2, [3; 1; 2] = l1 ++ l2 → getKey (l2 ++ l1) = getKey [3; 1; 2]).
Proof.
  apply (getKey_rotation_invariant [3; 1; 2]).
  compute_done.
Defined.

(** The absence of repetition matters: with the least city repeated, two
    rotations of one sequence get different keys. *)
Example getKey_repeated_minimum :
  rotate 2 [1; 2; 1; 3] = [1; 3; 1; 2] ∧
  getKey [1; 2; 1; 3] = "1,2,1,3" ∧ getKey [1; 3; 1; 2] = "1,3,1,2".
Proof. by vm_compute. Qed.

(** C1. The tours 1,2,3 and 3,1,2 are valid, are rotations of each other
    and have the same key, yet [calculateDistance] gives 6 for the first
    (0-1-2-3-0) and 8 for the second (0-3-1-2-0): the closed cycle goes
    through the fixed city 0, which a rotation of the sequence moves to
    another place of the cycle. *)
Theorem calculateDistance_rotation :
  validTour 4 [1; 2; 3] ∧ validTour 4 [3; 1; 2] ∧
  rotate 2 [1; 2; 3] = [3; 1; 2] ∧
  getKey [3; 1; 2] = getKey [1; 2; 3] ∧
  calculateDistance [1; 2; 3] line4 = Ok 6%float ∧
  calculateDistance [3; 1; 2] line4 = Ok 8%float.
Proof.
  split; [|split]; [| |by vm_compute].
  - by unfold validTour.
  - unfold validTour. apply (Permutation_cons_append [1; 2] 3).
Qed.

End TourFacts.

(** * Properties of the genetic operators *)

Module ProgFacts.
Import Tour Prog.

(** *** Stepping through monadic code *)

Lemma bind_Ok {A B} (m : M A) (k : A → M B) st a st' :
  m st = (Ok a, st') → (m ≫= k) st = k a st'.
Proof. intros H. unfold mbind, M_bind, bind. by rewrite H. Qed.

Lemma bind_Panic {A B} (m : M A) (k : A → M B) st e st' :
  m st = (Panic e, st') → (m ≫= k) st = (Panic e, st').
Proof. intros H. unfold mbind, M_bind, bind. by rewrite H. Qed.

Lemma bind_inv_Ok {A B} (m : M A) (k : A → M B) st b st2 :
  (m ≫= k) st = (Ok b, st2) →
  ∃ a st1, m st = (Ok a, st1) ∧ k a st1 = (Ok b, st2).
Proof.
  unfold mbind, M_bind, bind. destruct (m st) as [[a|e] st1]; [eauto|done].
Qed.

Lemma insert_contentsAt st l : <[l := contentsAt st l]> (heap st) = heap st.
Proof.
  unfold contentsAt. destruct (heap st !! l) as [p|] eqn:Hl; simpl.
  - by apply list_insert_id.
  - apply list_insert_ge. by apply lookup_ge_None.
Qed.

Lemma rearranged_refl l st : rearranged l st st.
Proof.
  repeat split. exists (contentsAt st l). split; [done|].
  by rewrite insert_contentsAt.
Qed.

Lemma rearranged_contents l st st' :
  rearranged l st st' → contentsAt st' l ≡ₚ contentsAt st l.
Proof.
  intros (_ & _ & _ & p' & Hp & Hh). unfold contentsAt at 1. rewrite Hh.
  destruct (decide (l < length (heap st))%nat) as [Hl|Hl].
  - by rewrite list_lookup_insert_eq.
  - rewrite list_insert_ge by lia. done.
Qed.

Lemma rearranged_trans l st1 st2 st3 :
  rearranged l st1 st2 → rearranged l st2 st3 → rearranged l st1 st3.
Proof.
  intros H12 H23. pose proof (rearranged_contents _ _ _ H12) as Hc.
  destruct H12 as (Ht1 & Hl1 & Hs1 & p1 & Hp1 & Hh1).
  destruct H23 as (Ht2 & Hl2 & Hs2 & p2 & Hp2 & Hh2).
  split; [congruence|]. split; [congruence|]. split; [congruence|].
  exists p2. split; [by rewrite Hp2|].
  by rewrite Hh2, Hh1, list_insert_insert_eq.
Qed.

Lemma rearranged_other l st st' l' :
  rearranged l st st' → l' ≠ l → heap st' !! l' = heap st !! l'.
Proof.
  intros (_ & _ & _ & p' & _ & ->) Hne. by rewrite list_lookup_insert_ne.
Qed.

(** *** The primitives *)

Lemma Intn_Ok n st :
  0 < n →
  ∃ v, Intn n st = (Ok v, mkState (heap st) (tape st) (S (cursor st)) (lru st)
                                  (stdout st)) ∧ 0 ≤ v < n.
Proof.
  intros Hn. unfold Intn. rewrite bool_decide_eq_false_2 by lia.
  eexists. split; [done|]. by apply Z.mod_pos_bound.
Qed.

Lemma Intn_Panic n st : n ≤ 0 → Intn n st = (Panic InvalidIntnArgument, st).
Proof. intros Hn. unfold Intn. by rewrite bool_decide_eq_true_2. Qed.

Lemma index_Some {A} (p : list A) i :
  0 ≤ i < Z.of_nat (length p) → ∃ v, index p i = Some v ∧ p !! Z.to_nat i = Some v.
Proof.
  intros Hi. unfold index. rewrite bool_decide_eq_true_2 by lia.
  destruct (lookup_lt_is_Some_2 p (Z.to_nat i)) as [v Hv]; [lia|]. eauto.
Qed.

Lemma swapCities_rearranged l a b st :
  0 ≤ a < Z.of_nat (length (contentsAt st l)) →
  0 ≤ b < Z.of_nat (length (contentsAt st l)) →
  ∃ st', swapCities l a b st = (Ok tt, st') ∧ rearranged l st st' ∧
         cursor st' = cursor st.
Proof.
  intros Ha Hb. unfold swapCities.
  erewrite bind_Ok; [|done]. fold (contentsAt st l).
  destruct (index_Some _ _ Ha) as (va & -> & Hva).
  destruct (index_Some _ _ Hb) as (vb & -> & Hvb).
  eexists. split; [done|]. split; [|done].
  repeat split. eexists. split; [|done].
  by apply Permutation_insert_swap.
Qed.

Lemma Intn_rearranged l n st :
  0 < n →
  ∃ v st', Intn n st = (Ok v, st') ∧ 0 ≤ v < n ∧ rearranged l st st' ∧
           heap st' = heap st.
Proof.
  intros Hn. destruct (Intn_Ok n st Hn) as (v & Hv & Hrange).
  eexists _, _. split; [done|]. split; [done|]. split; [|done].
  repeat split. exists (contentsAt st l). split; [done|]. simpl.
  by rewrite insert_contentsAt.
Qed.

Lemma contentsAt_heap st st' l :
  heap st' = heap st → contentsAt st' l = contentsAt st l.
Proof. unfold contentsAt. by intros ->. Qed.

(** *** [mutate] *)

Lemma swaps_rearranged l size k : ∀ st,
  size = Z.of_nat (length (contentsAt st l)) → 0 < size →
  ∃ st', times k (a ← Intn size; b ← Intn size; swapCities l a b) st
         = (Ok tt, st') ∧ rearranged l st st'.
Proof.
  induction k as [|k IH]; intros st Hsize Hpos; simpl.
  - eexists. split; [done|]. apply rearranged_refl.
  - destruct (Intn_rearranged l size st Hpos) as (a & st1 & Ha & Hra & Hr1 & Hh1).
    destruct (Intn_rearranged l size st1 Hpos) as (b & st2 & Hb & Hrb & Hr2 & Hh2).
    assert (Hc2 : contentsAt st2 l = contentsAt st l).
    { unfold contentsAt. by rewrite Hh2, Hh1. }
    destruct (swapCities_rearranged l a b st2) as (st3 & Hsw & Hr3 & _);
      [rewrite Hc2; lia..|].
    destruct (IH st3) as (st4 & Hloop & Hr4); [|done|].
    { rewrite (Permutation_length (rearranged_contents _ _ _ Hr3)), Hc2. done. }
    exists st4. split.
    + erewrite bind_Ok; [done|].
      erewrite bind_Ok; [|done]. erewrite bind_Ok; [|done]. done.
    + exact (rearranged_trans _ _ _ _
               (rearranged_trans _ _ _ _
                  (rearranged_trans _ _ _ _ Hr1 Hr2) Hr3) Hr4).
Qed.

(** [mutate] hands back the route it was given.  It rearranges the
    sequence of that route in place and touches nothing else but the random
    source; it panics only on an empty sequence. *)
Lemma mutate_spec route rate st :
  ∃ res st',
    mutate route rate st = (res, st') ∧ rearranged (path route) st st' ∧
    (res = Ok route ∨
     (res = Panic InvalidIntnArgument ∧ contentsAt st (path route) = [])).
Proof.
  unfold mutate.
  set (st1 := mkState (heap st) (tape st) (S (cursor st)) (lru st) (stdout st)).
  assert (Hr1 : rearranged (path route) st st1).
  { repeat split. exists (contentsAt st (path route)). split; [done|].
    simpl. by rewrite insert_contentsAt. }
  erewrite bind_Ok; [|by unfold Float64; fold st1].
  destruct (PrimFloat.leb rate _).
  { eexists _, _. split; [done|]. split; [done|]. by left. }
  erewrite bind_Ok; [|done].
  destruct (Intn_rearranged (path route) 3 st1) as (n & st2 & Hn & Hrn & Hr2 & Hh2);
    [lia|].
  erewrite bind_Ok; [|done].
  assert (Hc2 : contentsAt st2 (path route) = contentsAt st (path route)).
  { unfold contentsAt. by rewrite Hh2. }
  fold (contentsAt st1 (path route)).
  change (contentsAt st1 (path route)) with (contentsAt st (path route)).
  destruct (contentsAt st (path route)) as [|c p] eqn:Hp.
  - replace (Z.to_nat (n + 1)) with (S (Z.to_nat n)) by lia. simpl.
    erewrite bind_Panic;
      [|erewrite bind_Panic;
         [done|erewrite bind_Panic; [done|by apply Intn_Panic]]].
    eexists _, _. split; [done|]. split; [|by right].
    exact (rearranged_trans _ _ _ _ Hr1 Hr2).
  - destruct (swaps_rearranged (path route) (Z.of_nat (length (c :: p)))
                (Z.to_nat (n + 1)) st2) as (st3 & Hloop & Hr3).
    { by rewrite Hc2. }
    { simpl. lia. }
    erewrite bind_Ok; [|done].
    eexists _, _. split; [done|]. split; [|by left].
    exact (rearranged_trans _ _ _ _ (rearranged_trans _ _ _ _ Hr1 Hr2) Hr3).
Qed.

(** When the draw is not below the rate, nothing but the random source
    changes. *)
Lemma mutate_skip route rate st :
  PrimFloat.leb rate
    (PrimFloat.of_uint63 (Uint63.of_Z (Z.of_N (tape st (cursor st)) `mod` 2 ^ 53))
     / 0x1p53)%float = true →
  mutate route rate st
  = (Ok route, mkState (heap st) (tape st) (S (cursor st)) (lru st) (stdout st)).
Proof.
  intros Hskip. unfold mutate.
  erewrite bind_Ok; [|by unfold Float64]. by rewrite Hskip.
Qed.

(** *** [crossover] *)

Lemma isUsed_insert used c c' :
  isUsed (<[c := true]> used) c' = true ↔ c' = c ∨ isUsed used c' = true.
Proof.
  unfold isUsed. destruct (decide (c = c')) as [->|Hne].
  - rewrite lookup_insert_eq. simpl. tauto.
  - rewrite lookup_insert_ne by done. split; [tauto|]. intros [->|H]; done.
Qed.

Lemma isUsed_empty c : isUsed ∅ c = false.
Proof. unfold isUsed. by rewrite lookup_empty. Qed.

(** The segment loop copies the cities of positions [i .. i+n-1] of each
    parent into the same positions of its child and marks them used. *)
Lemma copySegment_spec n : ∀ i p1 p2 X1 Y1 u1 X2 Y2 u2,
  length X1 = i → length X2 = i →
  (n ≤ length Y1)%nat → (n ≤ length Y2)%nat →
  (i + n ≤ length p1)%nat → (i + n ≤ length p2)%nat →
  ∃ u1' u2',
    copySegment n i p1 p2 (X1 ++ Y1, u1, X2 ++ Y2, u2)
    = Ok (X1 ++ take n (drop i p1) ++ drop n Y1, u1',
          X2 ++ take n (drop i p2) ++ drop n Y2, u2') ∧
    (∀ c, isUsed u1' c = true ↔ isUsed u1 c = true ∨ c ∈ take n (drop i p1)) ∧
    (∀ c, isUsed u2' c = true ↔ isUsed u2 c = true ∨ c ∈ take n (drop i p2)).
Proof.
  induction n as [|n IH]; intros i p1 p2 X1 Y1 u1 X2 Y2 u2 HX1 HX2 HY1 HY2 Hp1 Hp2.
  - simpl. rewrite !drop_0. exists u1, u2. split; [done|].
    split; intros c; rewrite elem_of_nil; tauto.
  - destruct (lookup_lt_is_Some_2 p1 i) as [c1 Hc1]; [lia|].
    destruct (lookup_lt_is_Some_2 p2 i) as [c2 Hc2]; [lia|].
    destruct Y1 as [|y1 Y1]; [simpl in HY1; lia|].
    destruct Y2 as [|y2 Y2]; [simpl in HY2; lia|].
    simpl in HY1, HY2. simpl copySegment. rewrite Hc1, Hc2.
    assert (Hins : ∀ (X Y : list Z) y c, length X = i →
              <[i:=c]> (X ++ y :: Y) = (X ++ [c]) ++ Y).
    { intros X Y y c <-. rewrite <- (Nat.add_0_r (length X)), insert_app_r.
      simpl. by rewrite <- app_assoc. }
    rewrite !Hins by done.
    destruct (IH (S i) p1 p2 (X1 ++ [c1]) Y1 (<[c1:=true]> u1)
                (X2 ++ [c2]) Y2 (<[c2:=true]> u2))
      as (u1' & u2' & -> & Hu1 & Hu2);
      [rewrite length_app; simpl; lia..|lia|lia|lia|lia|].
    exists u1', u2'.
    rewrite (drop_S p1 c1 i Hc1), (drop_S p2 c2 i Hc2). simpl.
    rewrite <- !app_assoc. simpl. split; [done|].
    split; intros c.
    + rewrite Hu1, isUsed_insert, elem_of_cons. tauto.
    + rewrite Hu2, isUsed_insert, elem_of_cons. tauto.
Qed.

Lemma fillLoop_filter size used parent : ∀ child pos,
  fillLoop size used child pos parent
  = fillLoop size ∅ child pos (filter (λ c, isUsed used c = false) parent).
Proof.
  induction parent as [|c rest IH]; intros child pos; [done|].
  rewrite filter_cons. simpl.
  destruct (decide (isUsed used c = false)) as [Hc|Hc].
  - rewrite Hc. simpl. rewrite isUsed_empty. simpl. apply IH.
  - apply not_false_is_true in Hc. rewrite Hc. simpl. apply IH.
Qed.

Lemma fillLoop_app size w1 : ∀ child pos w2,
  (pos < size)%nat →
  fillLoop size ∅ child pos (w1 ++ w2)
  = fillLoop size ∅ (fillLoop size ∅ child pos w1)
      ((pos + length w1) `mod` size) w2.
Proof.
  induction w1 as [|c w1 IH]; intros child pos w2 Hpos; simpl.
  - by rewrite Nat.add_0_r, Nat.mod_small.
  - rewrite isUsed_empty. simpl. rewrite IH.
    + f_equal. rewrite Nat.Div0.add_mod_idemp_l. f_equal. lia.
    + apply Nat.mod_upper_bound. lia.
Qed.

(** Without wrap-around the loop writes the cities one after the other. *)
Lemma fillLoop_nowrap size w : ∀ child pos,
  length child = size → (pos + length w ≤ size)%nat →
  fillLoop size ∅ child pos w
  = take pos child ++ w ++ drop (pos + length w) child.
Proof.
  induction w as [|c w IH]; intros child pos Hlen Hfit; simpl.
  - by rewrite Nat.add_0_r, take_drop.
  - simpl in Hfit. rewrite isUsed_empty. simpl.
    assert (Hins : <[pos:=c]> child = take pos child ++ c :: drop (S pos) child).
    { apply insert_take_drop. lia. }
    destruct w as [|c' w].
    + simpl. rewrite Hins. do 2 f_equal. f_equal. lia.
    + rewrite Nat.mod_small by (simpl in Hfit; lia).
      rewrite IH; [|by rewrite length_insert|simpl in *; lia].
      rewrite Hins at 1.
      rewrite take_app_add' by (rewrite length_take; lia).
      rewrite drop_insert_lt by lia.
      rewrite <- app_assoc. simpl. do 5 f_equal. lia.
Qed.

(** Filling a child whose segment [seg] sits at positions [a .. b] with the
    cities [rest]: the first ones go after the segment, the others, after
    wrapping around, before it. *)
Lemma fillLoop_around size a b (Z1 seg Z2 rest : list Z) :
  length Z1 = a → length seg = (S b - a)%nat → (a ≤ b < size)%nat →
  length Z2 = (size - S b)%nat →
  length rest = (a + (size - S b))%nat →
  fillLoop size ∅ (Z1 ++ seg ++ Z2) ((b + 1) `mod` size) rest
  = drop (size - S b) rest ++ seg ++ take (size - S b) rest.
Proof.
  intros HZ1 Hseg Hab HZ2 Hrest.
  set (t := (size - S b)%nat) in *.
  assert (Hpos : ((b + 1) `mod` size + t ≤ size)%nat ∧
                 (((b + 1) `mod` size + t) `mod` size = 0)%nat ∧
                 take ((b + 1) `mod` size) (Z1 ++ seg ++ Z2) ++ take t rest ++
                   drop ((b + 1) `mod` size + t) (Z1 ++ seg ++ Z2)
                 = Z1 ++ seg ++ take t rest).
  { destruct (decide (b + 1 = size)%nat) as [Heq|Hne].
    - rewrite Heq, Nat.Div0.mod_same. assert (t = 0)%nat as -> by lia.
      destruct Z2; [|simpl in HZ2; lia]. simpl.
      rewrite Nat.Div0.mod_0_l. split; [lia|done].
    - rewrite Nat.mod_small by lia.
      replace (b + 1 + t)%nat with size by lia. rewrite Nat.Div0.mod_same.
      split; [lia|]. split; [done|].
      rewrite (app_assoc Z1 seg Z2), take_app_length' by (rewrite length_app; lia).
      rewrite drop_ge by (rewrite !length_app; lia).
      by rewrite app_nil_r, <- app_assoc. }
  destruct Hpos as (Hfit & Hnext & Hfirst).
  rewrite <- (take_drop t rest) at 1.
  rewrite fillLoop_app by (apply Nat.mod_upper_bound; lia).
  assert (Hlt : length (take t rest) = t) by (rewrite length_take; lia).
  rewrite Hlt, Hnext.
  rewrite (fillLoop_nowrap size (take t rest));
    [|rewrite !length_app; lia|lia].
  rewrite Hlt, Hfirst.
  rewrite fillLoop_nowrap; [| |rewrite length_drop; simpl; lia].
  2: { rewrite !length_app, length_take. lia. }
  simpl. rewrite length_drop.
  rewrite drop_app_length' by lia. done.
Qed.

(** A child is a permutation of the parents. *)
Lemma child_perm size a b (pA pB : list Z) used :
  length pA = size → NoDup pA → pA ≡ₚ pB → (a ≤ b < size)%nat →
  (∀ c, isUsed used c = true ↔ c ∈ take (S b - a) (drop a pA)) →
  fillChild size b
    (replicate a 0 ++ take (S b - a) (drop a pA) ++ replicate (size - S b) 0)
    pB used ≡ₚ pA.
Proof.
  intros Hlen Hnd Hperm Hab Hused.
  set (seg := take (S b - a) (drop a pA)) in *.
  set (rest := filter (λ c, isUsed used c = false) pB).
  assert (Hsub : seg `sublist_of` pA).
  { unfold seg. etrans; [apply sublist_take|apply sublist_drop]. }
  assert (Hseglen : length seg = (S b - a)%nat).
  { unfold seg. rewrite length_take, length_drop. lia. }
  assert (HndB : NoDup pB) by (by rewrite <- Hperm).
  assert (Hin : filter (λ c, ¬ isUsed used c = false) pB ≡ₚ seg).
  { apply NoDup_Permutation.
    - by apply NoDup_filter.
    - exact (sublist_NoDup _ _ Hnd Hsub).
    - intros c. rewrite list_elem_of_filter, not_false_iff_true, Hused.
      split; [tauto|]. intros Hc. split; [done|].
      rewrite <- Hperm. exact (elem_of_sublist _ _ _ Hc Hsub). }
  assert (Hall : rest ++ seg ≡ₚ pB).
  { rewrite <- Hin. apply filter_app_complement. }
  assert (Hrestlen : length rest = (a + (size - S b))%nat).
  { apply Permutation_length in Hall. apply Permutation_length in Hperm.
    rewrite length_app in Hall. lia. }
  unfold fillChild. rewrite fillLoop_filter. fold rest.
  rewrite (fillLoop_around size a b);
    [|by rewrite length_replicate|done|done|by rewrite length_replicate|done].
  rewrite Hperm, <- Hall.
  rewrite (Permutation_app_comm (drop (size - S b) rest)), <- app_assoc.
  rewrite take_drop. apply Permutation_app_comm.
Qed.

Lemma crossoverPaths_perm a b (p1 p2 : list Z) :
  (a ≤ b < length p1)%nat → NoDup p1 → p1 ≡ₚ p2 →
  ∃ c1 c2, crossoverPaths a b p1 p2 = Ok (c1, c2) ∧ c1 ≡ₚ p1 ∧ c2 ≡ₚ p1.
Proof.
  intros Hab Hnd Hperm. unfold crossoverPaths.
  pose proof (Permutation_length Hperm) as Hlen.
  set (size := length p1) in *.
  assert (Hrep : replicate size 0 = replicate a 0 ++ replicate (size - a) 0).
  { rewrite <- replicate_add. f_equal. lia. }
  rewrite Hrep.
  destruct (copySegment_spec (S b - a) a p1 p2
              (replicate a 0) (replicate (size - a) 0) ∅
              (replicate a 0) (replicate (size - a) 0) ∅)
    as (u1 & u2 & -> & Hu1 & Hu2);
    [by rewrite length_replicate..|rewrite length_replicate; lia
    |rewrite length_replicate; lia|fold size; lia|lia|].
  rewrite drop_replicate.
  replace (size - a - (S b - a))%nat with (size - S b)%nat by lia.
  eexists _, _. split; [done|]. split.
  - apply child_perm; [done..|lia|].
    intros c. rewrite Hu1, isUsed_empty.
    split; [intros [?|?]; done | by right].
  - etrans; [|symmetry; exact Hperm]. apply child_perm.
    + lia.
    + by rewrite <- Hperm.
    + done.
    + lia.
    + intros c. rewrite Hu2, isUsed_empty.
      split; [intros [?|?]; done | by right].
Qed.

(** [crossover] reads its parents and the random source and allocates two
    new arrays for the children; it panics only when the first parent is
    empty or the second one is shorter than the first. *)
Lemma crossover_spec parent1 parent2 st :
  ∃ res st',
    crossover parent1 parent2 st = (res, st') ∧
    tape st' = tape st ∧ lru st' = lru st ∧ stdout st' = stdout st ∧
    match res with
    | Ok (c1, c2) =>
        ∃ q1 q2,
          heap st' = heap st ++ [q1; q2] ∧
          c1 = mkRoute (length (heap st)) 0 ∧
          c2 = mkRoute (S (length (heap st))) 0 ∧
          (NoDup (contentsAt st (path parent1)) →
           contentsAt st (path parent1) ≡ₚ contentsAt st (path parent2) →
           q1 ≡ₚ contentsAt st (path parent1) ∧
           q2 ≡ₚ contentsAt st (path parent1))
    | Panic e =>
        heap st' = heap st ∧
        (NoDup (contentsAt st (path parent1)) →
         contentsAt st (path parent1) ≡ₚ contentsAt st (path parent2) →
         contentsAt st (path parent1) = [])
    end.
Proof.
  unfold crossover.
  erewrite bind_Ok; [|done]. erewrite bind_Ok; [|done].
  fold (contentsAt st (path parent1)). fold (contentsAt st (path parent2)).
  set (p1 := contentsAt st (path parent1)).
  set (p2 := contentsAt st (path parent2)).
  destruct (decide (0 < Z.of_nat (length p1))) as [Hpos|Hpos].
  2: { erewrite bind_Panic; [|apply Intn_Panic; lia].
       eexists _, _. split; [done|]. repeat (split; [done|]).
       intros _ _. destruct p1; [done|simpl in Hpos; lia]. }
  destruct (Intn_Ok _ st Hpos) as (a0 & Ha0 & Hra).
  erewrite bind_Ok; [|done].
  destruct (Intn_Ok _ (mkState (heap st) (tape st) (S (cursor st)) (lru st)
                               (stdout st)) Hpos) as (b0 & Hb0 & Hrb).
  erewrite bind_Ok; [|done]. simpl in *.
  assert (Hab : ∃ a b, (if bool_decide (a0 > b0) then (b0, a0) else (a0, b0))
                       = (a, b) ∧ 0 ≤ a ∧ a ≤ b ∧ b < Z.of_nat (length p1)).
  { case_bool_decide; eexists _, _; (split; [done|lia]). }
  destruct Hab as (a & b & -> & Hab).
  destruct (crossoverPaths (Z.to_nat a) (Z.to_nat b) p1 p2)
    as [[q1 q2]|e] eqn:Hcross.
  - eexists _, _. split; [done|]. simpl. repeat (split; [done|]).
    exists q1, q2. rewrite <- app_assoc. split; [done|]. split; [done|].
    split; [by rewrite length_app; simpl; rewrite Nat.add_1_r|].
    intros Hnd Hperm.
    destruct (crossoverPaths_perm (Z.to_nat a) (Z.to_nat b) p1 p2)
      as (c1 & c2 & Hc & Hc1 & Hc2); [lia|done|done|].
    rewrite Hcross in Hc. by injection Hc as <- <-.
  - eexists _, _. split; [done|]. simpl. repeat (split; [done|]).
    intros Hnd Hperm.
    destruct (crossoverPaths_perm (Z.to_nat a) (Z.to_nat b) p1 p2)
      as (c1 & c2 & Hc & _); [lia|done|done|].
    by rewrite Hcross in Hc.
Qed.

End ProgFacts.

(** * Crossover, mutation and the retrying wrapper *)

Module OperatorTheorems.
Import Tour Prog ProgFacts Examples.

Lemma validTour_NoDup N p : validTour N p → NoDup p.
Proof. intros Hp. unfold validTour in Hp. rewrite Hp. apply NoDup_seqZ. Qed.

Lemma validTour_nonempty N p : 2 ≤ N → validTour N p → p ≠ [].
Proof.
  intros HN Hp ->. apply Permutation_length in Hp.
  rewrite length_seqZ in Hp. simpl in Hp. lia.
Qed.

Lemma contentsAt_new st st' q1 q2 :
  heap st' = heap st ++ [q1; q2] →
  contentsAt st' (length (heap st)) = q1 ∧
  contentsAt st' (S (length (heap st))) = q2.
Proof.
  intros Hh. unfold contentsAt. rewrite Hh. split.
  - by rewrite list_lookup_middle.
  - rewrite (cons_middle q1 (heap st) [q2]), app_assoc.
    rewrite list_lookup_middle; [done|]. rewrite length_app. simpl. lia.
Qed.

(** C2. On parents that are valid tours over [N] cities, whatever the random
    draws, the two children that [crossover] returns are valid tours over [N]
    cities, and so is the tour that [mutate] returns, for every mutation
    rate; with at least two cities both operators do return. *)
Theorem operators_preserve_validity (N : Z) (st : State)
    (parent1 parent2 : Route) (rate : float) :
  validTour N (contentsAt st (path parent1)) →
  validTour N (contentsAt st (path parent2)) →
  (∀ c1 c2 st',
     crossover parent1 parent2 st = (Ok (c1, c2), st') →
     validTour N (contentsAt st' (path c1)) ∧
     validTour N (contentsAt st' (path c2))) ∧
  (2 ≤ N → ∃ c1 c2 st', crossover parent1 parent2 st = (Ok (c1, c2), st')) ∧
  (∀ r st',
     mutate parent1 rate st = (Ok r, st') →
     validTour N (contentsAt st' (path r))) ∧
  (2 ≤ N → ∃ r st', mutate parent1 rate st = (Ok r, st')).
Proof.
  intros Hv1 Hv2.
  pose proof (validTour_NoDup _ _ Hv1) as Hnd.
  assert (Hperm : contentsAt st (path parent1) ≡ₚ contentsAt st (path parent2)).
  { unfold validTour in *. by rewrite Hv1, Hv2. }
  destruct (crossover_spec parent1 parent2 st)
    as (res & st1 & Hcross & _ & _ & _ & Hres).
  destruct (mutate_spec parent1 rate st) as (mres & st2 & Hmut & Hre & Hmres).
  split; [|split; [|split]].
  - intros c1 c2 st' Heq. rewrite Hcross in Heq. injection Heq as -> <-.
    destruct Hres as (q1 & q2 & Hh & -> & -> & Hq).
    destruct (Hq Hnd Hperm) as [Hq1 Hq2]. simpl.
    destruct (contentsAt_new st st1 q1 q2 Hh) as [-> ->].
    unfold validTour in *. by rewrite Hq1, Hq2.
  - intros HN. destruct res as [[c1 c2]|e]; [eauto|].
    destruct Hres as [_ Hempty].
    by destruct (validTour_nonempty N _ HN Hv1 (Hempty Hnd Hperm)).
  - intros r st' Heq. rewrite Hmut in Heq. injection Heq as -> <-.
    destruct Hmres as [[= ->]|[? _]]; [|done].
    unfold validTour in *. by rewrite (rearranged_contents _ _ _ Hre).
  - intros HN. destruct Hmres as [->|[_ Hempty]]; [eauto|].
    by destruct (validTour_nonempty N _ HN Hv1 Hempty).
Qed.

Lemma operators_preserve_validity_witness :
  (∀ c1 c2 st',
     crossover (mkRoute 0 0) (mkRoute 1 0)
       (stateOf [[1; 2; 3]; [3; 1; 2]] [1; 2]%N 10) = (Ok (c1, c2), st') →
     validTour 4 (contentsAt st' (path c1)) ∧
     validTour 4 (contentsAt st' (path c2))) ∧
  (2 ≤ 4 →
   ∃ c1 c2 st',
     crossover (mkRoute 0 0) (mkRoute 1 0)
       (stateOf [[1; 2; 3]; [3; 1; 2]] [1; 2]%N 10) = (Ok (c1, c2), st')) ∧
  (∀ r st',
     mutate (mkRoute 0 0) 1%float (stateOf [[1; 2; 3]; [3; 1; 2]] [1; 2]%N 10)
     = (Ok r, st') →
     validTour 4 (contentsAt st' (path r))) ∧
  (2 ≤ 4 →
   ∃ r st',
     mutate (mkRoute 0 0) 1%float (stateOf [[1; 2; 3]; [3; 1; 2]] [1; 2]%N 10)
     = (Ok r, st')).
Proof.
  apply (operators_preserve_validity 4
           (stateOf [[1; 2; 3]; [3; 1; 2]] [1; 2]%N 10)
           (mkRoute 0 0) (mkRoute 1 0) 1%float).
  - exact (Permutation_refl [1; 2; 3]).
  - exact (Permutation_cons_append [1; 2] 3).
Defined.

(** C8, as the code has it.  [crossover] puts its children in two new
    arrays and leaves every existing sequence as it was.  [mutate] returns
    the route it was given, which shares its sequence with the caller's: the
    swaps are made in place, no other sequence changes, and the caller's
    sequence is unchanged when the draw is not below the rate. *)
Theorem operators_sharing (st : State) (parent1 parent2 : Route) (rate : float) :
  (∀ c1 c2 st',
     crossover parent1 parent2 st = (Ok (c1, c2), st') →
     path c1 = length (heap st) ∧ path c2 = S (length (heap st)) ∧
     ∀ l, (l < length (heap st))%nat → heap st' !! l = heap st !! l) ∧
  (∀ r st',
     mutate parent1 rate st = (Ok r, st') →
     r = parent1 ∧
     contentsAt st' (path parent1) ≡ₚ contentsAt st (path parent1) ∧
     ∀ l, l ≠ path parent1 → heap st' !! l = heap st !! l) ∧
  (PrimFloat.leb rate
     (PrimFloat.of_uint63 (Uint63.of_Z (Z.of_N (tape st (cursor st)) `mod` 2 ^ 53))
      / 0x1p53)%float = true →
   ∃ st', mutate parent1 rate st = (Ok parent1, st') ∧ heap st' = heap st).
Proof.
  split; [|split].
  - intros c1 c2 st' Heq.
    destruct (crossover_spec parent1 parent2 st)
      as (res & st1 & Hcross & _ & _ & _ & Hres).
    rewrite Hcross in Heq. injection Heq as -> <-.
    destruct Hres as (q1 & q2 & Hh & -> & -> & _).
    split; [done|]. split; [done|].
    intros l Hl. rewrite Hh. by apply lookup_app_l.
  - intros r st' Heq.
    destruct (mutate_spec parent1 rate st) as (mres & st2 & Hmut & Hre & Hmres).
    rewrite Hmut in Heq. injection Heq as -> <-.
    destruct Hmres as [[= ->]|[? _]]; [|done].
    split; [done|]. split; [by apply rearranged_contents|].
    intros l Hl. by eapply rearranged_other.
  - intros Hskip. rewrite mutate_skip by done. eauto.
Qed.

Lemma operators_sharing_witness :
  ∃ st',
    mutate (mkRoute 0 0) 0%float (stateOf [[1; 2; 3]] [0; 0; 0; 1]%N 10)
    = (Ok (mkRoute 0 0), st') ∧
    heap st' = heap (stateOf [[1; 2; 3]] [0; 0; 0; 1]%N 10).
Proof.
  apply (proj2 (proj2 (operators_sharing
                         (stateOf [[1; 2; 3]] [0; 0; 0; 1]%N 10)
                         (mkRoute 0 0) (mkRoute 0 0) 0%float))).
  reflexivity.
Defined.

(** C8 as the specification states it does not hold: with rate 1 and draws
    that ask for one swap of positions 0 and 1, [mutate] returns the route at
    address 0 and the caller's sequence 1,2,3 at that address has become
    2,1,3. *)
Lemma mutate_modifies_caller_sequence :
  contentsAt (stateOf [[1; 2; 3]] [0; 0; 0; 1]%N 10) 0 = [1; 2; 3] ∧
  ∃ st',
    mutate (mkRoute 0 0) 1%float (stateOf [[1; 2; 3]] [0; 0; 0; 1]%N 10)
    = (Ok (mkRoute 0 0), st') ∧
    contentsAt st' 0 = [2; 1; 3].
Proof. split; [done|]. eexists. split; [by vm_compute|done]. Qed.

(** *** [cachedMutate] *)

(** The probe of the cache never panics and leaves the sequences alone. *)
Lemma known_spec route st :
  ∃ found st', known route st = (Ok found, st') ∧ heap st' = heap st.
Proof.
  unfold known. erewrite bind_Ok; [|done].
  unfold mbind, M_bind, bind, cacheGet.
  destruct (LRU.Get _ (lru st)) as [[v found] lc]. simpl. eauto.
Qed.

Lemma attempt_spec route rate st :
  contentsAt st (path route) ≠ [] →
  ∃ found st',
    attempt route rate st = (Ok (route, found), st') ∧
    contentsAt st' (path route) ≠ [].
Proof.
  intros Hne. unfold attempt.
  destruct (mutate_spec route rate st) as (res & st1 & Hmut & Hre & Hres).
  destruct Hres as [->|[_ ?]]; [|done].
  destruct (known_spec route st1) as (found & st2 & Hknown & Hh).
  erewrite bind_Ok; [|done]. erewrite bind_Ok; [|done].
  exists found, st2. split; [done|].
  rewrite (contentsAt_heap st1 st2) by done.
  intros Hnil. apply Hne. apply Permutation_nil_r.
  by rewrite <- Hnil, (rearranged_contents _ _ _ Hre).
Qed.

Lemma cachedMutateLoop_attempt n route r orig st :
  cachedMutateLoop (S n) route r orig st
  = match attempt route r st with
    | (Ok (m, false), st') => (Ok m, st')
    | (Ok (m, true), st') => cachedMutateLoop n route (r * 1.5)%float orig st'
    | (Panic e, st') => (Panic e, st')
    end.
Proof.
  simpl. unfold attempt, mbind, M_bind, bind.
  destruct (mutate route r st) as [[m|e] st1]; [|done].
  destruct (known m st1) as [[[|]|e] st2]; done.
Qed.

Lemma cachedMutateLoop_spec route rate n : ∀ k st stk,
  (n + k = 8)%nat → collided route rate k st stk →
  contentsAt stk (path route) ≠ [] →
  ∃ k' stk',
    (k' ≤ 8)%nat ∧ collided route rate k' st stk' ∧
    ((k' < 8)%nat ∧
     (∃ m st', attempt route (escalate k' rate) stk' = (Ok (m, false), st') ∧
               cachedMutateLoop n route (escalate k rate) rate stk = (Ok m, st'))
     ∨
     k' = 8%nat ∧
     (∃ m st', mutate route rate stk' = (Ok m, st') ∧
               cachedMutateLoop n route (escalate k rate) rate stk = (Ok m, st'))).
Proof.
  induction n as [|n IH]; intros k st stk Hk Hcol Hne.
  - exists k, stk. split; [lia|]. split; [done|]. right. split; [lia|].
    destruct (mutate_spec route rate stk) as (res & st' & Hmut & _ & Hres).
    destruct Hres as [->|[_ ?]]; [|done]. simpl. eauto.
  - destruct (attempt_spec route (escalate k rate) stk Hne)
      as (found & st1 & Hatt & Hne1).
    rewrite cachedMutateLoop_attempt, Hatt. destruct found.
    + destruct (IH (S k) st st1) as (k' & stk' & Hk' & Hcol' & Hres);
        [lia|by econstructor|done|].
      exists k', stk'. done.
    + exists k, stk. split; [lia|]. split; [done|]. left. split; [lia|]. eauto.
Qed.

(** C7, as the code has it, for a tour with at least one city.
    [cachedMutate] makes [k <= 8] attempts that collide, at the rates
    [rate], [rate * 1.5], ..., each rate being 1.5 times the one before.  When
    [k < 8], attempt number [k], made at the rate multiplied [k] times, gives a
    tour whose key is absent from the cache, and this tour is returned; when
    all 8 attempts collide, the result is that of one more [mutate] at the
    original rate.  In both cases [cachedMutate] returns a tour. *)
Theorem cachedMutate_retries (route : Route) (rate : float) (st : State) :
  contentsAt st (path route) ≠ [] →
  ∃ k stk,
    (k ≤ 8)%nat ∧ collided route rate k st stk ∧
    ((k < 8)%nat ∧
     (∃ m st', attempt route (escalate k rate) stk = (Ok (m, false), st') ∧
               cachedMutate route rate st = (Ok m, st'))
     ∨
     k = 8%nat ∧
     (∃ m st', mutate route rate stk = (Ok m, st') ∧
               cachedMutate route rate st = (Ok m, st'))).
Proof.
  intros Hne. unfold cachedMutate.
  apply (cachedMutateLoop_spec route rate 8 0 st st); [done|constructor|done].
Qed.

Lemma cachedMutate_retries_witness :
  ∃ k stk,
    (k ≤ 8)%nat ∧
    collided (mkRoute 0 0) 1%float k (stateOf [[1; 2; 3]] [0; 0; 0; 1]%N 10) stk ∧
    ((k < 8)%nat ∧
     (∃ m st',
        attempt (mkRoute 0 0) (escalate k 1%float) stk = (Ok (m, false), st') ∧
        cachedMutate (mkRoute 0 0) 1%float (stateOf [[1; 2; 3]] [0; 0; 0; 1]%N 10)
        = (Ok m, st'))
     ∨
     k = 8%nat ∧
     (∃ m st',
        mutate (mkRoute 0 0) 1%float stk = (Ok m, st') ∧
        cachedMutate (mkRoute 0 0) 1%float (stateOf [[1; 2; 3]] [0; 0; 0; 1]%N 10)
        = (Ok m, st'))).
Proof.
  apply (cachedMutate_retries (mkRoute 0 0) 1%float
           (stateOf [[1; 2; 3]] [0; 0; 0; 1]%N 10)).
  discriminate.
Defined.

(** C7 as the specification states it does not hold on the empty tour: at
    rate 1 the first attempt calls [rand.Intn(0)], which panics, and no tour
    is returned. *)
Lemma cachedMutate_empty_tour_panics :
  contentsAt (stateOf [[]] [] 10) 0 = [] ∧
  ∃ st',
    cachedMutate (mkRoute 0 0) 1%float (stateOf [[]] [] 10)
    = (Panic InvalidIntnArgument, st').
Proof. split; [done|]. eexists. by vm_compute. Qed.

End OperatorTheorems.

(** * What the program prints *)

Module OutputFacts.
Import Tour Prog ProgFacts Evolution Output.

Lemma quiet_ret {A} (a : A) : quiet (mret a : M A).
Proof. by intros st. Qed.

Lemma quiet_raise {A} (e : panic) : quiet (raise e : M A).
Proof. by intros st. Qed.

Lemma quiet_bind {A B} (m : M A) (k : A → M B) :
  quiet m → (∀ a, quiet (k a)) → quiet (m ≫= k).
Proof.
  intros Hm Hk st. specialize (Hm st). unfold mbind, M_bind, bind.
  destruct (m st) as [[a|e] st1]; simpl in *; [|done].
  by rewrite Hk.
Qed.

Lemma emits_quiet {A} (P : output → Prop) (m : M A) : quiet m → emits P m.
Proof. intros Hm st. exists []. by rewrite app_nil_r, Hm. Qed.

Lemma emits_bind {A B} (P : output → Prop) (m : M A) (k : A → M B) :
  emits P m → (∀ a, emits P (k a)) → emits P (m ≫= k).
Proof.
  intros Hm Hk st. destruct (Hm st) as (l1 & Ho1 & Hl1).
  unfold mbind, M_bind, bind.
  destruct (m st) as [[a|e] st1]; simpl in *; [|by exists l1].
  destruct (Hk a st1) as (l2 & Ho2 & Hl2).
  exists (l1 ++ l2). split; [by rewrite Ho2, Ho1, app_assoc|].
  by apply Forall_app.
Qed.

Lemma emits_print (P : output → Prop) (o : output) : P o → emits P (print o).
Proof. intros HP st. exists [o]. split; [done|]. by constructor. Qed.

(** The primitive effects other than [print]. *)

Lemma quiet_Intn n : quiet (Intn n).
Proof. intros st. unfold Intn. by case_bool_decide. Qed.

Lemma quiet_Float64 : quiet Float64.
Proof. by intros st. Qed.

Lemma quiet_readPath l : quiet (readPath l).
Proof. by intros st. Qed.

Lemma quiet_writePath l p : quiet (writePath l p).
Proof. by intros st. Qed.

Lemma quiet_newPath p : quiet (newPath p).
Proof. by intros st. Qed.

Lemma quiet_cacheGet key : quiet (cacheGet key).
Proof.
  intros st. unfold cacheGet. by destruct (LRU.Get key (lru st)) as [r lc].
Qed.

Lemma quiet_cachePut key value : quiet (cachePut key value).
Proof.
  intros st. unfold cachePut. by destruct (LRU.Put key value (lru st)).
Qed.

Create HintDb quiet.
#[local] Hint Resolve quiet_Intn quiet_Float64 quiet_readPath quiet_writePath
  quiet_newPath quiet_cacheGet quiet_cachePut : quiet.

(** One step through a computation that prints nothing. *)
Ltac quiet_step :=
  match goal with
  | |- quiet (mret _) => apply quiet_ret
  | |- quiet (raise _) => apply quiet_raise
  | |- quiet (_ ≫= _) => apply quiet_bind; [|intros ?]
  | |- quiet (if ?b then _ else _) => destruct b
  | |- quiet (match ?x with _ => _ end) => destruct x
  | |- quiet _ => solve [auto with quiet]
  end.

Ltac quietly := repeat quiet_step.

(** The operators. *)

Lemma quiet_swapCities l a b : quiet (swapCities l a b).
Proof. unfold swapCities. quietly. Qed.

Lemma quiet_times {n} (body : M unit) : quiet body → quiet (times n body).
Proof. intros Hb. induction n as [|n IH]; simpl; quietly; done. Qed.

Lemma quiet_mutate route rate : quiet (mutate route rate).
Proof.
  unfold mutate. pose proof quiet_swapCities.
  quietly. apply quiet_times. quietly.
Qed.

Lemma quiet_crossover parent1 parent2 : quiet (crossover parent1 parent2).
Proof. unfold crossover. quietly. Qed.

Lemma quiet_known route : quiet (known route).
Proof. unfold known. quietly. Qed.

Lemma quiet_cachedCrossover parent1 parent2 :
  quiet (cachedCrossover parent1 parent2).
Proof.
  unfold cachedCrossover. generalize 15%nat. intros n.
  pose proof quiet_crossover.
  induction n as [|n IH]; cbn [cachedCrossoverLoop]; quietly; done.
Qed.

Lemma quiet_cachedMutate route rate : quiet (cachedMutate route rate).
Proof.
  unfold cachedMutate. generalize 8%nat. intros n. generalize rate at 1.
  pose proof quiet_mutate. pose proof quiet_known.
  induction n as [|n IH]; intros r; cbn [cachedMutateLoop]; quietly; done.
Qed.

(** Evaluation, the first population and selection. *)

Lemma quiet_evaluatePopulation population dm :
  quiet (evaluatePopulation population dm).
Proof.
  induction population as [|r rest IH]; cbn [evaluatePopulation]; quietly.
  unfold evaluateRoute. quietly.
Qed.

Lemma quiet_shuffleFrom i l : quiet (shuffleFrom i l).
Proof.
  pose proof quiet_swapCities.
  induction i as [|i IH]; cbn [shuffleFrom]; quietly; done.
Qed.

Lemma quiet_randomRoute numCities : quiet (randomRoute numCities).
Proof. unfold randomRoute. pose proof quiet_shuffleFrom. quietly. Qed.

Lemma quiet_initializePopulation popSize numCities :
  quiet (initializePopulation popSize numCities).
Proof.
  unfold initializePopulation. case_bool_decide; [apply quiet_raise|].
  pose proof quiet_randomRoute.
  induction (Z.to_nat popSize) as [|n IH]; cbn [fillPopulation]; quietly; done.
Qed.

Lemma quiet_tournamentSelection population tournamentSize :
  quiet (tournamentSelection population tournamentSize).
Proof.
  assert (Hpick : quiet (pick population)) by (unfold pick; quietly).
  unfold tournamentSelection. apply quiet_bind; [done|]. intros best.
  generalize (Z.to_nat (tournamentSize - 1)). intros n. revert best.
  induction n as [|n IH]; intros best; cbn [tournamentLoop]; quietly; done.
Qed.

Lemma quiet_breed fuel cfg population : ∀ newPopulation,
  quiet (breed fuel cfg population newPopulation).
Proof.
  pose proof quiet_tournamentSelection. pose proof quiet_cachedCrossover.
  pose proof quiet_cachedMutate.
  induction fuel as [|fuel IH]; intros newPopulation; cbn [breed]; quietly; done.
Qed.

Lemma quiet_setup cfg points : quiet (setup cfg points).
Proof.
  unfold setup. pose proof quiet_initializePopulation.
  pose proof quiet_evaluatePopulation.
  quietly.
Qed.

(** The loop prints generation lines only. *)

Lemma emits_generation sortSlice cfg dm gen s :
  emits (λ o, ∃ g b, o = PrintGen g b) (generation sortSlice cfg dm gen s).
Proof.
  unfold generation. destruct s as [population best].
  destruct (sortSlice population) as [|first sorted];
    [apply emits_quiet, quiet_raise|].
  apply emits_bind; [apply emits_quiet; quietly|]. intros elite.
  apply emits_bind; [apply emits_quiet, quiet_breed|]. intros newPopulation.
  apply emits_bind; [apply emits_quiet, quiet_evaluatePopulation|].
  intros evaluated.
  apply emits_bind; [|intros []; apply emits_quiet, quiet_ret].
  case_bool_decide; [apply emits_print; eauto | apply emits_quiet, quiet_ret].
Qed.

Lemma emits_evolve sortSlice cfg dm n : ∀ gen s,
  emits (λ o, ∃ g b, o = PrintGen g b) (evolve sortSlice n cfg dm gen s).
Proof.
  induction n as [|n IH]; intros gen s; cbn [evolve].
  - apply emits_quiet, quiet_ret.
  - apply emits_bind; [apply emits_generation | intros s'; apply IH].
Qed.

(** [main] on an input that is read: the set-up prints nothing, the loop
    prints generation lines, and a run that returns has printed the best
    distance last. *)
Lemma main_readable_output sortSlice readPointsFromFile cfg points st :
  inputFile cfg ≠ "" → readPointsFromFile (inputFile cfg) = Some points →
  ∃ lines,
    stdout (main sortSlice readPointsFromFile cfg st).2 = stdout st ++ lines ∧
    Forall (λ o, ¬ report o) lines ∧
    ((main sortSlice readPointsFromFile cfg st).1 = Ok tt →
     ∃ d, last lines = Some (PrintBest d)).
Proof.
  intros Hin Hread.
  assert (Hmain :
    main sortSlice readPointsFromFile cfg st
    = match setup cfg points st with
      | (Ok (dm, s), st1) =>
          match evolve sortSlice (Z.to_nat (generations cfg)) cfg dm 0 s st1 with
          | (Ok (_, best), st2) => print (PrintBest (distance best)) st2
          | (Panic e, st2) => (Panic e, st2)
          end
      | (Panic e, st1) => (Panic e, st1)
      end).
  { unfold main. rewrite bool_decide_eq_true_2 by done. rewrite Hread.
    unfold mbind, M_bind, bind.
    destruct (setup cfg points st) as [[[dm s]|e] st1]; [|done].
    by destruct (evolve _ _ _ _ _ _ st1) as [[[pop best]|e] st2]. }
  rewrite Hmain. clear Hmain.
  pose proof (quiet_setup cfg points st) as Hsetup.
  destruct (setup cfg points st) as [[[dm s]|e] st1]; simpl in Hsetup.
  2:{ exists []. simpl. by rewrite app_nil_r. }
  destruct (emits_evolve sortSlice cfg dm (Z.to_nat (generations cfg)) 0 s st1)
    as (lines & Ho & Hlines).
  assert (Hgen : Forall (λ o, ¬ report o) lines).
  { eapply Forall_impl; [exact Hlines|].
    intros o (g & b & ->) [?|?]; discriminate. }
  destruct (evolve _ _ _ _ _ _ st1) as [[[pop best]|e] st2]; simpl in *.
  - exists (lines ++ [PrintBest (distance best)]).
    rewrite Ho, Hsetup, app_assoc. split; [done|]. split.
    + apply Forall_app. split; [done|].
      constructor; [|done]. intros [?|?]; discriminate.
    + intros _. exists (distance best). by rewrite last_snoc.
  - exists lines. rewrite Ho, Hsetup. by split.
Qed.

End OutputFacts.

(** * Evaluation and the evolution loop *)

Module EvolutionTheorems.
Import Tour Prog ProgFacts Evolution Output Examples.

(** *** Evaluation through the cache *)

(** C5. A population of two valid tours, 1,2,3 and its rotation 3,1,2, and
    an empty cache of capacity 10: the first job computes 6 and stores it
    under the key "1,2,3"; the second job finds that key and sets the
    distance of 3,1,2 to 6, while the direct sum along its closed cycle
    0-3-1-2-0 is 8. *)
Theorem evaluatePopulation_rotated_tours :
  validTour 4 (contentsAt (stateOf [[1; 2; 3]; [3; 1; 2]] [] 10) 0) ∧
  validTour 4 (contentsAt (stateOf [[1; 2; 3]; [3; 1; 2]] [] 10) 1) ∧
  LRU.contents (lru (stateOf [[1; 2; 3]; [3; 1; 2]] [] 10)) = [] ∧
  calculateDistance [1; 2; 3] line4 = Ok 6%float ∧
  calculateDistance [3; 1; 2] line4 = Ok 8%float ∧
  ∃ st',
    evaluatePopulation [mkRoute 0 0; mkRoute 1 0] line4
      (stateOf [[1; 2; 3]; [3; 1; 2]] [] 10)
    = (Ok [mkRoute 0 6; mkRoute 1 6], st') ∧
    LRU.contents (lru st') = [("1,2,3", 6%float)].
Proof.
  split; [exact (Permutation_refl [1; 2; 3])|].
  split; [exact (Permutation_cons_append [1; 2] 3)|].
  split; [done|]. split; [by vm_compute|]. split; [by vm_compute|].
  eexists. split; by vm_compute.
Qed.

(** The defect needs two tours with one key.  On valid tours with pairwise
    different keys, an empty cache of capacity at least one and a matrix over
    all the cities, every route gets the direct sum of its own cycle. *)

Lemma Distance_Ok N dm i j :
  squareMatrix N dm → 0 ≤ i < N → 0 ≤ j < N → ∃ d, Distance dm i j = Ok d.
Proof.
  intros [Hrows Hcols] Hi Hj. unfold Distance.
  rewrite bool_decide_eq_true_2 by lia.
  destruct (dm !! Z.to_nat i) as [row|] eqn:Hrow.
  2: { apply lookup_ge_None in Hrow. lia. }
  rewrite Forall_forall in Hcols.
  assert (Hlen : Z.of_nat (length row) = N).
  { apply Hcols. by eapply list_elem_of_lookup_2. }
  destruct (row !! Z.to_nat j) as [d|] eqn:Hd; [eauto|].
  apply lookup_ge_None in Hd. lia.
Qed.

Lemma sumLegs_Ok N dm path : ∀ total prev,
  squareMatrix N dm → 0 ≤ prev < N → (∀ c, c ∈ path → 0 ≤ c < N) →
  ∃ d, sumLegs dm total prev path = Ok d.
Proof.
  induction path as [|city rest IH]; intros total prev Hdm Hprev Hpath; simpl.
  - destruct (Distance_Ok N dm prev 0 Hdm) as [d ->]; [lia..|]. eauto.
  - assert (Hcity : 0 ≤ city < N) by (apply Hpath; left).
    destruct (Distance_Ok N dm prev city Hdm) as [d ->]; [lia..|].
    apply IH; [done..|]. intros c Hc. apply Hpath. by right.
Qed.

Lemma calculateDistance_Ok N dm path :
  squareMatrix N dm → 1 ≤ N → validTour N path →
  ∃ d, calculateDistance path dm = Ok d.
Proof.
  intros Hdm HN Hvalid. apply (sumLegs_Ok N); [done|lia|].
  intros c Hc. unfold validTour in Hvalid. rewrite Hvalid in Hc.
  apply elem_of_seqZ in Hc. lia.
Qed.

Lemma LRU_run_snoc h o lc lc' :
  LRU.run h (LRU.NewLRUCache (LRU.capacity lc)) = Ok lc →
  LRU.step o lc = Ok lc' →
  LRU.run (h ++ [o]) (LRU.NewLRUCache (LRU.capacity lc)) = Ok lc'.
Proof.
  generalize (LRU.NewLRUCache (LRU.capacity lc)). revert lc lc'.
  induction h as [|o' h IH]; intros lc lc' lc0; simpl.
  - intros [= ->] ->. done.
  - destruct (LRU.step o' lc0); [|done]. apply IH.
Qed.

Lemma evaluateRoute_miss N dm cap h r st :
  1 ≤ cap → LRU.run h (LRU.NewLRUCache cap) = Ok (lru st) →
  squareMatrix N dm → 1 ≤ N → validTour N (contentsAt st (path r)) →
  getKey (contentsAt st (path r)) ∉ LRU.keys (lru st) →
  ∃ d st',
    calculateDistance (contentsAt st (path r)) dm = Ok d ∧
    evaluateRoute dm r st = (Ok (mkRoute (path r) d), st') ∧
    heap st' = heap st ∧
    LRU.run (h ++ [LRU.OPut (getKey (contentsAt st (path r))) d])
      (LRU.NewLRUCache cap) = Ok (lru st') ∧
    ∀ k, k ∈ LRU.keys (lru st') →
         k = getKey (contentsAt st (path r)) ∨ k ∈ LRU.keys (lru st).
Proof.
  intros Hcap Hrun Hdm HN Hvalid Hkey.
  destruct (calculateDistance_Ok N dm _ Hdm HN Hvalid) as [d Hd].
  set (key := getKey (contentsAt st (path r))) in *.
  destruct (LRUTheorems.Put_reachable cap h (lru st) key d Hcap Hrun)
    as (lc1 & s1 & Hput & Hwf & Hwf1 & Hc & Hs1 & Hc1 & _).
  assert (Hnone : LRU.cache (lru st) !! key = None).
  { by apply LRUTheorems.lookup_None_keys. }
  exists d, (mkState (heap st) (tape st) (cursor st) lc1 (stdout st)).
  split; [done|]. split; [|split; [done|split]].
  - unfold evaluateRoute. erewrite bind_Ok; [|done].
    fold (contentsAt st (path r)). fold key.
    unfold mbind at 1. unfold M_bind, bind, cacheGet, LRU.Get.
    rewrite Hnone. simpl. rewrite Hd.
    unfold mbind, M_bind, bind, cachePut. simpl. rewrite Hput.
    by destruct st.
  - simpl. rewrite <- Hc in Hrun |- *.
    by apply (LRU_run_snoc h (LRU.OPut key d) (lru st) lc1).
  - simpl. intros k. rewrite !LRUTheorems.keys_contents, Hc1.
    unfold LRUSpec.put in Hs1.
    rewrite (proj2 (LRUSpecFacts.assoc_None _ _)) in Hs1
      by (by rewrite <- LRUTheorems.keys_contents).
    case_bool_decide.
    + destruct (LRU.contents (lru st)) as [|p s0] eqn:Hs; [done|].
      rewrite <- Hs in *. injection Hs1 as <-.
      rewrite fmap_cons, elem_of_cons. intros [->|Hk]; [by left|right].
      eapply elem_of_sublist; [done|].
      apply fmap_sublist, ListFacts.removelast_sublist.
    + injection Hs1 as <-. rewrite fmap_cons, elem_of_cons. tauto.
Qed.

Lemma evaluatePopulation_distinct_keys N dm cap population : ∀ h st,
  1 ≤ cap → LRU.run h (LRU.NewLRUCache cap) = Ok (lru st) →
  squareMatrix N dm → 1 ≤ N →
  Forall (λ r, validTour N (contentsAt st (path r))) population →
  NoDup ((λ r, getKey (contentsAt st (path r))) <$> population) →
  (∀ r, r ∈ population →
        getKey (contentsAt st (path r)) ∉ LRU.keys (lru st)) →
  ∃ population' st',
    evaluatePopulation population dm st = (Ok population', st') ∧
    Forall2 (λ r r', path r' = path r ∧
                     calculateDistance (contentsAt st (path r)) dm
                     = Ok (distance r'))
            population population'.
Proof.
  induction population as [|r rest IH]; intros h st Hcap Hrun Hdm HN Hvalid Hnd Hnew.
  - eexists _, _. split; [done|]. constructor.
  - apply Forall_cons in Hvalid as [Hvr Hvrest].
    rewrite fmap_cons in Hnd. apply NoDup_cons in Hnd as [Hkr Hndrest].
    destruct (evaluateRoute_miss N dm cap h r st Hcap Hrun Hdm HN Hvr)
      as (d & st1 & Hd & Heval & Hheap & Hrun1 & Hkeys1).
    { apply Hnew. left. }
    assert (Hsame : ∀ r0, contentsAt st1 (path r0) = contentsAt st (path r0)).
    { intros r0. unfold contentsAt. by rewrite Hheap. }
    destruct (IH _ st1 Hcap Hrun1 Hdm HN) as (rest' & st2 & Hrest & Hall).
    + eapply Forall_impl; [done|]. intros r0 Hr0. by rewrite Hsame.
    + erewrite list_fmap_ext; [done|]. intros i r0 _. by rewrite Hsame.
    + intros r0 Hr0 Hin. rewrite Hsame in Hin.
      destruct (Hkeys1 _ Hin) as [Heq|Hold].
      * apply Hkr. rewrite <- Heq.
        exact (list_elem_of_fmap_2 (λ r, getKey (contentsAt st (path r)))
                 rest r0 Hr0).
      * apply (Hnew r0); [by right|done].
    + exists (mkRoute (path r) d :: rest'), st2. split.
      * simpl. erewrite bind_Ok; [|done]. by erewrite bind_Ok.
      * constructor; [done|].
        eapply Forall2_impl; [done|]. intros r0 r0' [? ?].
        by rewrite <- Hsame.
Qed.

(** *** The best-so-far record *)

(** The order of binary64 numbers, from the specification of the
    comparison of the kernel's floats. *)
Lemma SFcompare_Lt_swap a b :
  SFcompare a b = Some Lt → SFcompare b a = Some Gt.
Proof.
  destruct a as [sa|sa| |sa ma ea], b as [sb|sb| |sb mb eb]; simpl;
    try destruct sa; try destruct sb; try congruence.
  all: rewrite (Z.compare_antisym ea eb); destruct (ea ?= eb)%Z; simpl;
    try congruence.
  all: change (PosDef.Pos.compare_cont Eq mb ma) with (Pos.compare mb ma);
    change (PosDef.Pos.compare_cont Eq ma mb) with (Pos.compare ma mb);
    rewrite (Pos.compare_antisym ma mb);
    destruct (Pos.compare ma mb); simpl; congruence.
Qed.

Lemma ltb_asym x y : PrimFloat.ltb x y = true → PrimFloat.ltb y x = false.
Proof.
  rewrite !FloatAxioms.ltb_spec. unfold SFltb.
  destruct (SFcompare (Prim2SF x) (Prim2SF y)) as [[]|] eqn:Hc; try done.
  intros _. by rewrite (SFcompare_Lt_swap _ _ Hc).
Qed.

Lemma ltb_irrefl x : PrimFloat.ltb x x = false.
Proof.
  destruct (PrimFloat.ltb x x) eqn:Hlt; [|done].
  pose proof (ltb_asym x x Hlt). congruence.
Qed.

Lemma ltb_leb x y : PrimFloat.ltb x y = true → PrimFloat.leb x y = true.
Proof.
  rewrite FloatAxioms.ltb_spec, FloatAxioms.leb_spec. unfold SFltb, SFleb.
  by destruct (SFcompare (Prim2SF x) (Prim2SF y)) as [[]|].
Qed.

Lemma leb_refl x : PrimFloat.is_nan x = false → PrimFloat.leb x x = true.
Proof.
  unfold PrimFloat.is_nan.
  rewrite FloatAxioms.eqb_spec, FloatAxioms.leb_spec. unfold SFeqb, SFleb.
  by destruct (SFcompare (Prim2SF x) (Prim2SF x)) as [[]|].
Qed.

Lemma updateBest_cases best r :
  updateBest best r = best ∨
  (updateBest best r = r ∧ PrimFloat.ltb (distance r) (distance best) = true).
Proof.
  unfold updateBest. destruct (PrimFloat.ltb _ _); [by right | by left].
Qed.

(** The bound on the iterations of the breeding loop is never what stops
    it: when it returns, the new population has reached [popSize]. *)
Lemma breed_fills fuel : ∀ cfg population newPopulation st res st',
  breed fuel cfg population newPopulation st = (Ok res, st') →
  popSize cfg ≤ Z.of_nat (length newPopulation) + 2 * Z.of_nat fuel →
  popSize cfg ≤ Z.of_nat (length res).
Proof.
  induction fuel as [|fuel IH]; intros cfg population np st res st' Hrun Hfuel;
    simpl in Hrun.
  - injection Hrun as <- <-. lia.
  - case_bool_decide as Hcond.
    + apply bind_inv_Ok in Hrun as (p1 & st1 & _ & Hrun).
      apply bind_inv_Ok in Hrun as (p2 & st2 & _ & Hrun).
      apply bind_inv_Ok in Hrun as ([c1 c2] & st3 & _ & Hrun).
      apply bind_inv_Ok in Hrun as (c1' & st4 & _ & Hrun).
      apply bind_inv_Ok in Hrun as (c2' & st5 & _ & Hrun).
      apply IH in Hrun; [done|]. rewrite length_app. simpl. lia.
    + injection Hrun as <- <-. lia.
Qed.

Section Loop.
Variable sortSlice : list Route → list Route.

(** A generation that completes leaves as record the result of
    [updateBest] on the first route of the sorted population. *)
Lemma generation_best cfg dm gen population best st population' best' st' :
  generation sortSlice cfg dm gen (population, best) st
  = (Ok (population', best'), st') →
  ∃ first, head (sortSlice population) = Some first ∧
           best' = updateBest best first.
Proof.
  unfold generation. destruct (sortSlice population) as [|first rest]; [done|].
  intros H.
  apply bind_inv_Ok in H as (elite & st1 & _ & H).
  apply bind_inv_Ok in H as (np & st2 & _ & H).
  apply bind_inv_Ok in H as (np' & st3 & _ & H).
  apply bind_inv_Ok in H as ([] & st4 & _ & H).
  injection H as <- <- <-. eauto.
Qed.

Lemma evolve_snoc cfg dm n : ∀ gen s st,
  evolve sortSlice (S n) cfg dm gen s st
  = (evolve sortSlice n cfg dm gen s
     ≫= generation sortSlice cfg dm (gen + Z.of_nat n)) st.
Proof.
  induction n as [|n IH]; intros gen s st.
  - simpl. unfold mbind, M_bind, bind, mret, M_ret, ret. rewrite Z.add_0_r.
    by destruct (generation sortSlice cfg dm gen s st) as [[s1|e] st1].
  - change (evolve sortSlice (S (S n)) cfg dm gen s)
      with (generation sortSlice cfg dm gen s
            ≫= evolve sortSlice (S n) cfg dm (gen + 1)).
    change (evolve sortSlice (S n) cfg dm gen s)
      with (generation sortSlice cfg dm gen s
            ≫= evolve sortSlice n cfg dm (gen + 1)).
    unfold mbind, M_bind, bind in *.
    destruct (generation sortSlice cfg dm gen s st) as [[s1|e] st1]; [|done].
    rewrite IH. by replace (gen + 1 + Z.of_nat n) with (gen + Z.of_nat (S n)) by lia.
Qed.

(** C6. Across the run, from the record [sn.2] held after [n] generations to
    the record [sn'.2] held after [n + 1] generations: the record is either
    kept, or replaced by the first route of the sorted population, whose
    length is then strictly smaller; so the length never increases (it
    stays below or equal as soon as it is a number). *)
Theorem best_record_monotone cfg dm (s0 : list Route * Route) (st0 : State)
    (n : nat) sn stn sn' stn' :
  evolve sortSlice n cfg dm 0 s0 st0 = (Ok sn, stn) →
  evolve sortSlice (S n) cfg dm 0 s0 st0 = (Ok sn', stn') →
  (sn'.2 = sn.2 ∨
   (PrimFloat.ltb (distance sn'.2) (distance sn.2) = true ∧
    head (sortSlice sn.1) = Some sn'.2)) ∧
  PrimFloat.ltb (distance sn.2) (distance sn'.2) = false ∧
  (PrimFloat.is_nan (distance sn.2) = false →
   PrimFloat.leb (distance sn'.2) (distance sn.2) = true).
Proof.
  intros Hn HSn. rewrite evolve_snoc in HSn.
  erewrite bind_Ok in HSn; [|done].
  destruct sn as [pop best], sn' as [pop' best'].
  apply generation_best in HSn as (first & Hfirst & ->). simpl.
  destruct (updateBest_cases best first) as [->|[-> Hlt]].
  - split; [by left|]. split; [apply ltb_irrefl | apply leb_refl].
  - split; [by right|]. split; [by apply ltb_asym|].
    intros _. by apply ltb_leb.
Qed.

(** *** What [main] checks before the loop *)

(** C9, as the code has it: the two checks that [main] makes.  Without an
    input file name, or when the input file cannot be read, [main] prints its
    message and returns; nothing else happens: no draw, no allocation, and no
    generation runs.  No other property of the configuration is checked:
    with a file name and a file that is read, whatever the rest of the
    configuration and whatever the outcome, a return or a panic, [main]
    prints no report, and it returns only after it has run the loop and
    printed the best distance. *)
Theorem main_input_checks (readPointsFromFile : string → option (list Point))
    (cfg : Config) (st : State) :
  (inputFile cfg = "" →
   main sortSlice readPointsFromFile cfg st
   = (Ok tt, mkState (heap st) (tape st) (cursor st) (lru st)
                     (stdout st ++ [PrintNoCities]))) ∧
  (inputFile cfg ≠ "" → readPointsFromFile (inputFile cfg) = None →
   main sortSlice readPointsFromFile cfg st
   = (Ok tt, mkState (heap st) (tape st) (cursor st) (lru st)
                     (stdout st ++ [PrintReadError]))) ∧
  (∀ points,
     inputFile cfg ≠ "" → readPointsFromFile (inputFile cfg) = Some points →
     ∃ lines,
       stdout (main sortSlice readPointsFromFile cfg st).2 = stdout st ++ lines ∧
       Forall (λ o, ¬ report o) lines ∧
       ((main sortSlice readPointsFromFile cfg st).1 = Ok tt →
        ∃ d, last lines = Some (PrintBest d))).
Proof.
  split_and!.
  - intros Hfile. unfold main.
    by rewrite bool_decide_eq_false_2 by (by intros ?).
  - intros Hfile Hread. unfold main.
    by rewrite bool_decide_eq_true_2, Hread.
  - intros points Hfile Hread.
    by apply (OutputFacts.main_readable_output _ _ _ points).
Qed.

(** Zero cities: [main] never reaches the loop; it panics while it builds
    the first population, or on [population[0]], and prints nothing. *)
Lemma main_zero_cities (readPointsFromFile : string → option (list Point))
    (cfg : Config) (st : State) :
  inputFile cfg ≠ "" → readPointsFromFile (inputFile cfg) = Some [] →
  ∃ e st',
    setup cfg [] st = (Panic e, st') ∧
    main sortSlice readPointsFromFile cfg st = (Panic e, st') ∧
    stdout st' = stdout st.
Proof.
  intros Hfile Hread. unfold main.
  rewrite bool_decide_eq_true_2, Hread by done.
  assert (Hsetup : ∃ e st', setup cfg [] st = (Panic e, st') ∧
                            stdout st' = stdout st).
  { unfold setup. rewrite bool_decide_eq_false_2 by (by vm_compute).
    erewrite bind_Ok by reflexivity. unfold initializePopulation.
    unfold mbind at 1. unfold M_bind, bind. simpl.
    case_bool_decide.
    - eexists _, _. split; [by erewrite bind_Panic|done].
    - destruct (Z.to_nat (popSize cfg)) as [|n]; simpl.
      + eexists _, _. split; [done|done].
      + eexists _, _.
        split; [erewrite bind_Panic; [done|]; by erewrite bind_Panic | done]. }
  destruct Hsetup as (e & st' & Hsetup & Hout).
  exists e, st'. split; [done|]. split; [|done].
  by erewrite bind_Panic.
Qed.

End Loop.

Lemma best_record_monotone_witness :
  (mkRoute 1 6 = mkRoute 0 8 ∨
   (PrimFloat.ltb 6 8 = true ∧
    head (insertionSort [mkRoute 0 8; mkRoute 1 6]) = Some (mkRoute 1 6))) ∧
  PrimFloat.ltb 8 6 = false ∧
  (PrimFloat.is_nan 8 = false → PrimFloat.leb 6 8 = true).
Proof.
  refine (best_record_monotone insertionSort
            (mkConfig "in.tsp" 2 1 2 0.5 2 10) line4
            ([mkRoute 0 8; mkRoute 1 6], mkRoute 0 8)
            (stateOf [[3; 1; 2]; [1; 2; 3]] [] 10) 0
            ([mkRoute 0 8; mkRoute 1 6], mkRoute 0 8)
            (stateOf [[3; 1; 2]; [1; 2; 3]] [] 10)
            ([mkRoute 1 6; mkRoute 0 6], mkRoute 1 6) _ eq_refl _).
  vm_compute. reflexivity.
Defined.

Lemma main_input_checks_witness :
  main insertionSort (λ _, None) (mkConfig "" 10 5 2 0.5 1 10) (stateOf [] [] 0)
  = (Ok tt, mkState [] (tape (stateOf [] [] 0)) 0 (LRU.NewLRUCache 0)
                    [PrintNoCities]) ∧
  main insertionSort (λ _, None) (mkConfig "in.tsp" 10 5 2 0.5 1 10)
    (stateOf [] [] 0)
  = (Ok tt, mkState [] (tape (stateOf [] [] 0)) 0 (LRU.NewLRUCache 0)
                    [PrintReadError]) ∧
  ∃ lines,
    stdout (main insertionSort
              (λ _, Some [mkPoint 0 0; mkPoint 1 0; mkPoint 2 0; mkPoint 3 0])
              (mkConfig "in.tsp" 1 1 2 0.5 2 10) (stateOf [] [] 0)).2
    = [] ++ lines ∧
    Forall (λ o, ¬ report o) lines ∧
    ((main insertionSort
        (λ _, Some [mkPoint 0 0; mkPoint 1 0; mkPoint 2 0; mkPoint 3 0])
        (mkConfig "in.tsp" 1 1 2 0.5 2 10) (stateOf [] [] 0)).1 = Ok tt →
     ∃ d, last lines = Some (PrintBest d)).
Proof.
  split_and!.
  - apply (proj1 (main_input_checks insertionSort (λ _, None)
                    (mkConfig "" 10 5 2 0.5 1 10) (stateOf [] [] 0))).
    reflexivity.
  - apply (proj1 (proj2 (main_input_checks insertionSort (λ _, None)
                           (mkConfig "in.tsp" 10 5 2 0.5 1 10)
                           (stateOf [] [] 0)))).
    + discriminate.
    + reflexivity.
  - apply (proj2 (proj2 (main_input_checks insertionSort
                           (λ _, Some [mkPoint 0 0; mkPoint 1 0; mkPoint 2 0;
                                       mkPoint 3 0])
                           (mkConfig "in.tsp" 1 1 2 0.5 2 10)
                           (stateOf [] [] 0)))
                 [mkPoint 0 0; mkPoint 1 0; mkPoint 2 0; mkPoint 3 0]).
    + discriminate.
    + reflexivity.
Defined.

(** C9 as the specification states it does not hold.  Four cities, a
    population of one route and an elite of two: nothing is reported, the
    set-up completes, and the first iteration of the loop panics on
    [population[:eliteSize]]. *)
Lemma elite_above_population_panics_in_loop :
  ∃ dm s st1 st2,
    setup (mkConfig "in.tsp" 1 1 2 0.5 2 10)
      [mkPoint 0 0; mkPoint 1 0; mkPoint 2 0; mkPoint 3 0] (stateOf [] [] 0)
    = (Ok (dm, s), st1) ∧
    stdout st1 = [] ∧
    generation insertionSort (mkConfig "in.tsp" 1 1 2 0.5 2 10) dm 0 s st1
    = (Panic IndexOutOfRange, st2) ∧
    main insertionSort
      (λ _, Some [mkPoint 0 0; mkPoint 1 0; mkPoint 2 0; mkPoint 3 0])
      (mkConfig "in.tsp" 1 1 2 0.5 2 10) (stateOf [] [] 0)
    = (Panic IndexOutOfRange, st2) ∧
    stdout st2 = [].
Proof.
  eexists _, _, _, _. split; [by vm_compute|]. split; [done|].
  split; [by vm_compute|]. split; [by vm_compute|done].
Qed.

End EvolutionTheorems.

(** * Further properties of the LRU cache *)

Module LRUExtras.
Import LRU LRUFacts LRUSpecFacts History.

Lemma run_snoc h o lc :
  run (h ++ [o]) lc =
  match run h lc with Ok lc1 => step o lc1 | Panic e => Panic e end.
Proof.
  revert lc. induction h as [|o' h IH]; intros lc; simpl.
  - by destruct (step o lc).
  - destruct (step o' lc); [apply IH | done].
Qed.

Lemma run_wf h : ∀ lc lc', wf lc → run h lc = Ok lc' → wf lc' ∧ capacity lc' = capacity lc.
Proof.
  induction h as [|o h IH]; intros lc lc' Hwf Hrun; simpl in Hrun.
  - by simplify_eq.
  - destruct (step o lc) as [lc1|] eqn:Hs; [|done].
    assert (wf lc1 ∧ capacity lc1 = capacity lc) as [Hwf1 Hc1].
    { destruct o as [k|k v]; simpl in Hs.
      - inversion Hs; subst. by destruct (Get_refines lc k Hwf) as (? & ? & _).
      - pose proof (Put_refines lc k v Hwf) as Hp.
        destruct (LRUSpec.put _ _ _ _); [|congruence].
        destruct Hp as (lc2 & Hp & ? & ? & _).
        rewrite Hs in Hp. by inversion Hp; subst. }
    destruct (IH lc1 lc' Hwf1 Hrun) as [? ?]. split; [done | congruence].
Qed.

Lemma reach cap h lc :
  run h (NewLRUCache cap) = Ok lc → wf lc ∧ capacity lc = cap.
Proof. intros Hrun. exact (run_wf h _ _ (wf_new cap) Hrun). Qed.

Lemma filter_all {A} (P : A → Prop) `{∀ x, Decision (P x)} (l : list A) :
  (∀ x, x ∈ l → P x) → filter P l = l.
Proof.
  induction l as [|a l IH]; intros Hall; [done|].
  rewrite filter_cons_True by (apply Hall; left).
  f_equal. apply IH. intros x Hx. apply Hall. by right.
Qed.

Lemma touch_perm k v (s : list (string * float)) :
  NoDup s.*1 → LRUSpec.assoc k s = Some v → LRUSpec.touch k v s ≡ₚ s.
Proof.
  unfold LRUSpec.touch. induction s as [|[k' v'] s IH]; [done|].
  simpl. intros [Hk' Hnd]%NoDup_cons Ha.
  destruct (decide (k' = k)) as [->|Hne].
  - simplify_eq. rewrite filter_cons_False by (simpl; tauto).
    rewrite filter_all; [done|]. intros [k'' v''] Hin Heq. simpl in Heq. subst.
    apply Hk'. by apply (list_elem_of_fmap_2 fst) in Hin.
  - rewrite filter_cons_True by done.
    rewrite Permutation_swap. f_equiv. by apply IH.
Qed.

Lemma no_eviction lc lc' :
  wf lc → cache lc' = cache lc → evicted lc lc' = [].
Proof.
  intros Hwf Hc. unfold evicted. rewrite Hc.
  apply LRUTheorems.filter_none. intros k Hk.
  apply (wf_lookup_keys lc k Hwf) in Hk. destruct Hk as [e He]. congruence.
Qed.

Lemma Get_cache k lc : cache (Get k lc).2 = cache lc.
Proof. unfold Get. by destruct (cache lc !! k). Qed.

Lemma assoc_back cap o s s' k v :
  ¬ isPut k o → LRUSpec.step cap o s = Some s' →
  LRUSpec.assoc k s' = Some v → LRUSpec.assoc k s = Some v.
Proof.
  intros Hn Hs Ha. destruct o as [k'|k' v']; simpl in *.
  - inversion Hs; subst; clear Hs. unfold LRUSpec.get in Ha.
    destruct (LRUSpec.assoc k' s) as [w|] eqn:Hk'; cbn [snd] in Ha; [|done].
    rewrite assoc_touch in Ha. destruct (decide (k' = k)); congruence.
  - unfold LRUSpec.put in Hs.
    destruct (LRUSpec.assoc k' s) as [w|] eqn:Hk'.
    + inversion Hs; subst. rewrite assoc_touch in Ha.
      destruct (decide (k' = k)); [done | congruence].
    + case_bool_decide.
      * destruct s as [|p s0]; [done|].
        assert (s' = (k', v') :: removelast (p :: s0)) as -> by congruence.
        cbn [LRUSpec.assoc] in Ha. destruct (decide (k' = k)); [done|].
        destruct (LRUSpec.assoc k (p :: s0)) as [w|] eqn:Hk.
        -- destruct (assoc_removelast k w (p :: s0) Hk); congruence.
        -- apply assoc_None in Hk. exfalso.
           apply assoc_Some_elem in Ha. apply Hk.
           eapply elem_of_sublist; [exact Ha|].
           apply fmap_sublist. apply ListFacts.removelast_sublist.
      * inversion Hs; subst. simpl in Ha.
        destruct (decide (k' = k)); [done | congruence].
Qed.

Lemma lastPut_spec cap k v : ∀ h s s',
  LRUSpec.run cap h s = Some s' → LRUSpec.assoc k s' = Some v →
  lastPut k h = Some v ∨ (lastPut k h = None ∧ LRUSpec.assoc k s = Some v).
Proof.
  induction h as [|o h IH]; intros s s' Hrun Ha; simpl in *.
  - right. by simplify_eq.
  - destruct (LRUSpec.step cap o s) as [s1|] eqn:Hs; [|done].
    destruct (IH s1 s' Hrun Ha) as [->|[-> Ha1]]; [by left|].
    destruct o as [k'|k' v'].
    + right. split; [done|]. by eapply (assoc_back cap (OGet k')); eauto.
    + destruct (decide (k' = k)) as [->|Hne].
      * left. simpl in Hs. unfold LRUSpec.put in Hs.
        destruct (LRUSpec.assoc k s).
        -- inversion Hs; subst. rewrite assoc_touch in Ha1.
           by rewrite decide_True in Ha1.
        -- case_bool_decide; [destruct s; [done|]|]; inversion Hs; subst;
             simpl in Ha1; by rewrite decide_True in Ha1.
      * right. split; [done|]. by eapply (assoc_back cap (OPut k' v')); eauto.
Qed.

Lemma run_spec cap h lc :
  run h (NewLRUCache cap) = Ok lc →
  wf lc ∧ capacity lc = cap ∧ LRUSpec.run cap h [] = Some (contents lc).
Proof.
  intros Hrun. destruct (reach cap h lc Hrun) as [Hwf Hcap].
  split; [done|]. split; [done|].
  pose proof (LRUTheorems.run_refines h (NewLRUCache cap) (wf_new cap)) as Hr.
  simpl in Hr. change (contents (NewLRUCache cap)) with (@nil (string * float)) in Hr.
  destruct (LRUSpec.run cap h []) as [s'|]; [|congruence].
  destruct Hr as (lc' & Hrun' & _ & _ & <-). congruence.
Qed.

(** X1. The Go map and the recency list stay coupled: after any operations
    on a new cache that do not panic, no key is listed twice, the map sends
    a key to an element exactly when that element is in the list and holds
    the key, the map and the list have the same size, and the capacity is
    the one the cache was made with. *)
Theorem map_and_list_agree (cap : Z) (h : list op) (lc : LRUCache) :
  run h (NewLRUCache cap) = Ok lc →
  NoDup (keys lc) ∧
  (∀ k e, cache lc !! k = Some e ↔ e ∈ llist lc ∧ key (entries lc e) = k) ∧
  size (cache lc) = length (llist lc) ∧
  capacity lc = cap.
Proof.
  intros Hrun. destruct (reach cap h lc Hrun) as [Hwf Hcap].
  split; [by apply wf_nodup_keys|]. split; [|split; [by apply wf_size | done]].
  intros k e. split.
  - apply (wf_map lc Hwf).
  - intros [He <-]. by apply (wf_list lc Hwf).
Qed.

Lemma map_and_list_agree_witness :
  NoDup (keys (after 1 [OPut "a" 1%float; OPut "b" 2%float])) ∧
  (∀ k e, cache (after 1 [OPut "a" 1%float; OPut "b" 2%float]) !! k = Some e ↔
          e ∈ llist (after 1 [OPut "a" 1%float; OPut "b" 2%float]) ∧
          key (entries (after 1 [OPut "a" 1%float; OPut "b" 2%float]) e) = k) ∧
  size (cache (after 1 [OPut "a" 1%float; OPut "b" 2%float])) =
    length (llist (after 1 [OPut "a" 1%float; OPut "b" 2%float])) ∧
  capacity (after 1 [OPut "a" 1%float; OPut "b" 2%float]) = 1.
Proof.
  apply (map_and_list_agree 1 [OPut "a" 1%float; OPut "b" 2%float]).
  reflexivity.
Defined.

(** X2. The cache never returns a stale or foreign value: after any
    operations on a new cache, [Get] of a key either misses, returning
    [(0, false)], or returns the value of the most recent [Put] of that key
    in the history. *)
Theorem Get_returns_last_Put (cap : Z) (h : list op) (lc : LRUCache) (k : string) :
  run h (NewLRUCache cap) = Ok lc →
  (Get k lc).1 = (0%float, false) ∨
  ∃ v, lastPut k h = Some v ∧ (Get k lc).1 = (v, true).
Proof.
  intros Hrun. destruct (run_spec cap h lc Hrun) as (Hwf & Hcap & Hspec).
  rewrite (LRUTheorems.Get_result lc k Hwf).
  destruct (LRUSpec.assoc k (contents lc)) as [v|] eqn:Ha; [|by left].
  right. exists v. split; [|done].
  destruct (lastPut_spec cap k v h [] _ Hspec Ha) as [?|[_ ?]]; done.
Qed.

Lemma Get_returns_last_Put_witness :
  (Get "a" (after 2 [OPut "a" 1%float; OPut "b" 2%float; OPut "a" 3%float])).1
    = (0%float, false) ∨
  ∃ v, lastPut "a" [OPut "a" 1%float; OPut "b" 2%float; OPut "a" 3%float] = Some v ∧
       (Get "a" (after 2 [OPut "a" 1%float; OPut "b" 2%float; OPut "a" 3%float])).1
       = (v, true).
Proof.
  apply (Get_returns_last_Put 2 [OPut "a" 1%float; OPut "b" 2%float; OPut "a" 3%float]).
  reflexivity.
Defined.

(** X3. [Get] changes nothing but the recency order: after it every key is
    found with the same value as before (or missed as before), nothing is
    evicted, the entries are the same up to their order, a key that was
    found is now the most recently used, and a miss leaves the cache as it
    was. *)
Theorem Get_keeps_entries (cap : Z) (h : list op) (lc : LRUCache) (k : string) :
  run h (NewLRUCache cap) = Ok lc →
  (∀ k', (Get k' (Get k lc).2).1 = (Get k' lc).1) ∧
  evicted lc (Get k lc).2 = [] ∧
  contents (Get k lc).2 ≡ₚ contents lc ∧
  (∀ v, (Get k lc).1 = (v, true) → head (contents (Get k lc).2) = Some (k, v)) ∧
  ((Get k lc).1.2 = false → (Get k lc).2 = lc).
Proof.
  intros Hrun. destruct (reach cap h lc Hrun) as [Hwf Hcap].
  destruct (Get_refines lc k Hwf) as (Hwf' & _ & Hc & Hr).
  assert (Hnd : NoDup (contents lc).*1).
  { rewrite <- LRUTheorems.keys_contents. by apply wf_nodup_keys. }
  split; [|split; [|split; [|split]]].
  - intros k'. rewrite !LRUTheorems.Get_result by done. rewrite Hc.
    unfold LRUSpec.get.
    destruct (LRUSpec.assoc k (contents lc)) as [v|] eqn:Ha; cbn [snd]; [|done].
    rewrite assoc_touch. destruct (decide (k = k')) as [<-|]; [|done].
    by rewrite Ha.
  - apply no_eviction; [done | apply Get_cache].
  - rewrite Hc. unfold LRUSpec.get.
    destruct (LRUSpec.assoc k (contents lc)) as [v|] eqn:Ha; cbn [snd]; [|done].
    by apply touch_perm.
  - intros v Hv. rewrite Hc. rewrite Hr in Hv. unfold LRUSpec.get in *.
    destruct (LRUSpec.assoc k (contents lc)) as [w|] eqn:Ha; cbn [fst snd] in *;
      [|done].
    by simplify_eq.
  - unfold Get. by destruct (cache lc !! k).
Qed.

Lemma Get_keeps_entries_witness :
  (∀ k', (Get k' (Get "a" (after 2 [OPut "a" 1%float; OPut "b" 2%float])).2).1
         = (Get k' (after 2 [OPut "a" 1%float; OPut "b" 2%float])).1) ∧
  evicted (after 2 [OPut "a" 1%float; OPut "b" 2%float])
          (Get "a" (after 2 [OPut "a" 1%float; OPut "b" 2%float])).2 = [] ∧
  contents (Get "a" (after 2 [OPut "a" 1%float; OPut "b" 2%float])).2
    ≡ₚ contents (after 2 [OPut "a" 1%float; OPut "b" 2%float]) ∧
  (∀ v, (Get "a" (after 2 [OPut "a" 1%float; OPut "b" 2%float])).1 = (v, true) →
        head (contents (Get "a" (after 2 [OPut "a" 1%float; OPut "b" 2%float])).2)
        = Some ("a", v)) ∧
  ((Get "a" (after 2 [OPut "a" 1%float; OPut "b" 2%float])).1.2 = false →
   (Get "a" (after 2 [OPut "a" 1%float; OPut "b" 2%float])).2
   = after 2 [OPut "a" 1%float; OPut "b" 2%float]).
Proof.
  apply (Get_keeps_entries 2 [OPut "a" 1%float; OPut "b" 2%float]).
  reflexivity.
Defined.

(** X4. [Put] of a key that is present overwrites its value and evicts
    nothing, even when the cache is full: the keys are the same up to their
    order, the key is now the most recently used with the new value, and
    every other key is found with the value it had. *)
Theorem Put_present_overwrites (cap : Z) (h : list op) (lc : LRUCache)
    (k : string) (v : float) :
  run h (NewLRUCache cap) = Ok lc → is_Some (cache lc !! k) →
  ∃ lc1, Put k v lc = Ok lc1 ∧
         evicted lc lc1 = [] ∧
         keys lc1 ≡ₚ keys lc ∧
         head (contents lc1) = Some (k, v) ∧
         (Get k lc1).1 = (v, true) ∧
         (∀ k', k' ≠ k → (Get k' lc1).1 = (Get k' lc).1).
Proof.
  intros Hrun [e He]. destruct (reach cap h lc Hrun) as [Hwf Hcap].
  pose proof (Put_refines lc k v Hwf) as Hp.
  assert (Ha : LRUSpec.assoc k (contents lc) = Some (value (entries lc e))).
  { rewrite assoc_contents by done. by rewrite He. }
  unfold LRUSpec.put in Hp. rewrite Ha in Hp.
  destruct Hp as (lc1 & Hput & Hwf1 & _ & Hc1).
  assert (Hnd : NoDup (contents lc).*1).
  { rewrite <- LRUTheorems.keys_contents. by apply wf_nodup_keys. }
  exists lc1. split; [done|]. split; [|split; [|split; [|split]]].
  - apply no_eviction; [done|]. unfold Put in Hput. rewrite He in Hput.
    by inversion Hput.
  - rewrite !LRUTheorems.keys_contents, Hc1. unfold LRUSpec.touch.
    rewrite fmap_cons, keys_filter. cbn [fst].
    clear -Hnd Ha. apply assoc_Some_elem in Ha.
    induction (contents lc).*1 as [|a l IH]; [by apply elem_of_nil in Ha|].
    apply NoDup_cons in Hnd as [Hal Hnd].
    destruct (decide (a = k)) as [->|Hne].
    + rewrite filter_cons_False by tauto. f_equiv.
      rewrite filter_all; [done|]. intros x Hx ->. done.
    + rewrite filter_cons_True by done. rewrite Permutation_swap. f_equiv.
      apply IH; [|done]. apply elem_of_cons in Ha as [->|]; done.
  - by rewrite Hc1.
  - rewrite LRUTheorems.Get_result by done. rewrite Hc1, assoc_touch.
    by rewrite decide_True.
  - intros k' Hne. rewrite !LRUTheorems.Get_result by done.
    rewrite Hc1, assoc_touch. by rewrite decide_False.
Qed.

Lemma Put_present_overwrites_witness :
  ∃ lc1, Put "a" 9%float (after 2 [OPut "a" 1%float; OPut "b" 2%float]) = Ok lc1 ∧
         evicted (after 2 [OPut "a" 1%float; OPut "b" 2%float]) lc1 = [] ∧
         keys lc1 ≡ₚ keys (after 2 [OPut "a" 1%float; OPut "b" 2%float]) ∧
         head (contents lc1) = Some ("a", 9%float) ∧
         (Get "a" lc1).1 = (9%float, true) ∧
         (∀ k', k' ≠ "a" →
                (Get k' lc1).1
                = (Get k' (after 2 [OPut "a" 1%float; OPut "b" 2%float])).1).
Proof.
  apply (Put_present_overwrites 2 [OPut "a" 1%float; OPut "b" 2%float]).
  - reflexivity.
  - by eexists.
Defined.

Lemma lastAccess_le k h : (LRUSpec.lastAccess k h ≤ length h)%nat.
Proof.
  induction h as [|o h IH] using rev_ind; [done|].
  rewrite lastAccess_snoc, length_app. simpl.
  destruct (LRUSpec.names o k); lia.
Qed.

Lemma lastAccess_suffix k h1 h2 :
  (length h1 < LRUSpec.lastAccess k (h1 ++ h2))%nat → k ∈ LRUSpec.keyOf <$> h2.
Proof.
  induction h2 as [|o h2 IH] using rev_ind.
  - rewrite app_nil_r. pose proof (lastAccess_le k h1). lia.
  - rewrite app_assoc, lastAccess_snoc, fmap_app, elem_of_app.
    unfold LRUSpec.names. case_bool_decide as Hn.
    + intros _. right. simpl. rewrite Hn. apply list_elem_of_singleton. done.
    + intros Hlt. left. by apply IH.
Qed.

Lemma lastAccess_unnamed k h1 h2 :
  k ∉ LRUSpec.keyOf <$> h2 →
  LRUSpec.lastAccess k (h1 ++ h2) = LRUSpec.lastAccess k h1.
Proof.
  induction h2 as [|o h2 IH] using rev_ind; intros Hk.
  - by rewrite app_nil_r.
  - rewrite fmap_app, not_elem_of_app in Hk. destruct Hk as [Hk Ho].
    rewrite app_assoc, lastAccess_snoc. unfold LRUSpec.names.
    rewrite bool_decide_eq_false_2; [by apply IH|].
    intros Heq. apply Ho. simpl. rewrite Heq. by apply list_elem_of_singleton.
Qed.

Lemma assoc_put cap k v s s' :
  LRUSpec.put cap k v s = Some s' → LRUSpec.assoc k s' = Some v.
Proof.
  unfold LRUSpec.put. intros Hp.
  destruct (LRUSpec.assoc k s).
  - inversion Hp; subst. rewrite assoc_touch. by rewrite decide_True.
  - case_bool_decide; [destruct s; [done|]|];
      assert (∃ t, s' = (k, v) :: t) as [t ->] by (inversion Hp; eauto);
      cbn [LRUSpec.assoc]; by rewrite decide_True.
Qed.

Lemma distinctKeys_prefix h o :
  (length (distinctKeys h) ≤ length (distinctKeys (h ++ [o])))%nat.
Proof.
  unfold distinctKeys. apply submseteq_length, NoDup_submseteq.
  - apply NoDup_remove_dups.
  - intros a. rewrite !elem_of_remove_dups, fmap_app, elem_of_app. tauto.
Qed.

Lemma survives cap h1 k v : ∀ h2 lc,
  k ∉ LRUSpec.keyOf <$> h2 →
  Z.of_nat (length (distinctKeys h2)) < cap →
  run (h1 ++ OPut k v :: h2) (NewLRUCache cap) = Ok lc →
  LRUSpec.assoc k (contents lc) = Some v.
Proof.
  induction h2 as [|o h2 IH] using rev_ind; intros lc Hk Hd Hrun.
  - rewrite run_snoc in Hrun.
    destruct (run h1 (NewLRUCache cap)) as [lc0|] eqn:Hrun0; [|done].
    destruct (reach cap h1 lc0 Hrun0) as [Hwf0 Hcap0].
    pose proof (Put_refines lc0 k v Hwf0) as Hp. simpl in Hrun.
    destruct (LRUSpec.put _ _ _ _) as [s'|] eqn:Hput; [|congruence].
    destruct Hp as (lc' & Hp & _ & _ & Hc). rewrite Hrun in Hp.
    inversion Hp; subst lc'. rewrite Hc. by eapply assoc_put.
  - rewrite fmap_app, not_elem_of_app in Hk. destruct Hk as [Hk Ho].
    assert (Hne : LRUSpec.keyOf o ≠ k).
    { intros Heq. apply Ho. simpl. rewrite Heq. by apply list_elem_of_singleton. }
    change (h1 ++ OPut k v :: h2 ++ [o]) with (h1 ++ (OPut k v :: h2) ++ [o]) in Hrun.
    rewrite app_assoc, run_snoc in Hrun.
    destruct (run (h1 ++ OPut k v :: h2) (NewLRUCache cap)) as [lc1|] eqn:Hrun1;
      [|done].
    pose proof (distinctKeys_prefix h2 o) as Hpre.
    assert (Ha1 : LRUSpec.assoc k (contents lc1) = Some v).
    { apply IH; [done | lia | done]. }
    assert (Hcap : 1 ≤ cap) by lia.
    destruct (LRUTheorems.reachable cap (h1 ++ OPut k v :: h2) Hcap)
      as (lc1' & Hrun1' & Hwf1 & Hcap1 & _ & Hrec).
    rewrite Hrun1 in Hrun1'. inversion Hrun1'; subst lc1'. clear Hrun1'.
    pose proof (LRUTheorems.step_refines lc1 o Hwf1) as Hst.
    destruct (LRUSpec.step (capacity lc1) o (contents lc1)) as [s'|] eqn:Hs;
      [|congruence].
    destruct Hst as (lc' & Hst & _ & _ & Hc). rewrite Hrun in Hst.
    inversion Hst; subst lc'. rewrite Hc. clear Hst Hc.
    destruct o as [k'|k' v']; simpl in Hs, Hne.
    + inversion Hs; subst s'. unfold LRUSpec.get.
      destruct (LRUSpec.assoc k' (contents lc1)); cbn [snd]; [|done].
      rewrite assoc_touch. by rewrite decide_False.
    + unfold LRUSpec.put in Hs.
      destruct (LRUSpec.assoc k' (contents lc1)) as [w|] eqn:Hk'.
      { inversion Hs; subst s'. rewrite assoc_touch. by rewrite decide_False. }
      case_bool_decide as Hfull.
      2:{ inversion Hs; subst s'. cbn [LRUSpec.assoc]. by rewrite decide_False. }
      destruct (contents lc1) as [|p s0 _] eqn:Hcont using rev_ind; [done|].
      assert (Hs' : s' = (k', v') :: s0).
      { destruct (s0 ++ [p]) eqn:E; [by destruct s0|]. rewrite <- E in Hs.
        rewrite removelast_last in Hs. congruence. }
      subst s'. cbn [LRUSpec.assoc]. rewrite decide_False by done.
      destruct (decide (p.1 = k)) as [Hp|Hp];
        [|by rewrite LRUTheorems.assoc_snoc_ne in Ha1].
      exfalso.
      assert (Hnd : NoDup (s0.*1 ++ [p.1])).
      { replace (s0.*1 ++ [p.1]) with ((s0 ++ [p]).*1) by (by rewrite fmap_app).
        rewrite <- Hcont, <- LRUTheorems.keys_contents. by apply wf_nodup_keys. }
      destruct Hrec as [Hsorted _]. rewrite fmap_app in Hsorted. simpl in Hsorted.
      assert (Hsub : ∀ a, a ∈ k' :: s0.*1 →
                          a ∈ distinctKeys (h2 ++ [OPut k' v'])).
      { intros a Ha. apply elem_of_remove_dups. rewrite fmap_app, elem_of_app.
        apply elem_of_cons in Ha as [->|Ha].
        - right. simpl. by apply list_elem_of_singleton.
        - left.
          assert (HR : (LRUSpec.lastAccess p.1 (h1 ++ OPut k v :: h2)
                        < LRUSpec.lastAccess a (h1 ++ OPut k v :: h2))%nat).
          { eapply (StronglySorted_app_1_elem_of _ _ _ a p.1 Hsorted); [done|].
            by apply list_elem_of_singleton. }
          rewrite Hp in HR.
          change (h1 ++ OPut k v :: h2) with (h1 ++ [OPut k v] ++ h2) in HR.
          rewrite app_assoc in HR.
          rewrite (lastAccess_unnamed k (h1 ++ [OPut k v]) h2 Hk) in HR.
          rewrite lastAccess_snoc in HR. unfold LRUSpec.names in HR. simpl in HR.
          rewrite bool_decide_eq_true_2 in HR by done.
          apply (lastAccess_suffix a (h1 ++ [OPut k v]) h2).
          rewrite length_app. simpl. lia. }
      assert (Hnd' : NoDup (k' :: s0.*1)).
      { apply NoDup_cons. split.
        - apply assoc_None in Hk'. rewrite fmap_app, not_elem_of_app in Hk'. tauto.
        - by apply NoDup_app in Hnd as (? & _ & _). }
      pose proof (submseteq_length _ _ (NoDup_submseteq _ _ Hnd' Hsub)) as Hlen.
      rewrite length_app in Hfull. simpl in Hfull, Hlen.
      rewrite length_fmap in Hlen. lia.
Qed.

(** X5. An entry outlives fewer than [capacity] distinct other keys: after
    [Put] of a key, as long as the operations that follow do not name that
    key and name fewer distinct keys than the capacity, the key is still in
    the cache with the value that was put. *)
Theorem entry_survives (cap : Z) (h1 h2 : list op) (k : string) (v : float)
    (lc : LRUCache) :
  run (h1 ++ OPut k v :: h2) (NewLRUCache cap) = Ok lc →
  k ∉ LRUSpec.keyOf <$> h2 →
  Z.of_nat (length (distinctKeys h2)) < cap →
  (Get k lc).1 = (v, true).
Proof.
  intros Hrun Hk Hd.
  assert (Hwf : wf lc) by (by eapply reach).
  rewrite LRUTheorems.Get_result by done.
  by rewrite (survives cap h1 k v h2 lc Hk Hd Hrun).
Qed.

Lemma entry_survives_witness :
  (Get "a" (after 3 ([OPut "z" 0%float] ++ OPut "a" 1%float ::
                     [OPut "b" 2%float; OGet "c"; OPut "b" 4%float;
                      OPut "c" 5%float]))).1
  = (1%float, true).
Proof.
  apply (entry_survives 3 [OPut "z" 0%float]
           [OPut "b" 2%float; OGet "c"; OPut "b" 4%float; OPut "c" 5%float]).
  - reflexivity.
  - compute_done.
  - vm_compute. reflexivity.
Defined.

End LRUExtras.

(** * Further properties of keys and distances *)

Module TourExtras.
Import Tour TourFacts KeyText.

Lemma first_least_split (path : list Z) :
  path ≠ [] →
  ∃ l1 m l2, path = l1 ++ m :: l2 ∧
             (∀ v, v ∈ l1 → m < v) ∧ (∀ v, v ∈ l2 → m ≤ v).
Proof.
  induction path as [|a path IH]; [done|]. intros _.
  destruct path as [|b path'].
  - exists [], a, []. split; [done|]. split; intros v Hv; by apply elem_of_nil in Hv.
  - destruct IH as (l1 & m & l2 & Hsplit & Hl1 & Hl2); [done|].
    destruct (decide (a ≤ m)) as [Hle|Hgt].
    + exists [], a, (b :: path'). split; [done|].
      split; [intros v Hv; by apply elem_of_nil in Hv|].
      intros v Hv. rewrite Hsplit in Hv.
      apply elem_of_app in Hv as [Hv|Hv].
      * specialize (Hl1 v Hv). lia.
      * apply elem_of_cons in Hv as [->|Hv]; [done|]. specialize (Hl2 v Hv). lia.
    + exists (a :: l1), m, l2. rewrite Hsplit. split; [done|]. split; [|done].
      intros v Hv. apply elem_of_cons in Hv as [->|Hv]; [lia|]. by apply Hl1.
Qed.

Lemma rotation_trans {A} (l1 l2 r1 r2 : list A) :
  l2 ++ l1 = r2 ++ r1 →
  ∃ a b, l1 ++ l2 = a ++ b ∧ r1 ++ r2 = b ++ a.
Proof.
  intros Heq. apply app_eq_app in Heq as [m [[-> ->]|[-> ->]]].
  - exists (l1 ++ r2), m. by rewrite <- !app_assoc.
  - exists m, (r1 ++ l2). by rewrite <- !app_assoc.
Qed.

(** The text of [getKey] in closed form. *)

Lemma append_assoc (s1 s2 s3 : string) : (s1 +:+ s2) +:+ s3 = s1 +:+ (s2 +:+ s3).
Proof.
  induction s1 as [|a s1 IH]; [done|].
  change (String a ((s1 +:+ s2) +:+ s3) = String a (s1 +:+ (s2 +:+ s3))).
  by rewrite IH.
Qed.

Lemma append_nil_r (s : string) : s +:+ "" = s.
Proof.
  induction s as [|a s IH]; [done|].
  change (String a (s +:+ "") = String a s). by rewrite IH.
Qed.

Lemma writeCities_concat cities : ∀ i builder,
  writeCities i builder cities =
  match cities with
  | [] => builder
  | _ => builder +:+ (if bool_decide (0 < i)%nat then "," else "")
         +:+ String.concat "," (Itoa <$> cities)
  end.
Proof.
  induction cities as [|c rest IH]; intros i builder; [done|].
  cbn [writeCities]. rewrite IH.
  rewrite (bool_decide_eq_true_2 (0 < S i)%nat) by lia.
  case_bool_decide; destruct rest as [|c' rest'];
    cbn [fmap list_fmap String.concat]; rewrite ?append_assoc; reflexivity.
Qed.

Lemma getKey_concat path :
  getKey path = String.concat "," (Itoa <$> normalizePath path).
Proof.
  unfold getKey. rewrite writeCities_concat.
  destruct (normalizePath path); [done|].
  by rewrite bool_decide_eq_false_2 by lia.
Qed.

(** [Itoa] is injective and writes no comma. *)

Lemma Itoa_inj n m : Itoa n = Itoa m → n = m.
Proof.
  unfold Itoa. intros Heq.
  assert (Hnn : ∀ z, Z.to_int z ≠ Decimal.Pos Decimal.Nil ∧
                     Z.to_int z ≠ Decimal.Neg Decimal.Nil).
  { intros [|p|p]; simpl; split; try done; intros [= H];
      by apply DecimalPos.Unsigned.to_uint_nonnil in H. }
  assert (Hint : Z.to_int n = Z.to_int m).
  { apply (f_equal NilZero.int_of_string) in Heq.
    rewrite !NilZero.isi in Heq by apply Hnn. congruence. }
  rewrite <- (DecimalZ.of_to n), <- (DecimalZ.of_to m). by rewrite Hint.
Qed.

Lemma commaFree_uint d : commaFree (NilEmpty.string_of_uint d).
Proof. induction d; simpl; (split; [done|]) || done; done. Qed.

Lemma commaFree_Itoa n : commaFree (Itoa n).
Proof.
  unfold Itoa.
  assert (H : ∀ d, commaFree (NilZero.string_of_uint d)).
  { intros d. destruct d; try apply commaFree_uint. done. }
  destruct (Z.to_int n); simpl; [apply H | split; [done | apply H]].
Qed.

Lemma Itoa_nonempty n : Itoa n ≠ "".
Proof.
  unfold Itoa. destruct n as [|p|p]; simpl; [done| |done].
  pose proof (DecimalPos.Unsigned.to_uint_nonnil p).
  by destruct (Pos.to_uint p).
Qed.

Lemma append_comma_inj s1 : ∀ s2 t1 t2,
  commaFree s1 → commaFree s2 → commaLed t1 → commaLed t2 →
  s1 +:+ t1 = s2 +:+ t2 → s1 = s2 ∧ t1 = t2.
Proof.
  induction s1 as [|a s1 IH]; intros [|b s2] t1 t2 H1 H2 L1 L2 Heq; simpl in *.
  - done.
  - change (t1 = String b (s2 +:+ t2)) in Heq. subst t1. simpl in L1. tauto.
  - change (String a (s1 +:+ t1) = t2) in Heq. subst t2. simpl in L2. tauto.
  - change (String a (s1 +:+ t1) = String b (s2 +:+ t2)) in Heq.
    injection Heq as -> Heq.
    destruct (IH s2 t1 t2) as [-> ->]; tauto.
Qed.

Lemma concat_cons c (l : list Z) :
  String.concat "," (Itoa <$> c :: l) =
  Itoa c +:+ match l with
             | [] => ""
             | _ => "," +:+ String.concat "," (Itoa <$> l)
             end.
Proof. destruct l; simpl; [by rewrite append_nil_r | done]. Qed.

Lemma concat_inj (l1 : list Z) : ∀ l2,
  String.concat "," (Itoa <$> l1) = String.concat "," (Itoa <$> l2) → l1 = l2.
Proof.
  induction l1 as [|c1 l1 IH]; intros [|c2 l2] Heq.
  - done.
  - rewrite concat_cons in Heq. simpl in Heq.
    pose proof (Itoa_nonempty c2). by destruct (Itoa c2).
  - rewrite concat_cons in Heq. simpl in Heq.
    pose proof (Itoa_nonempty c1). by destruct (Itoa c1).
  - rewrite !concat_cons in Heq.
    apply append_comma_inj in Heq as [Hc Ht];
      [|apply commaFree_Itoa..|by destruct l1|by destruct l2].
    apply Itoa_inj in Hc as ->. f_equal. apply IH.
    destruct l1 as [|a l1], l2 as [|b l2]; [done|done|done|].
    by injection Ht.
Qed.

Lemma normalizePath_split (path : list Z) :
  ∃ l1 l2, path = l1 ++ l2 ∧ normalizePath path = l2 ++ l1.
Proof.
  destruct (decide (path = [])) as [->|Hne]; [by exists [], []|].
  destruct (first_least_split path Hne) as (l1 & m & l2 & -> & Hl1 & Hl2).
  exists l1, (m :: l2). by rewrite (normalizePath_first l1 m l2 Hl1 Hl2).
Qed.

(** X6. [normalizePath] rotates the sequence so that its least city, at its
    first occurrence, comes first: the result is a rotation of the input,
    its head is a least element, and normalizing it again changes
    nothing. *)
Theorem normalizePath_rotates_to_least (path : list Z) :
  (∃ l1 l2, path = l1 ++ l2 ∧ normalizePath path = l2 ++ l1 ∧
            ∀ m v, head l2 = Some m → v ∈ l1 → m < v) ∧
  (∀ m v, head (normalizePath path) = Some m → v ∈ path → m ≤ v) ∧
  normalizePath (normalizePath path) = normalizePath path.
Proof.
  destruct (decide (path = [])) as [->|Hne].
  { split; [|done]. exists [], []. split; [done|]. split; [done|]. done. }
  destruct (first_least_split path Hne) as (l1 & m & l2 & -> & Hl1 & Hl2).
  rewrite (normalizePath_first l1 m l2 Hl1 Hl2).
  split; [|split].
  - exists l1, (m :: l2). split; [done|]. split; [done|].
    intros m' v [= <-] Hv. by apply Hl1.
  - intros m' v [= <-] Hv. apply elem_of_app in Hv as [Hv|Hv].
    + specialize (Hl1 v Hv). lia.
    + apply elem_of_cons in Hv as [->|Hv]; [done|]. by apply Hl2.
  - pose proof (normalizePath_first [] m (l2 ++ l1)) as Hn.
    change ([] ++ m :: l2 ++ l1) with (m :: l2 ++ l1) in Hn. rewrite Hn.
    + by rewrite app_nil_r.
    + intros v Hv. by apply elem_of_nil in Hv.
    + intros v Hv. apply elem_of_app in Hv as [Hv|Hv].
      * by apply Hl2.
      * specialize (Hl1 v Hv). lia.
Qed.

(** X7. The key is the decimal text of the normalized cities separated by
    commas, and it identifies a tour up to rotation: two sequences with the
    same key have the same normal form and are rotations of each other. *)
Theorem getKey_identifies_rotations (p q : list Z) :
  getKey p = String.concat "," (Itoa <$> normalizePath p) ∧
  (getKey p = getKey q →
   normalizePath p = normalizePath q ∧
   ∃ l1 l2, p = l1 ++ l2 ∧ q = l2 ++ l1).
Proof.
  split; [apply getKey_concat|]. intros Hkey.
  rewrite !getKey_concat in Hkey. apply concat_inj in Hkey.
  split; [done|].
  destruct (normalizePath_split p) as (l1 & l2 & Hp & Hnp).
  destruct (normalizePath_split q) as (r1 & r2 & Hq & Hnq).
  rewrite Hnp, Hnq in Hkey. rewrite Hp, Hq. by apply rotation_trans.
Qed.

Lemma getKey_identifies_rotations_witness :
  normalizePath [2; 1; 3] = normalizePath [1; 3; 2] ∧
  ∃ l1 l2, [2; 1; 3] = l1 ++ l2 ∧ [1; 3; 2] = l2 ++ l1.
Proof.
  apply (proj2 (getKey_identifies_rotations [2; 1; 3] [1; 3; 2])).
  reflexivity.
Defined.

(** Distances *)

Lemma createDistanceMatrix_square points :
  Evolution.squareMatrix (Z.of_nat (length points)) (createDistanceMatrix points).
Proof.
  unfold Evolution.squareMatrix, createDistanceMatrix. split.
  - by rewrite length_fmap.
  - apply Forall_fmap, Forall_forall. intros p _. simpl. by rewrite length_fmap.
Qed.

Lemma Distance_Panic dm i j e : Distance dm i j = Panic e → e = IndexOutOfRange.
Proof.
  unfold Distance. case_bool_decide; [|congruence].
  destruct (dm !! Z.to_nat i) as [row|]; [|congruence].
  destruct (row !! Z.to_nat j); congruence.
Qed.

Lemma Distance_Ok_inv N dm i j d :
  Evolution.squareMatrix N dm → Distance dm i j = Ok d → 0 ≤ i < N ∧ 0 ≤ j < N.
Proof.
  intros [Hrows Hcols]. unfold Distance. case_bool_decide as Hij; [|done].
  destruct (dm !! Z.to_nat i) as [row|] eqn:Hrow; [|done].
  destruct (row !! Z.to_nat j) as [d'|] eqn:Hd; [|done]. intros _.
  apply lookup_lt_Some in Hrow as Hi. apply lookup_lt_Some in Hd.
  rewrite Forall_forall in Hcols.
  assert (Z.of_nat (length row) = N).
  { apply Hcols. by eapply list_elem_of_lookup_2. }
  lia.
Qed.

Lemma sumLegs_out_of_range N dm path : ∀ total prev,
  Evolution.squareMatrix N dm →
  (¬ (0 ≤ prev < N) ∨ ∃ c, c ∈ path ∧ ¬ (0 ≤ c < N)) →
  sumLegs dm total prev path = Panic IndexOutOfRange.
Proof.
  induction path as [|city rest IH]; intros total prev Hdm Hbad; simpl.
  - destruct Hbad as [Hprev|(c & Hc & _)]; [|by apply elem_of_nil in Hc].
    destruct (Distance dm prev 0) as [d|e] eqn:Hd.
    + apply (Distance_Ok_inv N) in Hd; [tauto | done].
    + by apply Distance_Panic in Hd as ->.
  - destruct (Distance dm prev city) as [d|e] eqn:Hd.
    + apply (Distance_Ok_inv N) in Hd as [Hprev Hcity]; [|done].
      apply IH; [done|]. destruct Hbad as [?|(c & Hc & Hout)]; [done|].
      apply elem_of_cons in Hc as [->|Hc]; [done|]. right. by exists c.
    + by apply Distance_Panic in Hd as ->.
Qed.

(** X8. On the matrix built from [N] points, [calculateDistance] returns a
    length exactly when there is at least one point and every city of the
    sequence is in 0..N-1; with no point, or with one city outside this
    range, it panics on an index out of range. *)
Theorem calculateDistance_bounds (points : list Point) (path : list Z) :
  (points ≠ [] → (∀ c, c ∈ path → 0 ≤ c < Z.of_nat (length points)) →
   ∃ d, calculateDistance path (createDistanceMatrix points) = Ok d) ∧
  (points = [] ∨ (∃ c, c ∈ path ∧ ¬ (0 ≤ c < Z.of_nat (length points))) →
   calculateDistance path (createDistanceMatrix points) = Panic IndexOutOfRange).
Proof.
  pose proof (createDistanceMatrix_square points) as Hsq. split.
  - intros Hne Hin. unfold calculateDistance.
    apply (EvolutionTheorems.sumLegs_Ok (Z.of_nat (length points))); [done| |done].
    destruct points; [done|]. simpl. lia.
  - intros Hbad. unfold calculateDistance.
    apply (sumLegs_out_of_range (Z.of_nat (length points))); [done|].
    destruct Hbad as [->|Hc]; [left; simpl; lia | by right].
Qed.

Lemma calculateDistance_bounds_witness :
  (∃ d, calculateDistance [2; 1]
          (createDistanceMatrix [mkPoint 0 0; mkPoint 3 4; mkPoint 6 8]) = Ok d) ∧
  calculateDistance [1; 3]
    (createDistanceMatrix [mkPoint 0 0; mkPoint 3 4; mkPoint 6 8])
  = Panic IndexOutOfRange.
Proof.
  split.
  - apply (proj1 (calculateDistance_bounds
                    [mkPoint 0 0; mkPoint 3 4; mkPoint 6 8] [2; 1])); [done|].
    intros c Hc. simpl. set_unfold. lia.
  - apply (proj2 (calculateDistance_bounds
                    [mkPoint 0 0; mkPoint 3 4; mkPoint 6 8] [1; 3])).
    right. exists 3. split; [set_unfold; tauto | simpl; lia].
Defined.

End TourExtras.

(** * The distance matrix *)

Module MatrixExtras.
Import Tour.

Lemma binary_round_sign prec emax s1 s2 m e :
  SFabs (binary_round prec emax s1 m e) = SFabs (binary_round prec emax s2 m e).
Proof.
  unfold binary_round, binary_round_aux.
  destruct (shl_align m e _) as [mz ez].
  destruct (shr_fexp prec emax (Z.pos mz) ez loc_Exact) as [mrs1 e1].
  destruct (shr_fexp prec emax _ e1 loc_Exact) as [mrs2 e2].
  destruct (shr_m mrs2); [done| |done].
  by destruct (e2 <=? emax - prec)%Z.
Qed.

Lemma binary_normalize_opp prec emax m e :
  SFabs (binary_normalize prec emax (- m) e false)
  = SFabs (binary_normalize prec emax m e false).
Proof. destruct m; [done|apply binary_round_sign..]. Qed.

Lemma SFsub_comm prec emax a b :
  SFabs (SFsub prec emax a b) = SFabs (SFsub prec emax b a).
Proof.
  destruct a as [sa|sa| |sa ma ea], b as [sb|sb| |sb mb eb];
    try by (try destruct sa; try destruct sb).
  cbn [SFsub]. rewrite (Z.min_comm eb ea).
  rewrite <- binary_normalize_opp. f_equal. f_equal. lia.
Qed.

Lemma abs_sub_comm (a b : float) : abs (a - b) = abs (b - a).
Proof.
  apply FloatAxioms.Prim2SF_inj.
  rewrite !FloatAxioms.abs_spec, !FloatAxioms.sub_spec. apply SFsub_comm.
Qed.

Lemma Hypot_sub_comm (a b c d : float) :
  Hypot (a - b) (c - d) = Hypot (b - a) (d - c).
Proof. unfold Hypot. by rewrite (abs_sub_comm a b), (abs_sub_comm c d). Qed.

Lemma Distance_createDistanceMatrix points i j :
  Distance (createDistanceMatrix points) i j
  = if bool_decide (0 ≤ i ∧ 0 ≤ j) then
      match points !! Z.to_nat i, points !! Z.to_nat j with
      | Some p, Some q => Ok (Hypot (x p - x q) (y p - y q))
      | _, _ => Panic IndexOutOfRange
      end
    else Panic IndexOutOfRange.
Proof.
  unfold Distance, createDistanceMatrix, DistanceMatrix.
  case_bool_decide; [|done].
  rewrite list_lookup_fmap. destruct (points !! Z.to_nat i) as [p|]; [|done].
  simpl. rewrite list_lookup_fmap. by destruct (points !! Z.to_nat j).
Qed.

Lemma sub_diag (a : float) :
  (a - a)%float = if is_finite a then 0%float else nan.
Proof.
  apply FloatAxioms.Prim2SF_inj. rewrite FloatAxioms.sub_spec.
  unfold is_finite, is_nan, is_infinity.
  rewrite !FloatAxioms.eqb_spec, FloatAxioms.abs_spec.
  destruct (Prim2SF a) as [s|s| |s m e] eqn:Ha.
  - by destruct s.
  - by destruct s.
  - done.
  - assert (Hself : SFeqb (S754_finite s m e) (S754_finite s m e) = true).
    { unfold SFeqb, SFcompare. rewrite Z.compare_refl.
      change (PosDef.Pos.compare_cont Eq m m) with (m ?= m)%positive.
      rewrite Pos.compare_refl. by destruct s. }
    rewrite Hself. simpl negb. unfold SF64sub. cbn [SFsub].
    by rewrite Z.sub_diag.
Qed.

(** X24. The matrix of [createDistanceMatrix] is symmetric: [dm[i][j]] and
    [dm[j][i]] are the same float for any two cities, and the one is out
    of range exactly when the other is. *)
Theorem createDistanceMatrix_symmetric (points : list Point) (i j : Z) :
  Distance (createDistanceMatrix points) i j
  = Distance (createDistanceMatrix points) j i.
Proof.
  rewrite !Distance_createDistanceMatrix.
  case_bool_decide as Hi; [rewrite bool_decide_eq_true_2 by tauto
                          |by rewrite bool_decide_eq_false_2 by tauto].
  destruct (points !! Z.to_nat i) as [p|], (points !! Z.to_nat j) as [q|];
    try done.
  by rewrite Hypot_sub_comm.
Qed.

(** X25. The diagonal of the matrix: the distance of a city to itself is
    0 when both its coordinates are finite, and NaN when one of them is an
    infinity or NaN (which [strconv.ParseFloat] returns for such a text
    or for a value out of range). *)
Theorem createDistanceMatrix_diagonal (points : list Point) (i : nat) (p : Point) :
  points !! i = Some p →
  Distance (createDistanceMatrix points) (Z.of_nat i) (Z.of_nat i)
  = Ok (if is_finite (x p) && is_finite (y p) then 0%float else nan).
Proof.
  intros Hp. rewrite Distance_createDistanceMatrix.
  rewrite bool_decide_eq_true_2 by lia. rewrite Nat2Z.id, Hp.
  rewrite !sub_diag. by destruct (is_finite (x p)), (is_finite (y p)).
Qed.

Lemma createDistanceMatrix_diagonal_witness :
  Distance (createDistanceMatrix [mkPoint 0 0; mkPoint infinity 4]) 1 1 = Ok nan.
Proof.
  apply (createDistanceMatrix_diagonal [mkPoint 0 0; mkPoint infinity 4] 1
           (mkPoint infinity 4)).
  reflexivity.
Defined.

End MatrixExtras.

(** * Further properties of the operators and of the evolution loop *)

Module RunExtras.
Import Tour Prog Evolution ProgFacts Safety.

(** ** Tournament selection *)

Lemma SFcompare_Lt_trans a b c :
  SFcompare a b = Some Lt → SFcompare b c = Some Lt → SFcompare a c = Some Lt.
Proof.
  destruct a as [sa|sa| |sa ma ea], b as [sb|sb| |sb mb eb],
    c as [sc|sc| |sc mc ec]; simpl;
    try destruct sa; try destruct sb; try destruct sc; try congruence.
  all: change (PosDef.Pos.compare_cont Eq ?x ?y) with (Pos.compare x y).
  all: destruct (Z.compare_spec ea eb), (Z.compare_spec eb ec),
         (Z.compare_spec ea ec); simpl; try congruence; try lia.
  all: destruct (Pos.compare_spec ma mb), (Pos.compare_spec mb mc),
         (Pos.compare_spec ma mc); simpl; try congruence; try lia.
Qed.

Lemma ltb_trans x y z :
  PrimFloat.ltb x y = true → PrimFloat.ltb y z = true → PrimFloat.ltb x z = true.
Proof.
  rewrite !FloatAxioms.ltb_spec. unfold SFltb.
  destruct (SFcompare (Prim2SF x) (Prim2SF y)) as [[]|] eqn:Hxy; try done.
  destruct (SFcompare (Prim2SF y) (Prim2SF z)) as [[]|] eqn:Hyz; try done.
  by rewrite (SFcompare_Lt_trans _ _ _ Hxy Hyz).
Qed.

Lemma advance_advance n m st : advance n (advance m st) = advance (n + m) st.
Proof. unfold advance. simpl. f_equal. lia. Qed.

Lemma drawnRoute_advance population st m i :
  drawnRoute population (advance m st) i = drawnRoute population st (i + m).
Proof.
  unfold drawnRoute, advance. simpl.
  by replace (i + (m + cursor st))%nat with (i + m + cursor st)%nat by lia.
Qed.

Lemma pick_spec population st :
  population ≠ [] →
  ∃ r, pick population st = (Ok r, advance 1 st) ∧
       drawnRoute population st 0 = Some r ∧ r ∈ population.
Proof.
  intros Hne.
  assert (Hlen : 0 < Z.of_nat (length population)).
  { destruct population; [done | simpl; lia]. }
  destruct (Intn_Ok _ st Hlen) as (v & Hv & Hrange).
  destruct (index_Some population v Hrange) as (r & Hidx & Hlook).
  exists r. split; [|split].
  - unfold pick. erewrite bind_Ok by exact Hv. by rewrite Hidx.
  - unfold drawnRoute. simpl. rewrite <- Hlook. f_equal. f_equal.
    unfold Intn in Hv. rewrite bool_decide_eq_false_2 in Hv by lia.
    by inversion Hv.
  - by eapply list_elem_of_lookup_2.
Qed.

Lemma pick_empty st : pick [] st = (Panic InvalidIntnArgument, st).
Proof. unfold pick. by erewrite bind_Panic by (by apply Intn_Panic). Qed.

Lemma tournamentLoop_spec population n : ∀ best st,
  population ≠ [] →
  ∃ w, tournamentLoop n population best st = (Ok w, advance n st) ∧
       (w = best ∨ PrimFloat.ltb (distance w) (distance best) = true) ∧
       (w = best ∨ w ∈ population) ∧
       ∀ i c, (i < n)%nat → drawnRoute population st i = Some c →
              PrimFloat.ltb (distance c) (distance w) = false.
Proof.
  induction n as [|n IH]; intros best st Hne.
  - exists best. split; [by destruct st|]. split; [by left|]. split; [by left|].
    intros i c Hi. lia.
  - destruct (pick_spec population st Hne) as (c0 & Hpick & Hdraw & Hin).
    set (best' := if PrimFloat.ltb (distance c0) (distance best)
                  then c0 else best).
    destruct (IH best' (advance 1 st) Hne) as (w & Hloop & Hle & Hmem & Hmin).
    exists w. split; [|split; [|split]].
    + cbn [tournamentLoop]. erewrite bind_Ok by exact Hpick.
      fold best'. rewrite Hloop, advance_advance. do 2 f_equal. lia.
    + subst best'. destruct (PrimFloat.ltb (distance c0) (distance best)) eqn:Hc;
        [|done].
      right. destruct Hle as [->|Hlt]; [done|]. by eapply ltb_trans.
    + subst best'. destruct (PrimFloat.ltb (distance c0) (distance best));
        [|done].
      right. by destruct Hmem as [->|?].
    + intros i c Hi Hc. destruct i as [|i].
      * rewrite Hdraw in Hc. injection Hc as <-. subst best'.
        destruct (PrimFloat.ltb (distance c0) (distance best)) eqn:Hcb.
        -- destruct Hle as [->|Hlt];
             [apply EvolutionTheorems.ltb_irrefl
             |by apply EvolutionTheorems.ltb_asym].
        -- destruct Hle as [->|Hlt]; [done|].
           destruct (PrimFloat.ltb (distance c0) (distance w)) eqn:Hcw; [|done].
           by rewrite (ltb_trans _ _ _ Hcw Hlt) in Hcb.
      * apply (Hmin i c); [lia|]. rewrite drawnRoute_advance.
        by replace (i + 1)%nat with (S i) by lia.
Qed.

Lemma tournamentSelection_draws (population : list Route) (tournamentSize : Z)
    (st : State) :
  population ≠ [] →
  ∃ winner,
    tournamentSelection population tournamentSize st
    = (Ok winner, advance (Z.to_nat (Z.max 1 tournamentSize)) st) ∧
    winner ∈ population ∧
    ∀ i c, (i < Z.to_nat (Z.max 1 tournamentSize))%nat →
           drawnRoute population st i = Some c →
           PrimFloat.ltb (distance c) (distance winner) = false.
Proof.
  intros Hne. destruct (pick_spec population st Hne) as (b0 & Hpick & Hdraw & Hin).
  destruct (tournamentLoop_spec population (Z.to_nat (tournamentSize - 1)) b0
              (advance 1 st) Hne) as (w & Hloop & Hle & Hmem & Hmin).
  exists w. split; [|split].
  - unfold tournamentSelection. erewrite bind_Ok by exact Hpick.
    rewrite Hloop, advance_advance. do 2 f_equal. lia.
  - by destruct Hmem as [->|?].
  - intros i c Hi Hc. destruct i as [|i].
    + rewrite Hdraw in Hc. injection Hc as <-.
      destruct Hle as [->|Hlt];
        [apply EvolutionTheorems.ltb_irrefl
        |by apply EvolutionTheorems.ltb_asym].
    + apply (Hmin i c); [lia|]. rewrite drawnRoute_advance.
      by replace (i + 1)%nat with (S i) by lia.
Qed.

(** X9. [tournamentSelection] on a population that is not empty consumes
    max(1, tournamentSize) draws, changes nothing else, and returns a route
    of the population that none of the drawn competitors beats: no drawn
    route has a distance strictly below the winner's.  On the empty
    population it panics in [rand.Intn]. *)
Theorem tournamentSelection_spec (population : list Route) (tournamentSize : Z)
    (st : State) :
  (population = [] →
   tournamentSelection population tournamentSize st
   = (Panic InvalidIntnArgument, st)) ∧
  (population ≠ [] →
   ∃ winner,
     tournamentSelection population tournamentSize st
     = (Ok winner, advance (Z.to_nat (Z.max 1 tournamentSize)) st) ∧
     winner ∈ population ∧
     ∀ i c, (i < Z.to_nat (Z.max 1 tournamentSize))%nat →
            drawnRoute population st i = Some c →
            PrimFloat.ltb (distance c) (distance winner) = false).
Proof.
  split.
  - intros ->. unfold tournamentSelection.
    by erewrite bind_Panic by apply pick_empty.
  - apply tournamentSelection_draws.
Qed.

Lemma tournamentSelection_spec_witness :
  ∃ winner,
    tournamentSelection [mkRoute 0 5; mkRoute 1 3; mkRoute 2 4] 3
      (Examples.stateOf [] [0%N; 1%N; 2%N] 1)
    = (Ok winner, advance (Z.to_nat (Z.max 1 3))
                    (Examples.stateOf [] [0%N; 1%N; 2%N] 1)) ∧
    winner ∈ [mkRoute 0 5; mkRoute 1 3; mkRoute 2 4] ∧
    ∀ i c, (i < Z.to_nat (Z.max 1 3))%nat →
           drawnRoute [mkRoute 0 5; mkRoute 1 3; mkRoute 2 4]
             (Examples.stateOf [] [0%N; 1%N; 2%N] 1) i = Some c →
           PrimFloat.ltb (distance c) (distance winner) = false.
Proof.
  apply (proj2 (tournamentSelection_spec [mkRoute 0 5; mkRoute 1 3; mkRoute 2 4] 3
                  (Examples.stateOf [] [0%N; 1%N; 2%N] 1))).
  done.
Defined.

(** ** The invariant of a run *)

Lemma allocated_lookup st r :
  allocated st r → heap st !! path r = Some (contentsAt st (path r)).
Proof.
  unfold allocated, contentsAt. intros Hlt.
  destruct (heap st !! path r) eqn:Hl; [done|].
  apply lookup_ge_None in Hl. lia.
Qed.

Lemma allocated_valid N cap st r :
  Inv N cap st → allocated st r → validTour N (contentsAt st (path r)).
Proof.
  intros (Hheap & _) Halloc. rewrite Forall_forall in Hheap. apply Hheap.
  eapply list_elem_of_lookup_2. by apply allocated_lookup.
Qed.

Lemma allocated_mono st st' r :
  (length (heap st) ≤ length (heap st'))%nat → allocated st r → allocated st' r.
Proof. unfold allocated. lia. Qed.

Lemma keeps_refl n st : keeps n st st.
Proof. by repeat split. Qed.

Lemma keeps_trans n st1 st2 st3 :
  keeps n st1 st2 → keeps n st2 st3 → keeps n st1 st3.
Proof.
  intros (H1 & L1 & T1 & O1) (H2 & L2 & T2 & O2). repeat split.
  - intros l Hl. by rewrite H2, H1.
  - lia.
  - congruence.
  - congruence.
Qed.

Lemma keeps_le n m st st' : (n ≤ m)%nat → keeps m st st' → keeps n st st'.
Proof.
  intros Hnm (H1 & L1 & T1 & O1). repeat split; try done.
  intros l Hl. apply H1. lia.
Qed.

Lemma cacheGet_spec key st :
  ∃ r st',
    cacheGet key st = (Ok r, st') ∧
    heap st' = heap st ∧ tape st' = tape st ∧ cursor st' = cursor st ∧
    stdout st' = stdout st ∧ lru st' = (LRU.Get key (lru st)).2 ∧
    r = (LRU.Get key (lru st)).1.
Proof.
  unfold cacheGet. destruct (LRU.Get key (lru st)) as [r lc].
  by eexists _, _.
Qed.

Lemma Get_Inv N cap key st st' :
  Inv N cap st → heap st' = heap st → lru st' = (LRU.Get key (lru st)).2 →
  Inv N cap st' ∧ LRU.contents (lru st') ≡ₚ LRU.contents (lru st).
Proof.
  intros (Hheap & Hwf & Hcap) Hh Hl.
  destruct (LRUFacts.Get_refines (lru st) key Hwf) as (Hwf' & Hcap' & Hc & _).
  split.
  - unfold Inv. rewrite Hh, Hl. split; [done|]. split; [done|]. congruence.
  - rewrite Hl, Hc. unfold LRUSpec.get.
    destruct (LRUSpec.assoc key (LRU.contents (lru st))) as [v|] eqn:Ha;
      cbn [snd]; [|done].
    apply LRUExtras.touch_perm; [|done].
    rewrite <- LRUTheorems.keys_contents. by apply LRUFacts.wf_nodup_keys.
Qed.

(** ** The operators, on valid tours *)

Lemma crossover_ok N cap st p1 p2 :
  2 ≤ N → Inv N cap st → allocated st p1 → allocated st p2 →
  ∃ q1 q2 st',
    crossover p1 p2 st
    = (Ok (mkRoute (length (heap st)) 0, mkRoute (S (length (heap st))) 0), st') ∧
    heap st' = heap st ++ [q1; q2] ∧ validTour N q1 ∧ validTour N q2 ∧
    tape st' = tape st ∧ lru st' = lru st ∧ stdout st' = stdout st.
Proof.
  intros HN HInv H1 H2.
  pose proof (allocated_valid N cap st p1 HInv H1) as Hv1.
  pose proof (allocated_valid N cap st p2 HInv H2) as Hv2.
  assert (Hnd : NoDup (contentsAt st (path p1))).
  { by eapply OperatorTheorems.validTour_NoDup. }
  assert (Hperm : contentsAt st (path p1) ≡ₚ contentsAt st (path p2)).
  { unfold validTour in *. by rewrite Hv1, Hv2. }
  destruct (crossover_spec p1 p2 st) as (res & st' & Hc & Ht & Hl & Ho & Hres).
  destruct res as [[c1 c2]|e].
  - destruct Hres as (q1 & q2 & Hh & -> & -> & Hq).
    destruct (Hq Hnd Hperm) as [Hq1 Hq2].
    exists q1, q2, st'. split_and!; try done.
    + unfold validTour in *. by rewrite Hq1.
    + unfold validTour in *. by rewrite Hq2.
  - destruct Hres as [_ Hempty]. exfalso.
    by apply (OperatorTheorems.validTour_nonempty N _ HN Hv1), Hempty.
Qed.

Lemma mutate_ok N cap st r rate :
  2 ≤ N → Inv N cap st → allocated st r →
  ∃ st',
    mutate r rate st = (Ok r, st') ∧ Inv N cap st' ∧
    length (heap st') = length (heap st) ∧
    (∀ l, l ≠ path r → heap st' !! l = heap st !! l) ∧
    tape st' = tape st ∧ lru st' = lru st ∧ stdout st' = stdout st.
Proof.
  intros HN HInv Hr.
  pose proof (allocated_valid N cap st r HInv Hr) as Hv.
  destruct (mutate_spec r rate st) as (res & st' & Hm & Hre & Hres).
  destruct Hres as [->|[_ Hempty]].
  2:{ exfalso. by apply (OperatorTheorems.validTour_nonempty N _ HN Hv). }
  pose proof (λ l', rearranged_other _ _ _ l' Hre) as Hother.
  destruct Hre as (Ht & Hl & Ho & p' & Hp' & Hh).
  exists st'. destruct HInv as (Hheap & Hwf & Hcap).
  split_and!; try done.
  - unfold Inv. rewrite Hl. split_and!; try done.
    rewrite Hh. apply Forall_insert; [done|].
    unfold validTour in *. by rewrite Hp'.
  - by rewrite Hh, length_insert.
Qed.

Lemma known_ok N cap st r :
  Inv N cap st →
  ∃ found st',
    known r st = (Ok found, st') ∧ Inv N cap st' ∧ heap st' = heap st ∧
    tape st' = tape st ∧ stdout st' = stdout st ∧
    LRU.contents (lru st') ≡ₚ LRU.contents (lru st).
Proof.
  intros HInv.
  destruct (cacheGet_spec (getKey (contentsAt st (path r))) st)
    as ([v found] & st' & Hget & Hh & Ht & _ & Ho & Hl & _).
  destruct (Get_Inv N cap _ st st' HInv Hh Hl) as [HInv' Hperm].
  exists found, st'. split_and!; try done.
  unfold known. erewrite bind_Ok by reflexivity.
  fold (contentsAt st (path r)). by erewrite bind_Ok by exact Hget.
Qed.

Lemma cachedMutateLoop_ok N cap r orig n : ∀ rate st,
  2 ≤ N → Inv N cap st → allocated st r →
  ∃ st',
    cachedMutateLoop n r rate orig st = (Ok r, st') ∧ Inv N cap st' ∧
    length (heap st') = length (heap st) ∧
    (∀ l, l ≠ path r → heap st' !! l = heap st !! l) ∧
    tape st' = tape st ∧ stdout st' = stdout st ∧
    LRU.contents (lru st') ≡ₚ LRU.contents (lru st).
Proof.
  induction n as [|n IH]; intros rate st HN HInv Hr.
  - destruct (mutate_ok N cap st r orig HN HInv Hr)
      as (st' & Hm & HInv' & Hlen & Hother & Ht & Hl & Ho).
    exists st'. split_and!; try done. by rewrite Hl.
  - destruct (mutate_ok N cap st r rate HN HInv Hr)
      as (st1 & Hm & HInv1 & Hlen1 & Hother1 & Ht1 & Hl1 & Ho1).
    destruct (known_ok N cap st1 r HInv1)
      as (found & st2 & Hk & HInv2 & Hh2 & Ht2 & Ho2 & Hperm2).
    assert (Hr2 : allocated st2 r).
    { unfold allocated in *. rewrite Hh2, Hlen1. done. }
    cbn [cachedMutateLoop]. erewrite bind_Ok by exact Hm.
    erewrite bind_Ok by exact Hk.
    destruct found; cbn [negb].
    + destruct (IH (rate * 1.5)%float st2 HN HInv2 Hr2)
        as (st' & Hloop & HInv' & Hlen & Hother & Ht & Ho & Hperm).
      exists st'. split_and!; try done; try congruence.
      * intros l Hne. by rewrite Hother, Hh2, Hother1.
      * by rewrite Hperm, Hperm2, Hl1.
    + exists st2. split_and!; try done; try congruence.
      intros l Hne. by rewrite Hh2, Hother1.
Qed.

Lemma cachedCrossoverLoop_ok N cap p1 p2 n : ∀ st,
  2 ≤ N → Inv N cap st → allocated st p1 → allocated st p2 →
  ∃ c1 c2 st',
    cachedCrossoverLoop n p1 p2 st = (Ok (c1, c2), st') ∧ Inv N cap st' ∧
    keeps (length (heap st)) st st' ∧
    (length (heap st) ≤ path c1 < length (heap st'))%nat ∧
    (length (heap st) ≤ path c2 < length (heap st'))%nat ∧
    path c1 ≠ path c2 ∧
    LRU.contents (lru st') ≡ₚ LRU.contents (lru st).
Proof.
  assert (Hbase : ∀ st,
    2 ≤ N → Inv N cap st → allocated st p1 → allocated st p2 →
    ∃ c1 c2 st',
      crossover p1 p2 st = (Ok (c1, c2), st') ∧ Inv N cap st' ∧
      keeps (length (heap st)) st st' ∧
      (length (heap st) ≤ path c1 < length (heap st'))%nat ∧
      (length (heap st) ≤ path c2 < length (heap st'))%nat ∧
      path c1 ≠ path c2 ∧ lru st' = lru st).
  { intros st HN HInv H1 H2.
    destruct (crossover_ok N cap st p1 p2 HN HInv H1 H2)
      as (q1 & q2 & st' & Hc & Hh & Hq1 & Hq2 & Ht & Hl & Ho).
    eexists _, _, st'. split; [exact Hc|].
    destruct HInv as (Hheap & Hwf & Hcap). split_and!; try done.
    - unfold Inv. rewrite Hl, Hh. split_and!; try done.
      apply Forall_app. split; [done|]. by repeat constructor.
    - unfold keeps. split_and!; try done.
      + intros l Hl'. rewrite Hh. by rewrite lookup_app_l.
      + rewrite Hh, length_app. lia.
    - simpl. rewrite Hh, length_app. simpl. lia.
    - simpl. lia.
    - simpl. rewrite Hh, length_app. simpl. lia. }
  induction n as [|n IH]; intros st HN HInv H1 H2.
  - destruct (Hbase st HN HInv H1 H2)
      as (c1 & c2 & st' & Hc & HInv' & Hk & Hc1 & Hc2 & Hne & Hl).
    exists c1, c2, st'. split; [exact Hc|].
    split_and!; try done; try lia. by rewrite Hl.
  - destruct (Hbase st HN HInv H1 H2)
      as (c1 & c2 & st1 & Hc & HInv1 & Hk1 & Hc1 & Hc2 & Hne & Hl1).
    destruct (cacheGet_spec (getKey (contentsAt st1 (path c1))) st1)
      as ([v1 e1] & st2 & Hget1 & Hh2 & Ht2 & _ & Ho2 & Hl2 & _).
    destruct (Get_Inv N cap _ st1 st2 HInv1 Hh2 Hl2) as [HInv2 Hperm2].
    destruct (cacheGet_spec (getKey (contentsAt st1 (path c2))) st2)
      as ([v2 e2] & st3 & Hget2 & Hh3 & Ht3 & _ & Ho3 & Hl3 & _).
    destruct (Get_Inv N cap _ st2 st3 HInv2 Hh3 Hl3) as [HInv3 Hperm3].
    assert (Hk2 : keeps (length (heap st)) st st2).
    { destruct Hk1 as (Ha & Hb & Hc' & Hd). unfold keeps. rewrite Hh2.
      split_and!; try done; congruence. }
    assert (Hk3 : keeps (length (heap st)) st st3).
    { destruct Hk2 as (Ha & Hb & Hc' & Hd). unfold keeps. rewrite Hh3.
      split_and!; try done; congruence. }
    assert (Hrec : ∀ stk,
      Inv N cap stk → keeps (length (heap st)) st stk →
      LRU.contents (lru stk) ≡ₚ LRU.contents (lru st) →
      ∃ c1 c2 st',
        cachedCrossoverLoop n p1 p2 stk = (Ok (c1, c2), st') ∧ Inv N cap st' ∧
        keeps (length (heap st)) st st' ∧
        (length (heap st) ≤ path c1 < length (heap st'))%nat ∧
        (length (heap st) ≤ path c2 < length (heap st'))%nat ∧
        path c1 ≠ path c2 ∧
        LRU.contents (lru st') ≡ₚ LRU.contents (lru st)).
    { intros stk HInvk Hkk Hpermk.
      pose proof Hkk as (_ & Hlenk & _ & _).
      destruct (IH stk HN HInvk) as (d1 & d2 & st' & Hloop & HInv' & Hk' & Hd1 & Hd2 & Hned & Hperm').
      { by eapply allocated_mono. }
      { by eapply allocated_mono. }
      exists d1, d2, st'. split_and!; try done; try lia.
      - eapply keeps_trans; [exact Hkk|]. eapply keeps_le; [|exact Hk']. done.
      - by rewrite Hperm'. }
    cbn [cachedCrossoverLoop]. erewrite bind_Ok by exact Hc.
    cbv beta iota. erewrite bind_Ok by reflexivity.
    erewrite bind_Ok by reflexivity.
    fold (contentsAt st1 (path c1)). fold (contentsAt st1 (path c2)).
    erewrite bind_Ok by exact Hget1. cbv beta iota.
    destruct e1; cbn [negb].
    + apply Hrec; [done|done|]. by rewrite Hperm2, Hl1.
    + erewrite bind_Ok by exact Hget2. cbv beta iota.
      destruct e2; cbn [negb].
      * apply Hrec; [done|done|]. by rewrite Hperm3, Hperm2, Hl1.
      * exists c1, c2, st3.
        split_and!; try done; try (rewrite ?Hh3, ?Hh2; lia).
        by rewrite Hperm3, Hperm2, Hl1.
Qed.

(** ** Evaluation *)

Lemma Put_ok lc k v :
  LRU.wf lc → 1 ≤ LRU.capacity lc →
  ∃ lc', LRU.Put k v lc = Ok lc' ∧ LRU.wf lc' ∧
         LRU.capacity lc' = LRU.capacity lc ∧
         ∀ kv, kv ∈ LRU.contents lc' → kv = (k, v) ∨ kv ∈ LRU.contents lc.
Proof.
  intros Hwf Hcap. pose proof (LRUFacts.Put_refines lc k v Hwf) as Hp.
  destruct (LRUSpec.put (LRU.capacity lc) k v (LRU.contents lc)) as [s'|] eqn:Hs.
  - destruct Hp as (lc' & Hput & Hwf' & Hcap' & Hc).
    exists lc'. split_and!; try done. rewrite Hc. clear Hc Hput.
    unfold LRUSpec.put in Hs.
    destruct (LRUSpec.assoc k (LRU.contents lc)).
    + injection Hs as <-. unfold LRUSpec.touch. intros kv Hkv.
      apply elem_of_cons in Hkv as [->|Hkv]; [by left|right].
      by apply list_elem_of_filter in Hkv as [_ ?].
    + case_bool_decide.
      * destruct (LRU.contents lc) as [|p s0] eqn:Hcont; [done|].
        assert (s' = (k, v) :: removelast (p :: s0)) as -> by congruence.
        intros kv Hkv. apply elem_of_cons in Hkv as [->|Hkv]; [by left|right].
        eapply elem_of_sublist; [done|]. apply ListFacts.removelast_sublist.
      * injection Hs as <-. intros kv Hkv.
        apply elem_of_cons in Hkv as [->|Hkv]; [by left|by right].
  - exfalso. unfold LRUSpec.put in Hs.
    destruct (LRUSpec.assoc k (LRU.contents lc)); [done|].
    case_bool_decide as Hfull; [|done].
    destruct (LRU.contents lc); [|done]. simpl in Hfull. lia.
Qed.

Lemma cacheSound_perm N dm lc lc' :
  LRU.contents lc' ≡ₚ LRU.contents lc → cacheSound N dm lc → cacheSound N dm lc'.
Proof. unfold cacheSound. by intros ->. Qed.

Lemma assoc_elem k v (s : list (string * float)) :
  LRUSpec.assoc k s = Some v → (k, v) ∈ s.
Proof.
  induction s as [|[k' v'] s IH]; simpl; [done|].
  destruct (decide (k' = k)) as [->|_].
  - intros [= ->]. by left.
  - intros Ha. right. by apply IH.
Qed.

Lemma evaluateRoute_ok N cap dm st r :
  1 ≤ N → 1 ≤ cap → squareMatrix N dm →
  Inv N cap st → cacheSound N dm (lru st) → allocated st r →
  ∃ d st',
    evaluateRoute dm r st = (Ok (mkRoute (path r) d), st') ∧
    Inv N cap st' ∧ cacheSound N dm (lru st') ∧
    heap st' = heap st ∧ tape st' = tape st ∧ cursor st' = cursor st ∧
    stdout st' = stdout st ∧
    lengthFor N dm (getKey (contentsAt st (path r))) d.
Proof.
  intros HN Hcap Hdm HInv Hsound Hr.
  pose proof (allocated_valid N cap st r HInv Hr) as Hv.
  set (key := getKey (contentsAt st (path r))).
  destruct (cacheGet_spec key st)
    as ([v found] & st1 & Hget & Hh1 & Ht1 & Hc1 & Ho1 & Hl1 & Hres).
  destruct (Get_Inv N cap key st st1 HInv Hh1 Hl1) as [HInv1 Hperm1].
  pose proof (cacheSound_perm N dm _ _ Hperm1 Hsound) as Hsound1.
  unfold evaluateRoute. erewrite bind_Ok by reflexivity.
  fold (contentsAt st (path r)). fold key.
  erewrite bind_Ok by exact Hget. cbv beta iota.
  destruct found.
  - exists v, st1. split_and!; try done.
    destruct HInv as (_ & Hwf & _).
    rewrite (LRUTheorems.Get_result _ key Hwf) in Hres.
    destruct (LRUSpec.assoc key (LRU.contents (lru st))) as [w|] eqn:Ha; [|done].
    injection Hres as ->. apply assoc_elem in Ha.
    unfold cacheSound in Hsound. rewrite Forall_forall in Hsound.
    exact (Hsound _ Ha).
  - destruct (EvolutionTheorems.calculateDistance_Ok N dm _ Hdm HN Hv) as [d Hd].
    rewrite Hd.
    destruct HInv1 as (Hheap1 & Hwf1 & Hcap1).
    destruct (Put_ok (lru st1) key d Hwf1) as (lc' & Hput & Hwf' & Hcap' & Hsub);
      [lia|].
    assert (Hfor : lengthFor N dm key d).
    { exists (contentsAt st (path r)). by split_and!. }
    exists d, (mkState (heap st1) (tape st1) (cursor st1) lc' (stdout st1)).
    split_and!; try done.
    + unfold mbind, M_bind, bind, cachePut. by rewrite Hput.
    + unfold Inv. simpl. split_and!; try done. congruence.
    + unfold cacheSound. simpl. apply Forall_forall. intros kv Hkv.
      destruct (Hsub kv Hkv) as [->|Hold]; [done|].
      unfold cacheSound in Hsound1. rewrite Forall_forall in Hsound1.
      by apply Hsound1.
Qed.

Lemma evaluatePopulation_ok N cap dm population : ∀ st,
  1 ≤ N → 1 ≤ cap → squareMatrix N dm →
  Inv N cap st → cacheSound N dm (lru st) → Forall (allocated st) population →
  ∃ population' st',
    evaluatePopulation population dm st = (Ok population', st') ∧
    Inv N cap st' ∧ cacheSound N dm (lru st') ∧
    heap st' = heap st ∧ tape st' = tape st ∧ cursor st' = cursor st ∧
    stdout st' = stdout st ∧
    Forall2 (λ r r', path r' = path r ∧ scored N dm st' r') population population'.
Proof.
  induction population as [|r rest IH]; intros st HN Hcap Hdm HInv Hsound Hall.
  - exists [], st. by split_and!.
  - apply Forall_cons in Hall as [Hr Hrest].
    destruct (evaluateRoute_ok N cap dm st r HN Hcap Hdm HInv Hsound Hr)
      as (d & st1 & He & HInv1 & Hsound1 & Hh1 & Ht1 & Hc1 & Ho1 & Hd).
    destruct (IH st1 HN Hcap Hdm HInv1 Hsound1)
      as (rest' & st2 & Hrec & HInv2 & Hsound2 & Hh2 & Ht2 & Hc2 & Ho2 & Hall2).
    { eapply Forall_impl; [exact Hrest|]. intros r0. unfold allocated.
      by rewrite Hh1. }
    exists (mkRoute (path r) d :: rest'), st2. split_and!; try congruence.
    + cbn [evaluatePopulation]. erewrite bind_Ok by exact He.
      by erewrite bind_Ok by exact Hrec.
    + constructor; [|done]. split; [done|]. unfold scored. simpl.
      unfold contentsAt. rewrite Hh2, Hh1. exact Hd.
Qed.

(** ** Breeding *)

Lemma Inv_advance N cap k st : Inv N cap st → Inv N cap (advance k st).
Proof. done. Qed.

Lemma keeps_advance n k st : keeps n st (advance k st).
Proof. by split_and!. Qed.

Lemma Forall_allocated_mono st st' (l : list Route) :
  (length (heap st) ≤ length (heap st'))%nat →
  Forall (allocated st) l → Forall (allocated st') l.
Proof.
  intros Hle Hall. eapply Forall_impl; [exact Hall|].
  intros r. by apply allocated_mono.
Qed.

Lemma cachedMutate_ok N cap r rate st :
  2 ≤ N → Inv N cap st → allocated st r →
  ∃ st',
    cachedMutate r rate st = (Ok r, st') ∧ Inv N cap st' ∧
    length (heap st') = length (heap st) ∧
    (∀ l, l ≠ path r → heap st' !! l = heap st !! l) ∧
    tape st' = tape st ∧ stdout st' = stdout st ∧
    LRU.contents (lru st') ≡ₚ LRU.contents (lru st).
Proof. apply cachedMutateLoop_ok. Qed.

Lemma cachedMutate_keeps n r st st' :
  (n ≤ path r)%nat →
  length (heap st') = length (heap st) →
  (∀ l, l ≠ path r → heap st' !! l = heap st !! l) →
  tape st' = tape st → stdout st' = stdout st →
  keeps n st st'.
Proof.
  intros Hn Hlen Hother Ht Ho. unfold keeps. split_and!; try done; [|lia].
  intros l Hl. apply Hother. lia.
Qed.

Lemma breed_ok N cap dm cfg population fuel : ∀ newPopulation st,
  2 ≤ N → population ≠ [] → Inv N cap st → cacheSound N dm (lru st) →
  Forall (allocated st) population → Forall (allocated st) newPopulation →
  ∃ res st',
    breed fuel cfg population newPopulation st = (Ok res, st') ∧
    Inv N cap st' ∧ cacheSound N dm (lru st') ∧
    keeps (length (heap st)) st st' ∧
    Forall (allocated st') res ∧
    newPopulation `prefix_of` res.
Proof.
  induction fuel as [|fuel IH]; intros newPopulation st HN Hne HInv Hsound Hpop Hnew.
  { exists newPopulation, st. split_and!; try done; apply keeps_refl. }
  cbn [breed]. case_bool_decide as Hlt.
  2:{ exists newPopulation, st. split_and!; try done; apply keeps_refl. }
  destruct (tournamentSelection_draws population (tournament cfg) st Hne)
    as (parent1 & Hsel1 & Hin1 & _).
  set (st1 := advance (Z.to_nat (Z.max 1 (tournament cfg))) st) in *.
  destruct (tournamentSelection_draws population (tournament cfg) st1 Hne)
    as (parent2 & Hsel2 & Hin2 & _).
  set (st2 := advance (Z.to_nat (Z.max 1 (tournament cfg))) st1) in *.
  assert (HInv2 : Inv N cap st2) by done.
  rewrite Forall_forall in Hpop.
  assert (Hp1 : allocated st2 parent1) by (by apply (Hpop parent1)).
  assert (Hp2 : allocated st2 parent2) by (by apply (Hpop parent2)).
  destruct (cachedCrossoverLoop_ok N cap parent1 parent2 15 st2 HN HInv2 Hp1 Hp2)
    as (c1 & c2 & st3 & Hx & HInv3 & Hk3 & Hc1 & Hc2 & Hne12 & Hperm3).
  assert (Ha1 : allocated st3 c1) by (unfold allocated; lia).
  destruct (cachedMutate_ok N cap c1 (mutationRate cfg) st3 HN HInv3 Ha1)
    as (st4 & Hm1 & HInv4 & Hlen4 & Hother4 & Ht4 & Ho4 & Hperm4).
  assert (Ha2 : allocated st4 c2) by (unfold allocated; lia).
  destruct (cachedMutate_ok N cap c2 (mutationRate cfg) st4 HN HInv4 Ha2)
    as (st5 & Hm2 & HInv5 & Hlen5 & Hother5 & Ht5 & Ho5 & Hperm5).
  assert (Hk5 : keeps (length (heap st)) st st5).
  { eapply keeps_trans; [exact Hk3|]. eapply keeps_trans.
    - apply (cachedMutate_keeps _ c1 st3 st4); try done. simpl in Hc1. lia.
    - apply (cachedMutate_keeps _ c2 st4 st5); try done. simpl in Hc2. lia. }
  pose proof Hk5 as (_ & Hlen05 & _ & _).
  assert (Hsound5 : cacheSound N dm (lru st5)).
  { eapply cacheSound_perm; [|exact Hsound].
    by rewrite Hperm5, Hperm4, Hperm3. }
  destruct (IH (newPopulation ++ [c1; c2]) st5 HN Hne HInv5 Hsound5)
    as (res & st' & Hrec & HInv' & Hsound' & Hk' & Hres & Hpre).
  { apply Forall_forall. intros r Hr. eapply allocated_mono; [exact Hlen05|].
    by apply Hpop. }
  { apply Forall_app. split.
    - by eapply Forall_allocated_mono.
    - repeat constructor; unfold allocated; lia. }
  exists res, st'. split_and!; try done.
  - erewrite bind_Ok by exact Hsel1. erewrite bind_Ok by exact Hsel2.
    unfold cachedCrossover. erewrite bind_Ok by exact Hx. cbv beta iota.
    erewrite bind_Ok by exact Hm1. erewrite bind_Ok by exact Hm2. exact Hrec.
  - eapply keeps_trans; [exact Hk5|]. eapply keeps_le; [|exact Hk']. done.
  - etrans; [|exact Hpre]. by apply prefix_app_r.
Qed.

(** ** The evolution loop *)

Lemma scored_tourLength N dm st r : scored N dm st r → tourLength N dm (distance r).
Proof. intros (p & Hv & _ & Hd). by exists p. Qed.

Lemma updateBest_tourLength N dm best r :
  tourLength N dm (distance best) → tourLength N dm (distance r) →
  tourLength N dm (distance (updateBest best r)).
Proof. intros Hb Hr. unfold updateBest. by destruct (PrimFloat.ltb _ _). Qed.

Lemma Forall2_paths (P : Route → Prop) (l l' : list Route) :
  Forall2 (λ r r', path r' = path r ∧ P r') l l' →
  path <$> l' = path <$> l ∧ Forall P l'.
Proof.
  induction 1 as [|r r' l l' [Hp HP] _ [IH1 IH2]]; [done|].
  split; [|by constructor]. by rewrite !fmap_cons, Hp, IH1.
Qed.

Section Run.

Variable sortSlice : list Route → list Route.
Hypothesis sort_perm : ∀ l, sortSlice l ≡ₚ l.

Lemma generation_ok N cap dm cfg gen population best st :
  2 ≤ N → 1 ≤ cap → squareMatrix N dm →
  1 ≤ popSize cfg → eliteSize cfg ≤ popSize cfg →
  loopInv N cap (popSize cfg) dm (population, best) st →
  ∃ first population' st',
    head (sortSlice population) = Some first ∧
    generation sortSlice cfg dm gen (population, best) st
    = (Ok (population', updateBest best first), st') ∧
    loopInv N cap (popSize cfg) dm (population', updateBest best first) st' ∧
    Forall (scored N dm st') population' ∧
    (∀ l, (l < length (heap st))%nat → heap st' !! l = heap st !! l) ∧
    path <$> take (Z.to_nat (eliteSize cfg)) population'
    = path <$> take (Z.to_nat (eliteSize cfg)) (sortSlice population) ∧
    stdout st'
    = stdout st ++
      (if bool_decide (gen `rem` 50 = 0 ∨ gen = generations cfg - 1)
       then [PrintGen gen (distance (updateBest best first))] else []).
Proof.
  intros HN Hcap Hdm Hpop Helite (HInv & Hsound & Halloc & Hlen & Hdist & Hbest).
  simpl in Halloc, Hlen, Hdist, Hbest.
  pose proof (sort_perm population) as Hperm.
  assert (Hlen' : Z.of_nat (length (sortSlice population)) = popSize cfg).
  { by rewrite Hperm. }
  assert (Halloc' : Forall (allocated st) (sortSlice population)) by (by rewrite Hperm).
  assert (Hdist' : Forall (λ r, tourLength N dm (distance r)) (sortSlice population))
    by (by rewrite Hperm).
  destruct (sortSlice population) as [|first sorted'] eqn:Hsorted;
    [simpl in Hlen'; lia|].
  set (sorted := first :: sorted') in *.
  set (elite := if bool_decide (eliteSize cfg > 0)
                then take (Z.to_nat (eliteSize cfg)) sorted else []).
  assert (Helite_alloc : Forall (allocated st) elite).
  { subst elite. case_bool_decide; [by apply Forall_take | constructor]. }
  destruct (breed_ok N cap dm cfg sorted (Z.to_nat (popSize cfg)) elite st)
    as (res & st1 & Hbreed & HInv1 & Hsound1 & Hk1 & Hres & Hpre); try done.
  assert (Hfill : popSize cfg ≤ Z.of_nat (length res)).
  { eapply EvolutionTheorems.breed_fills; [exact Hbreed|]. lia. }
  destruct (evaluatePopulation_ok N cap dm (take (Z.to_nat (popSize cfg)) res) st1)
    as (pop' & st2 & Heval & HInv2 & Hsound2 & Hh2 & Ht2 & Hc2 & Ho2 & Hall2);
    try done; [lia | by apply Forall_take |].
  apply Forall2_paths in Hall2 as [Hpaths Hscored].
  assert (Hlen2 : Z.of_nat (length pop') = popSize cfg).
  { rewrite <- (length_fmap path), Hpaths, length_fmap, length_take. lia. }
  assert (Halloc2 : Forall (allocated st2) pop').
  { apply Forall_forall. intros r Hr.
    apply (list_elem_of_fmap_2 path) in Hr. rewrite Hpaths in Hr.
    apply list_elem_of_fmap in Hr as (r0 & Heq & Hr0).
    unfold allocated. rewrite Heq, Hh2.
    assert (Hr0' : r0 ∈ res) by (eapply elem_of_sublist; [done|apply sublist_take]).
    rewrite Forall_forall in Hres. by apply Hres. }
  destruct Hk1 as (Hframe1 & Hlen1 & Ht1 & Ho1).
  set (pr := if bool_decide (gen `rem` 50 = 0 ∨ gen = generations cfg - 1)
             then print (PrintGen gen (distance (updateBest best first)))
             else mret tt).
  assert (Hpr : ∃ st3, pr st2 = (Ok tt, st3) ∧ heap st3 = heap st2 ∧
                       lru st3 = lru st2 ∧
                       stdout st3
                       = stdout st2 ++
                         (if bool_decide (gen `rem` 50 = 0 ∨
                                          gen = generations cfg - 1)
                          then [PrintGen gen (distance (updateBest best first))]
                          else [])).
  { subst pr. case_bool_decide.
    - eexists. split; [reflexivity|]. by simpl.
    - exists st2. split_and!; try done. by rewrite app_nil_r. }
  destruct Hpr as (st3 & Hpr & Hh3 & Hl3 & Ho3).
  exists first, pop', st3. split; [done|]. split_and!.
  - assert (Hel : (if bool_decide (eliteSize cfg > 0)
                   then if bool_decide (eliteSize cfg ≤ Z.of_nat (length sorted))
                        then mret (take (Z.to_nat (eliteSize cfg)) sorted)
                        else raise IndexOutOfRange
                   else mret []) st = (Ok elite, st)).
    { subst elite. destruct (decide (eliteSize cfg > 0)) as [Hpos|Hneg].
      - rewrite (bool_decide_eq_true_2 (eliteSize cfg > 0)) by done.
        by rewrite bool_decide_eq_true_2 by lia.
      - by rewrite (bool_decide_eq_false_2 (eliteSize cfg > 0)) by done. }
    unfold generation. rewrite Hsorted. subst sorted. cbv iota.
    erewrite bind_Ok by exact Hel. erewrite bind_Ok by exact Hbreed.
    cbv zeta. erewrite bind_Ok by exact Heval.
    fold pr. by erewrite bind_Ok by exact Hpr.
  - unfold loopInv. simpl. split_and!; try done.
    + unfold Inv. rewrite Hh3, Hl3. exact HInv2.
    + by rewrite Hl3.
    + unfold allocated. rewrite Hh3. exact Halloc2.
    + eapply Forall_impl; [exact Hscored|]. intros r. apply scored_tourLength.
    + apply updateBest_tourLength; [done|]. by apply Forall_cons in Hdist' as [? _].
  - eapply Forall_impl; [exact Hscored|]. intros r. unfold scored, contentsAt.
    by rewrite Hh3.
  - intros l Hl. rewrite Hh3, Hh2. by apply Hframe1.
  - rewrite !fmap_take, Hpaths, <- !fmap_take. f_equal.
    destruct (decide (eliteSize cfg > 0)) as [Hpos|Hneg].
    + subst elite. rewrite bool_decide_eq_true_2 in Hpre by done.
      destruct Hpre as [k ->].
      rewrite take_take, Nat.min_l by lia.
      rewrite take_app_le by (rewrite length_take; lia).
      by rewrite take_take, Nat.min_id.
    + replace (Z.to_nat (eliteSize cfg)) with 0%nat by lia. by rewrite !take_0.
  - rewrite <- Ho1, <- Ho2. exact Ho3.
Qed.

Lemma seqZ_S_cons (m : Z) (n : nat) :
  seqZ m (Z.of_nat (S n)) = m :: seqZ (m + 1) (Z.of_nat n).
Proof.
  rewrite seqZ_cons by lia. f_equal. f_equal; lia.
Qed.

Lemma evolve_ok N cap dm cfg n : ∀ gen s st,
  2 ≤ N → 1 ≤ cap → squareMatrix N dm →
  1 ≤ popSize cfg → eliteSize cfg ≤ popSize cfg →
  loopInv N cap (popSize cfg) dm s st →
  ∃ s' st' lines,
    evolve sortSlice n cfg dm gen s st = (Ok s', st') ∧
    loopInv N cap (popSize cfg) dm s' st' ∧
    stdout st' = stdout st ++ lines ∧
    Forall2 (λ g o, ∃ b, o = PrintGen g b ∧ tourLength N dm b)
      (filter (λ g, g `rem` 50 = 0 ∨ g = generations cfg - 1)
              (seqZ gen (Z.of_nat n)))
      lines.
Proof.
  induction n as [|n IH]; intros gen [population best] st HN Hcap Hdm Hpop Hel HI.
  - exists (population, best), st, []. split_and!; try done.
    by rewrite app_nil_r.
  - destruct (generation_ok N cap dm cfg gen population best st)
      as (first & pop' & st1 & _ & Hgen & HI1 & _ & _ & _ & Ho1); try done.
    destruct (IH (gen + 1) (pop', updateBest best first) st1)
      as (s' & st' & lines & Hev & HI' & Ho' & Hlines); try done.
    pose proof HI1 as (_ & _ & _ & _ & _ & Hbest1). simpl in Hbest1.
    rewrite seqZ_S_cons, filter_cons.
    destruct (decide (gen `rem` 50 = 0 ∨ gen = generations cfg - 1)) as [Hp|Hp].
    + rewrite bool_decide_eq_true_2 in Ho1 by done.
      exists s', st', (PrintGen gen (distance (updateBest best first)) :: lines).
      split_and!; try done.
      * cbn [evolve]. by erewrite bind_Ok by exact Hgen.
      * by rewrite Ho', Ho1, <- app_assoc.
      * constructor; [by eexists|done].
    + rewrite bool_decide_eq_false_2, app_nil_r in Ho1 by done.
      exists s', st', lines. split_and!; try done.
      * cbn [evolve]. by erewrite bind_Ok by exact Hgen.
      * by rewrite Ho', Ho1.
Qed.

End Run.

(** ** The first population *)

Lemma initial_path (n : nat) : ∀ k : nat,
  (k ≤ n)%nat →
  foldl (λ p i, <[Z.to_nat (i - 1) := i]> p) (replicate n 0) (seqZ 1 (Z.of_nat k))
  = seqZ 1 (Z.of_nat k) ++ replicate (n - k) 0.
Proof.
  induction k as [|k IH]; intros Hk.
  - simpl. by rewrite Nat.sub_0_r.
  - rewrite seqZ_S, foldl_app, IH by lia. simpl.
    rewrite insert_app_r_alt by (rewrite length_seqZ; lia).
    rewrite length_seqZ.
    replace (Z.to_nat (1 + Z.of_nat k - 1) - Z.to_nat (Z.of_nat k))%nat
      with 0%nat by lia.
    replace (n - k)%nat with (S (n - S k)) by lia. simpl.
    by rewrite <- app_assoc.
Qed.

Lemma shuffleFrom_rearranged l : ∀ i st,
  (i ≤ length (contentsAt st l) - 1)%nat →
  ∃ st', shuffleFrom i l st = (Ok tt, st') ∧ rearranged l st st'.
Proof.
  induction i as [|i IH]; intros st Hi.
  - exists st. split; [done | apply rearranged_refl].
  - destruct (Intn_rearranged l (Z.of_nat (S i) + 1) st) as (j & st1 & Hj & Hrange & Hre1 & Hh1);
      [lia|].
    pose proof (contentsAt_heap st st1 l Hh1) as Hc1.
    destruct (swapCities_rearranged l (Z.of_nat (S i)) j st1) as (st2 & Hsw & Hre2 & _);
      [rewrite Hc1; lia..|].
    pose proof (rearranged_contents _ _ _ Hre2) as Hc2.
    destruct (IH st2) as (st' & Hrec & Hre').
    { rewrite Hc2, Hc1. lia. }
    exists st'. split.
    + cbn [shuffleFrom]. erewrite bind_Ok by exact Hj.
      by erewrite bind_Ok by exact Hsw.
    + exact (rearranged_trans _ _ _ _ (rearranged_trans _ _ _ _ Hre1 Hre2) Hre').
Qed.

Lemma randomRoute_ok N st :
  1 ≤ N → N - 1 ≤ maxInts →
  ∃ p st',
    randomRoute N st = (Ok (mkRoute (length (heap st)) 0), st') ∧
    heap st' = heap st ++ [p] ∧ validTour N p ∧
    tape st' = tape st ∧ lru st' = lru st ∧ stdout st' = stdout st.
Proof.
  intros HN Hmax. unfold randomRoute. rewrite bool_decide_eq_false_2 by lia.
  set (n := Z.to_nat (N - 1)).
  replace (N - 1) with (Z.of_nat n) by lia.
  rewrite initial_path by done. rewrite Nat.sub_diag, app_nil_r.
  set (st1 := mkState (heap st ++ [seqZ 1 (Z.of_nat n)]) (tape st) (cursor st)
                      (lru st) (stdout st)).
  assert (Hc1 : contentsAt st1 (length (heap st)) = seqZ 1 (Z.of_nat n)).
  { unfold contentsAt. simpl. by rewrite list_lookup_middle. }
  destruct (shuffleFrom_rearranged (length (heap st)) (n - 1) st1)
    as (st' & Hsh & Hre).
  { rewrite Hc1, length_seqZ. lia. }
  pose proof (rearranged_contents _ _ _ Hre) as Hperm.
  destruct Hre as (Ht & Hl & Ho & p' & Hp' & Hh).
  exists p', st'. split_and!; try done.
  - erewrite bind_Ok by reflexivity. fold st1.
    by erewrite bind_Ok by exact Hsh.
  - rewrite Hh. simpl. rewrite insert_app_r_alt by done.
    by rewrite Nat.sub_diag.
  - unfold validTour. rewrite Hp', Hc1.
    by replace (N - 1) with (Z.of_nat n) by lia.
Qed.

Lemma fillPopulation_ok N n : ∀ st,
  1 ≤ N → N - 1 ≤ maxInts →
  ∃ routes ps st',
    fillPopulation n N st = (Ok routes, st') ∧
    heap st' = heap st ++ ps ∧ Forall (validTour N) ps ∧
    routes = (λ l, mkRoute l 0) <$> seq (length (heap st)) n ∧
    length ps = n ∧
    tape st' = tape st ∧ lru st' = lru st ∧ stdout st' = stdout st.
Proof.
  induction n as [|n IH]; intros st HN Hmax.
  - exists [], [], st. split_and!; try done. by rewrite app_nil_r.
  - destruct (randomRoute_ok N st HN Hmax)
      as (p & st1 & Hr & Hh1 & Hp & Ht1 & Hl1 & Ho1).
    destruct (IH st1 HN Hmax)
      as (routes & ps & st' & Hf & Hh & Hps & Hroutes & Hlen & Ht & Hl & Ho).
    exists (mkRoute (length (heap st)) 0 :: routes), (p :: ps), st'.
    split_and!; try congruence.
    + cbn [fillPopulation]. erewrite bind_Ok by exact Hr.
      by erewrite bind_Ok by exact Hf.
    + rewrite Hh, Hh1. by rewrite <- app_assoc.
    + by constructor.
    + rewrite Hroutes, Hh1, length_app. simpl.
      by replace (length (heap st) + 1)%nat with (S (length (heap st))) by lia.
    + simpl. by rewrite Hlen.
Qed.

Lemma initializePopulation_ok N popSize st :
  1 ≤ N → N - 1 ≤ maxInts → 0 ≤ popSize ≤ maxRoutes →
  ∃ routes ps st',
    initializePopulation popSize N st = (Ok routes, st') ∧
    heap st' = heap st ++ ps ∧ Forall (validTour N) ps ∧
    routes = (λ l, mkRoute l 0) <$> seq (length (heap st)) (Z.to_nat popSize) ∧
    length ps = Z.to_nat popSize ∧
    tape st' = tape st ∧ lru st' = lru st ∧ stdout st' = stdout st.
Proof.
  intros HN Hmax Hpop. unfold initializePopulation.
  rewrite bool_decide_eq_false_2 by lia. by apply fillPopulation_ok.
Qed.

Lemma routes_allocated (n0 n : nat) st :
  (n0 + n ≤ length (heap st))%nat →
  Forall (allocated st) ((λ l, mkRoute l 0) <$> seq n0 n).
Proof.
  intros Hle. apply Forall_fmap, Forall_forall. intros l Hl.
  apply elem_of_seq in Hl. unfold allocated. simpl. lia.
Qed.

Lemma maxRows_maxInts (N : Z) : N ≤ maxRows → N - 1 ≤ maxInts.
Proof.
  intros HN. assert (Hle : maxRows ≤ maxInts) by (by vm_compute). lia.
Qed.

(** The state in which [main] builds the first population: the state it
    starts in, with the new cache. *)
Lemma setup_ok cfg points st :
  points ≠ [] → Z.of_nat (length points) ≤ maxRows →
  1 ≤ popSize cfg ≤ maxRoutes → 1 ≤ cacheSize cfg → heap st = [] →
  ∃ population best st',
    setup cfg points st
    = (Ok (createDistanceMatrix points, (population, best)), st') ∧
    loopInv (Z.of_nat (length points)) (cacheSize cfg) (popSize cfg)
      (createDistanceMatrix points) (population, best) st' ∧
    stdout st' = stdout st.
Proof.
  intros Hpts Hrows Hpop Hcache Hheap.
  set (N := Z.of_nat (length points)) in *. set (dm := createDistanceMatrix points).
  assert (HN : 1 ≤ N) by (subst N; destruct points; [done | simpl; lia]).
  set (st0 := mkState (heap st) (tape st) (cursor st)
                      (LRU.NewLRUCache (cacheSize cfg)) (stdout st)).
  destruct (initializePopulation_ok N (popSize cfg) st0 HN)
    as (routes & ps & st1 & Hinit & Hh1 & Hps & Hroutes & Hlen & Ht1 & Hl1 & Ho1);
    [by apply maxRows_maxInts | lia |].
  simpl in Hh1, Hroutes. rewrite Hheap in Hh1, Hroutes. simpl in Hh1, Hroutes.
  assert (HInv1 : Inv N (cacheSize cfg) st1).
  { unfold Inv. rewrite Hh1, Hl1. split_and!; try done. apply LRUFacts.wf_new. }
  assert (Hsound1 : cacheSound N dm (lru st1)).
  { unfold cacheSound. rewrite Hl1. constructor. }
  assert (Halloc1 : Forall (allocated st1) routes).
  { rewrite Hroutes. apply routes_allocated. rewrite Hh1. lia. }
  destruct (evaluatePopulation_ok N (cacheSize cfg) dm routes st1)
    as (pop' & st2 & Heval & HInv2 & Hsound2 & Hh2 & Ht2 & Hc2 & Ho2 & Hall2);
    try done; [apply TourExtras.createDistanceMatrix_square|].
  apply Forall2_paths in Hall2 as [Hpaths Hscored].
  assert (Hlen2 : Z.of_nat (length pop') = popSize cfg).
  { rewrite <- (length_fmap path), Hpaths, length_fmap, Hroutes, length_fmap,
      length_seq. lia. }
  destruct pop' as [|best pop''] eqn:Hpop'; [simpl in Hlen2; lia|].
  rewrite <- Hpop' in *.
  exists pop', best, st2. split_and!.
  - unfold setup. fold N. rewrite bool_decide_eq_false_2 by lia.
    erewrite bind_Ok by reflexivity. fold dm.
    erewrite bind_Ok by reflexivity. fold st0.
    erewrite bind_Ok by exact Hinit. erewrite bind_Ok by exact Heval.
    by rewrite Hpop'.
  - unfold loopInv. simpl. split_and!; try done.
    + apply Forall_forall. intros r Hr.
      apply (list_elem_of_fmap_2 path) in Hr. rewrite Hpaths in Hr.
      apply list_elem_of_fmap in Hr as (r0 & Heq & Hr0).
      unfold allocated. rewrite Heq, Hh2.
      rewrite Forall_forall in Halloc1. by apply Halloc1.
    + eapply Forall_impl; [exact Hscored|]. intros r. apply scored_tourLength.
    + rewrite Hpop' in Hscored. apply Forall_cons in Hscored as [Hb _].
      by eapply scored_tourLength.
  - by rewrite Ho2, Ho1.
Qed.

End RunExtras.

(** * The order crossover *)

Module CrossoverExtras.
Import Tour Prog ProgFacts.

Lemma child_shape size a b (pA pB : list Z) used :
  length pA = size → NoDup pA → pA ≡ₚ pB → (a ≤ b < size)%nat →
  (∀ c, isUsed used c = true ↔ c ∈ take (S b - a) (drop a pA)) →
  length (filter (λ c, c ∉ take (S b - a) (drop a pA)) pB)
  = (a + (size - S b))%nat ∧
  fillChild size b
    (replicate a 0 ++ take (S b - a) (drop a pA) ++ replicate (size - S b) 0)
    pB used
  = drop (size - S b) (filter (λ c, c ∉ take (S b - a) (drop a pA)) pB)
    ++ take (S b - a) (drop a pA)
    ++ take (size - S b) (filter (λ c, c ∉ take (S b - a) (drop a pA)) pB).
Proof.
  intros Hlen Hnd Hperm Hab Hused.
  set (seg := take (S b - a) (drop a pA)) in *.
  set (rest := filter (λ c, c ∉ seg) pB).
  assert (Hrest : filter (λ c, isUsed used c = false) pB = rest).
  { apply list_filter_iff. intros c. rewrite <- Hused.
    by destruct (isUsed used c). }
  assert (Hsub : seg `sublist_of` pA).
  { unfold seg. etrans; [apply sublist_take|apply sublist_drop]. }
  assert (Hseglen : length seg = (S b - a)%nat).
  { unfold seg. rewrite length_take, length_drop. lia. }
  assert (HndB : NoDup pB) by (by rewrite <- Hperm).
  assert (Hin : filter (λ c : Z, ¬ (c ∉ seg)) pB ≡ₚ seg).
  { apply NoDup_Permutation.
    - by apply NoDup_filter.
    - exact (sublist_NoDup _ _ Hnd Hsub).
    - intros c. rewrite list_elem_of_filter.
      split; [intros [Hc _]; by destruct (decide (c ∈ seg))|].
      intros Hc. split; [tauto|].
      rewrite <- Hperm. exact (elem_of_sublist _ _ _ Hc Hsub). }
  assert (Hall : rest ++ seg ≡ₚ pB).
  { rewrite <- Hin. apply filter_app_complement. }
  assert (Hrestlen : length rest = (a + (size - S b))%nat).
  { apply Permutation_length in Hall. apply Permutation_length in Hperm.
    rewrite length_app in Hall. lia. }
  split; [done|].
  unfold fillChild. rewrite fillLoop_filter, Hrest.
  by rewrite (fillLoop_around size a b);
    [|by rewrite length_replicate|done|done|by rewrite length_replicate|done].
Qed.

Lemma child_segments a b size (seg rest child : list Z) :
  (a ≤ b < size)%nat → length seg = (S b - a)%nat →
  length rest = (a + (size - S b))%nat →
  child = drop (size - S b) rest ++ seg ++ take (size - S b) rest →
  take (S b - a) (drop a child) = seg ∧
  drop (S b) child ++ take a child = rest.
Proof.
  intros Hab Hseg Hrest ->.
  assert (Hx : length (drop (size - S b) rest) = a) by (rewrite length_drop; lia).
  split.
  - rewrite drop_app_length' by done. by rewrite take_app_length' by done.
  - rewrite app_assoc.
    rewrite drop_app_length' by (rewrite length_app; lia).
    rewrite <- app_assoc. rewrite take_app_length' by done.
    apply take_drop.
Qed.

(** X19. [crossover] is an order crossover.  For cut points [a <= b] and
    parents that hold the same cities without repetition, each child has
    the segment [a..b] of its own parent at the same positions, and its
    other positions, read cyclically from [b+1], hold the cities of the
    other parent that are not in that segment, in the order in which the
    other parent lists them. *)
Theorem crossoverPaths_order (a b : nat) (parent1 parent2 : list Z) :
  (a ≤ b < length parent1)%nat → NoDup parent1 → parent1 ≡ₚ parent2 →
  ∃ child1 child2,
    crossoverPaths a b parent1 parent2 = Ok (child1, child2) ∧
    take (S b - a) (drop a child1) = take (S b - a) (drop a parent1) ∧
    drop (S b) child1 ++ take a child1
    = filter (λ c, c ∉ take (S b - a) (drop a parent1)) parent2 ∧
    take (S b - a) (drop a child2) = take (S b - a) (drop a parent2) ∧
    drop (S b) child2 ++ take a child2
    = filter (λ c, c ∉ take (S b - a) (drop a parent2)) parent1.
Proof.
  intros Hab Hnd Hperm. unfold crossoverPaths.
  pose proof (Permutation_length Hperm) as Hlen.
  set (size := length parent1) in *.
  assert (Hrep : replicate size 0 = replicate a 0 ++ replicate (size - a) 0).
  { rewrite <- replicate_add. f_equal. lia. }
  rewrite Hrep.
  destruct (copySegment_spec (S b - a) a parent1 parent2
              (replicate a 0) (replicate (size - a) 0) ∅
              (replicate a 0) (replicate (size - a) 0) ∅)
    as (u1 & u2 & -> & Hu1 & Hu2);
    [by rewrite length_replicate..|rewrite length_replicate; lia
    |rewrite length_replicate; lia|fold size; lia|lia|].
  rewrite drop_replicate.
  replace (size - a - (S b - a))%nat with (size - S b)%nat by lia.
  destruct (child_shape size a b parent1 parent2 u1) as [Hr1 Hc1]; [done..|lia| |].
  { intros c. rewrite Hu1, isUsed_empty. split; [intros [?|?]; done | by right]. }
  destruct (child_shape size a b parent2 parent1 u2) as [Hr2 Hc2];
    [lia|by rewrite <- Hperm|done|lia| |].
  { intros c. rewrite Hu2, isUsed_empty. split; [intros [?|?]; done | by right]. }
  eexists _, _. split; [done|].
  assert (Hl1 : length (take (S b - a) (drop a parent1)) = (S b - a)%nat).
  { rewrite length_take, length_drop. lia. }
  assert (Hl2 : length (take (S b - a) (drop a parent2)) = (S b - a)%nat).
  { rewrite length_take, length_drop. lia. }
  destruct (child_segments a b size _ _ _ ltac:(lia) Hl1 Hr1 Hc1) as [Hs1 Ht1].
  destruct (child_segments a b size _ _ _ ltac:(lia) Hl2 Hr2 Hc2) as [Hs2 Ht2].
  by split_and!.
Qed.

Lemma crossoverPaths_order_witness :
  ∃ child1 child2,
    crossoverPaths 1 2 [1; 2; 3; 4; 5] [5; 4; 3; 2; 1] = Ok (child1, child2) ∧
    take 2 (drop 1 child1) = take 2 (drop 1 [1; 2; 3; 4; 5]) ∧
    drop 3 child1 ++ take 1 child1
    = filter (λ c, c ∉ take 2 (drop 1 [1; 2; 3; 4; 5])) [5; 4; 3; 2; 1] ∧
    take 2 (drop 1 child2) = take 2 (drop 1 [5; 4; 3; 2; 1]) ∧
    drop 3 child2 ++ take 1 child2
    = filter (λ c, c ∉ take 2 (drop 1 [5; 4; 3; 2; 1])) [1; 2; 3; 4; 5].
Proof.
  apply (crossoverPaths_order 1 2 [1; 2; 3; 4; 5] [5; 4; 3; 2; 1]).
  - simpl. lia.
  - compute_done.
  - exact (Permutation_sym (Permutation_rev [5; 4; 3; 2; 1])).
Defined.

End CrossoverExtras.

(** * The operators and the loop on valid populations *)

Module RunTheorems.
Import Tour Prog Evolution ProgFacts Safety RunExtras.

(** A state with two valid tours over four cities and a new cache of
    capacity 2. *)
Lemma example_Inv (draws : list N) :
  Inv 4 2 (Examples.stateOf [[1; 2; 3]; [3; 1; 2]] draws 2).
Proof.
  unfold Inv. split_and!.
  - apply Forall_cons. split; [exact (Permutation_refl [1; 2; 3])|].
    apply Forall_cons. split; [exact (Permutation_cons_append [1; 2] 3)|].
    constructor.
  - apply LRUFacts.wf_new.
  - done.
Qed.

(** X10. On two allocated parents, in a state whose arrays all hold valid
    tours over [N >= 2] cities, [cachedCrossover] returns two children that
    are valid tours stored in two distinct arrays allocated by the call;
    every array that existed before is unchanged, and the cache holds the
    same entries as before, up to their recency order. *)
Theorem cachedCrossover_children (N cap : Z) (st : State) (parent1 parent2 : Route) :
  2 ≤ N → Inv N cap st → allocated st parent1 → allocated st parent2 →
  ∃ child1 child2 st',
    cachedCrossover parent1 parent2 st = (Ok (child1, child2), st') ∧
    validTour N (contentsAt st' (path child1)) ∧
    validTour N (contentsAt st' (path child2)) ∧
    (length (heap st) ≤ path child1)%nat ∧
    (length (heap st) ≤ path child2)%nat ∧
    path child1 ≠ path child2 ∧
    (∀ l, (l < length (heap st))%nat → heap st' !! l = heap st !! l) ∧
    LRU.contents (lru st') ≡ₚ LRU.contents (lru st).
Proof.
  intros HN HInv H1 H2.
  destruct (cachedCrossoverLoop_ok N cap parent1 parent2 15 st HN HInv H1 H2)
    as (c1 & c2 & st' & Hx & HInv' & Hk & Hc1 & Hc2 & Hne & Hperm).
  exists c1, c2, st'. destruct Hk as (Hframe & _).
  split_and!; try done; try lia.
  - apply (allocated_valid N cap); [done|]. unfold allocated. lia.
  - apply (allocated_valid N cap); [done|]. unfold allocated. lia.
Qed.

Lemma cachedCrossover_children_witness :
  ∃ child1 child2 st',
    cachedCrossover (mkRoute 0 0) (mkRoute 1 0)
      (Examples.stateOf [[1; 2; 3]; [3; 1; 2]] [1%N; 2%N] 2)
    = (Ok (child1, child2), st') ∧
    validTour 4 (contentsAt st' (path child1)) ∧
    validTour 4 (contentsAt st' (path child2)) ∧
    (2 ≤ path child1)%nat ∧ (2 ≤ path child2)%nat ∧
    path child1 ≠ path child2 ∧
    (∀ l, (l < 2)%nat →
          heap st' !! l
          = heap (Examples.stateOf [[1; 2; 3]; [3; 1; 2]] [1%N; 2%N] 2) !! l) ∧
    LRU.contents (lru st')
    ≡ₚ LRU.contents (lru (Examples.stateOf [[1; 2; 3]; [3; 1; 2]] [1%N; 2%N] 2)).
Proof.
  apply (cachedCrossover_children 4 2
           (Examples.stateOf [[1; 2; 3]; [3; 1; 2]] [1%N; 2%N] 2)
           (mkRoute 0 0) (mkRoute 1 0)).
  - lia.
  - apply example_Inv.
  - unfold allocated. simpl. lia.
  - unfold allocated. simpl. lia.
Defined.

(** X11. On an allocated route, in a state whose arrays all hold valid
    tours over [N >= 2] cities, [cachedMutate] returns the route it was
    given; the array of the route still holds a valid tour, every other
    array is unchanged, no array is allocated, and the cache holds the same
    entries as before, up to their recency order. *)
Theorem cachedMutate_in_place (N cap : Z) (st : State) (route : Route)
    (rate : float) :
  2 ≤ N → Inv N cap st → allocated st route →
  ∃ st',
    cachedMutate route rate st = (Ok route, st') ∧
    validTour N (contentsAt st' (path route)) ∧
    length (heap st') = length (heap st) ∧
    (∀ l, l ≠ path route → heap st' !! l = heap st !! l) ∧
    LRU.contents (lru st') ≡ₚ LRU.contents (lru st).
Proof.
  intros HN HInv Hr.
  destruct (cachedMutate_ok N cap route rate st HN HInv Hr)
    as (st' & Hm & HInv' & Hlen & Hother & _ & _ & Hperm).
  exists st'. split_and!; try done.
  apply (allocated_valid N cap); [done|]. unfold allocated in *. lia.
Qed.

Lemma cachedMutate_in_place_witness :
  ∃ st',
    cachedMutate (mkRoute 0 0) 1
      (Examples.stateOf [[1; 2; 3]; [3; 1; 2]] [0%N; 0%N; 0%N; 1%N] 2)
    = (Ok (mkRoute 0 0), st') ∧
    validTour 4 (contentsAt st' 0) ∧
    length (heap st') = 2%nat ∧
    (∀ l, l ≠ 0%nat →
          heap st' !! l
          = heap (Examples.stateOf [[1; 2; 3]; [3; 1; 2]]
                    [0%N; 0%N; 0%N; 1%N] 2) !! l) ∧
    LRU.contents (lru st')
    ≡ₚ LRU.contents (lru (Examples.stateOf [[1; 2; 3]; [3; 1; 2]]
                            [0%N; 0%N; 0%N; 1%N] 2)).
Proof.
  apply (cachedMutate_in_place 4 2
           (Examples.stateOf [[1; 2; 3]; [3; 1; 2]] [0%N; 0%N; 0%N; 1%N] 2)
           (mkRoute 0 0) 1).
  - lia.
  - apply example_Inv.
  - unfold allocated. simpl. lia.
Defined.

(** X12. With a cache of capacity at least one whose entries are lengths
    of valid tours under their keys, [evaluatePopulation] (jobs run in the
    order of the queue) never panics on allocated routes over a square
    matrix: it keeps the paths, the arrays, the random source and the
    output, and gives every route a distance that is the length of a valid
    tour with the same key as the route's sequence - by X7, the length of
    a rotation of the route; the cache stays sound. *)
Theorem evaluatePopulation_scores (N cap : Z) (dm : DistanceMatrix)
    (population : list Route) (st : State) :
  1 ≤ N → 1 ≤ cap → squareMatrix N dm →
  Inv N cap st → cacheSound N dm (lru st) → Forall (allocated st) population →
  ∃ population' st',
    evaluatePopulation population dm st = (Ok population', st') ∧
    path <$> population' = path <$> population ∧
    Forall (scored N dm st') population' ∧
    heap st' = heap st ∧ cursor st' = cursor st ∧ stdout st' = stdout st ∧
    Inv N cap st' ∧ cacheSound N dm (lru st').
Proof.
  intros HN Hcap Hdm HInv Hsound Hall.
  destruct (evaluatePopulation_ok N cap dm population st HN Hcap Hdm HInv Hsound Hall)
    as (pop' & st' & Heval & HInv' & Hsound' & Hh & _ & Hc & Ho & Hall').
  apply Forall2_paths in Hall' as [Hpaths Hscored].
  exists pop', st'. by split_and!.
Qed.

Lemma evaluatePopulation_scores_witness :
  ∃ population' st',
    evaluatePopulation [mkRoute 0 0; mkRoute 1 0] Examples.line4
      (Examples.stateOf [[1; 2; 3]; [3; 1; 2]] [] 2)
    = (Ok population', st') ∧
    path <$> population' = path <$> [mkRoute 0 0; mkRoute 1 0] ∧
    Forall (scored 4 Examples.line4 st') population' ∧
    heap st' = heap (Examples.stateOf [[1; 2; 3]; [3; 1; 2]] [] 2) ∧
    cursor st' = cursor (Examples.stateOf [[1; 2; 3]; [3; 1; 2]] [] 2) ∧
    stdout st' = stdout (Examples.stateOf [[1; 2; 3]; [3; 1; 2]] [] 2) ∧
    Inv 4 2 st' ∧ cacheSound 4 Examples.line4 (lru st').
Proof.
  apply (evaluatePopulation_scores 4 2 Examples.line4
           [mkRoute 0 0; mkRoute 1 0]
           (Examples.stateOf [[1; 2; 3]; [3; 1; 2]] [] 2)).
  - lia.
  - lia.
  - apply (TourExtras.createDistanceMatrix_square
             [mkPoint 0 0; mkPoint 1 0; mkPoint 2 0; mkPoint 3 0]).
  - apply example_Inv.
  - constructor.
  - repeat constructor; unfold allocated; simpl; lia.
Defined.

Lemma initializePopulation_panics popSize numCities st :
  popSize < 0 ∨ maxRoutes < popSize ∨
  (1 ≤ popSize ∧ (numCities ≤ 0 ∨ maxInts < numCities - 1)) →
  initializePopulation popSize numCities st = (Panic MakeOutOfRange, st).
Proof.
  unfold initializePopulation. intros Hbad.
  destruct (decide (popSize < 0 ∨ maxRoutes < popSize)) as [Hpop|Hpop].
  - by rewrite bool_decide_eq_true_2 by done.
  - rewrite bool_decide_eq_false_2 by done.
    destruct (Z.to_nat popSize) as [|n] eqn:Hn; [lia|].
    cbn [fillPopulation]. erewrite bind_Panic; [done|].
    unfold randomRoute. by rewrite bool_decide_eq_true_2 by lia.
Qed.

(** X13. [initializePopulation], for every population size and number of
    cities.  It panics in [make], in the state in which it was called,
    when the population size is negative or above [maxRoutes] (the bound
    of [make([]Route, popSize)]), and when the population size is at least
    one and the number of cities is below one or above [maxInts + 1] (the
    bound of [make([]int, numCities-1)] in [randomRoute]).  With a
    population size of zero it returns the empty population.  In every
    other case it returns [popSize] routes of distance 0, the i-th one in
    the i-th array allocated by the call, and each of these arrays holds a
    valid tour: no two routes share an array. *)
Theorem initializePopulation_spec (popSize numCities : Z) (st : State) :
  (popSize < 0 ∨ maxRoutes < popSize ∨
   (1 ≤ popSize ∧ (numCities ≤ 0 ∨ maxInts < numCities - 1)) →
   initializePopulation popSize numCities st = (Panic MakeOutOfRange, st)) ∧
  (popSize = 0 → initializePopulation popSize numCities st = (Ok [], st)) ∧
  (1 ≤ popSize ≤ maxRoutes → 1 ≤ numCities ≤ maxInts + 1 →
   ∃ ps st',
     initializePopulation popSize numCities st
     = (Ok ((λ l, mkRoute l 0) <$> seq (length (heap st)) (Z.to_nat popSize)),
        st') ∧
     heap st' = heap st ++ ps ∧ length ps = Z.to_nat popSize ∧
     Forall (validTour numCities) ps ∧
     lru st' = lru st ∧ stdout st' = stdout st).
Proof.
  split_and!.
  - apply initializePopulation_panics.
  - intros ->. unfold initializePopulation.
    by rewrite bool_decide_eq_false_2 by (by vm_compute; intros [|]).
  - intros Hpop Hcities.
    destruct (initializePopulation_ok numCities popSize st)
      as (routes & ps & st' & Hinit & Hh & Hps & -> & Hlen & _ & Hl & Ho);
      [lia..|].
    exists ps, st'. by split_and!.
Qed.

Lemma initializePopulation_spec_witness :
  initializePopulation (-1) 4 (Examples.stateOf [] [] 2)
  = (Panic MakeOutOfRange, Examples.stateOf [] [] 2) ∧
  initializePopulation (2 ^ 43 + 1) 4 (Examples.stateOf [] [] 2)
  = (Panic MakeOutOfRange, Examples.stateOf [] [] 2) ∧
  initializePopulation 3 (2 ^ 62) (Examples.stateOf [] [] 2)
  = (Panic MakeOutOfRange, Examples.stateOf [] [] 2) ∧
  ∃ ps st',
    initializePopulation 3 4 (Examples.stateOf [] [] 2)
    = (Ok ((λ l, mkRoute l 0) <$> seq 0 3), st') ∧
    heap st' = [] ++ ps ∧ length ps = 3%nat ∧ Forall (validTour 4) ps ∧
    lru st' = LRU.NewLRUCache 2 ∧ stdout st' = [].
Proof.
  split_and!.
  - apply (proj1 (initializePopulation_spec (-1) 4 (Examples.stateOf [] [] 2))).
    left. lia.
  - apply (proj1 (initializePopulation_spec (2 ^ 43 + 1) 4
                    (Examples.stateOf [] [] 2))).
    right. left. by vm_compute.
  - apply (proj1 (initializePopulation_spec 3 (2 ^ 62)
                    (Examples.stateOf [] [] 2))).
    right. right. split; [lia|]. right. by vm_compute.
  - apply (proj2 (proj2 (initializePopulation_spec 3 4
                           (Examples.stateOf [] [] 2))));
      by vm_compute.
Defined.

Lemma insertByDistance_perm r l : insertByDistance r l ≡ₚ r :: l.
Proof.
  induction l as [|r' l IH]; simpl; [done|].
  destruct (PrimFloat.ltb _ _); [|done].
  by rewrite IH, Permutation_swap.
Qed.

Lemma insertionSort_perm l : insertionSort l ≡ₚ l.
Proof.
  unfold insertionSort. induction l as [|r l IH]; simpl; [done|].
  by rewrite insertByDistance_perm, IH.
Qed.

Section Run.

Variable sortSlice : list Route → list Route.
Hypothesis sort_perm : ∀ l, sortSlice l ≡ₚ l.

(** X14. One generation, for at least two cities, a cache capacity and a
    population size of at least one and an elite size of at most the
    population size, when the sort returns a rearrangement of the
    population: the generation does not panic; the record becomes
    [updateBest] of the first sorted route, and its distance is still the
    length of a valid tour; the new population has exactly [popSize]
    allocated routes, each with a distance that is the length of a valid
    tour with the key of its sequence; its first [eliteSize] routes have
    the paths of the first [eliteSize] sorted routes (elitism); and no
    array that existed before the generation is modified, although
    [mutate] works in place. *)
Theorem generation_step (N cap : Z) (dm : DistanceMatrix) (cfg : Config) (gen : Z)
    (population : list Route) (best : Route) (st : State) :
  2 ≤ N → 1 ≤ cap → squareMatrix N dm →
  1 ≤ popSize cfg → eliteSize cfg ≤ popSize cfg →
  loopInv N cap (popSize cfg) dm (population, best) st →
  ∃ first population' st',
    head (sortSlice population) = Some first ∧
    generation sortSlice cfg dm gen (population, best) st
    = (Ok (population', updateBest best first), st') ∧
    Z.of_nat (length population') = popSize cfg ∧
    Forall (allocated st') population' ∧
    Forall (scored N dm st') population' ∧
    tourLength N dm (distance (updateBest best first)) ∧
    path <$> take (Z.to_nat (eliteSize cfg)) population'
    = path <$> take (Z.to_nat (eliteSize cfg)) (sortSlice population) ∧
    (∀ l, (l < length (heap st))%nat → heap st' !! l = heap st !! l) ∧
    Inv N cap st' ∧ cacheSound N dm (lru st') ∧
    stdout st `prefix_of` stdout st'.
Proof.
  intros HN Hcap Hdm Hpop Helite HI.
  destruct (generation_ok sortSlice sort_perm N cap dm cfg gen population best st
              HN Hcap Hdm Hpop Helite HI)
    as (first & pop' & st' & Hhead & Hgen & HI' & Hscored & Hframe & Hel & Hout).
  destruct HI' as (HInv' & Hsound' & Halloc' & Hlen' & _ & Hbest').
  exists first, pop', st'. split_and!; try done.
  rewrite Hout. by apply prefix_app_r.
Qed.

(** X15. [main] on a readable input with at least two cities, a population
    size and a cache size of at least one, an elite size of at most the
    population size, and sizes that [make] accepts, whatever the numbers of
    generations and of tournament rounds, the mutation rate and the random
    draws: the run does not panic.  It prints one line for each of the
    generations 0, 50, 100, ... and for the last generation, in order and
    for no other generation, and then the best distance; every distance it
    prints is the length of a valid tour over the cities of the input. *)
Theorem main_total (readPointsFromFile : string → option (list Point))
    (cfg : Config) (points : list Point) (st : State) :
  inputFile cfg ≠ "" → readPointsFromFile (inputFile cfg) = Some points →
  2 ≤ Z.of_nat (length points) ≤ maxRows →
  1 ≤ popSize cfg ≤ maxRoutes → eliteSize cfg ≤ popSize cfg →
  1 ≤ cacheSize cfg → heap st = [] →
  ∃ d lines st',
    main sortSlice readPointsFromFile cfg st = (Ok tt, st') ∧
    stdout st' = stdout st ++ lines ++ [PrintBest d] ∧
    Forall2 (λ gen o, ∃ b, o = PrintGen gen b ∧
                           tourLength (Z.of_nat (length points))
                             (createDistanceMatrix points) b)
      (filter (λ gen, gen `rem` 50 = 0 ∨ gen = generations cfg - 1)
              (seqZ 0 (generations cfg)))
      lines ∧
    tourLength (Z.of_nat (length points)) (createDistanceMatrix points) d.
Proof.
  intros Hin Hread HN Hpop Helite Hcache Hheap.
  assert (Hpts : points ≠ []) by (destruct points; [simpl in HN; lia | done]).
  destruct (setup_ok cfg points st Hpts) as (pop & best & st1 & Hsetup & HI1 & Ho1);
    [lia | done..|].
  destruct (evolve_ok sortSlice sort_perm (Z.of_nat (length points)) (cacheSize cfg)
              (createDistanceMatrix points) cfg (Z.to_nat (generations cfg)) 0
              (pop, best) st1)
    as ([pop' best'] & st2 & lines & Hev & HI2 & Ho2 & Hlines); try done; try lia.
  { apply TourExtras.createDistanceMatrix_square. }
  destruct HI2 as (_ & _ & _ & _ & _ & Hbest). simpl in Hbest.
  exists (distance best'), lines,
    (mkState (heap st2) (tape st2) (cursor st2) (lru st2)
             (stdout st2 ++ [PrintBest (distance best')])).
  split_and!; [|simpl; by rewrite Ho2, Ho1, app_assoc| |done].
  - unfold main. rewrite bool_decide_eq_true_2 by done. rewrite Hread.
    erewrite bind_Ok by exact Hsetup. cbv beta iota.
    by erewrite bind_Ok by exact Hev.
  - unfold seqZ in *. by rewrite Nat2Z.id in Hlines.
Qed.

End Run.

Lemma example_loopInv (draws : list N) :
  loopInv 4 2 2 Examples.line4 ([mkRoute 0 6; mkRoute 1 8], mkRoute 0 6)
    (Examples.stateOf [[1; 2; 3]; [3; 1; 2]] draws 2).
Proof.
  assert (H6 : tourLength 4 Examples.line4 6).
  { exists [1; 2; 3]. split; [exact (Permutation_refl [1; 2; 3]) | reflexivity]. }
  assert (H8 : tourLength 4 Examples.line4 8).
  { exists [3; 1; 2].
    split; [exact (Permutation_cons_append [1; 2] 3) | reflexivity]. }
  unfold loopInv. simpl. split_and!; try done.
  - apply example_Inv.
  - constructor.
  - repeat constructor; unfold allocated; simpl; lia.
  - by repeat constructor.
Qed.

Lemma generation_step_witness :
  ∃ first population' st',
    head (insertionSort [mkRoute 0 6; mkRoute 1 8]) = Some first ∧
    generation insertionSort (mkConfig "cities.tsp" 2 3 2 0.125 1 2)
      Examples.line4 0 ([mkRoute 0 6; mkRoute 1 8], mkRoute 0 6)
      (Examples.stateOf [[1; 2; 3]; [3; 1; 2]] [] 2)
    = (Ok (population', updateBest (mkRoute 0 6) first), st') ∧
    Z.of_nat (length population') = 2 ∧
    Forall (allocated st') population' ∧
    Forall (scored 4 Examples.line4 st') population' ∧
    tourLength 4 Examples.line4 (distance (updateBest (mkRoute 0 6) first)) ∧
    path <$> take 1 population'
    = path <$> take 1 (insertionSort [mkRoute 0 6; mkRoute 1 8]) ∧
    (∀ l, (l < 2)%nat →
          heap st' !! l = heap (Examples.stateOf [[1; 2; 3]; [3; 1; 2]] [] 2) !! l) ∧
    Inv 4 2 st' ∧ cacheSound 4 Examples.line4 (lru st') ∧
    [] `prefix_of` stdout st'.
Proof.
  apply (generation_step insertionSort insertionSort_perm 4 2 Examples.line4
           (mkConfig "cities.tsp" 2 3 2 0.125 1 2) 0
           [mkRoute 0 6; mkRoute 1 8] (mkRoute 0 6)
           (Examples.stateOf [[1; 2; 3]; [3; 1; 2]] [] 2)).
  - lia.
  - lia.
  - apply (TourExtras.createDistanceMatrix_square
             [mkPoint 0 0; mkPoint 1 0; mkPoint 2 0; mkPoint 3 0]).
  - simpl. lia.
  - simpl. lia.
  - apply example_loopInv.
Defined.

Lemma main_total_witness :
  ∃ d lines st',
    main insertionSort
      (λ _, Some [mkPoint 0 0; mkPoint 3 4; mkPoint 6 8])
      (mkConfig "cities.tsp" 4 3 2 0.125 1 10) (Examples.stateOf [] [] 0)
    = (Ok tt, st') ∧
    stdout st' = [] ++ lines ++ [PrintBest d] ∧
    Forall2 (λ gen o, ∃ b, o = PrintGen gen b ∧
                           tourLength 3
                             (createDistanceMatrix
                                [mkPoint 0 0; mkPoint 3 4; mkPoint 6 8]) b)
      (filter (λ gen, gen `rem` 50 = 0 ∨ gen = 3 - 1) (seqZ 0 3)) lines ∧
    tourLength 3 (createDistanceMatrix [mkPoint 0 0; mkPoint 3 4; mkPoint 6 8]) d.
Proof.
  apply (main_total insertionSort insertionSort_perm
           (λ _, Some [mkPoint 0 0; mkPoint 3 4; mkPoint 6 8])
           (mkConfig "cities.tsp" 4 3 2 0.125 1 10)
           [mkPoint 0 0; mkPoint 3 4; mkPoint 6 8] (Examples.stateOf [] [] 0)).
  - done.
  - reflexivity.
  - by vm_compute.
  - by vm_compute.
  - simpl. lia.
  - simpl. lia.
  - reflexivity.
Defined.

(** ** Configurations on which [main] panics *)

Lemma Put_empty_nonpositive cap k v :
  cap ≤ 0 → LRU.Put k v (LRU.NewLRUCache cap) = Panic NilDereference.
Proof.
  intros Hcap. unfold LRU.Put. simpl. rewrite lookup_empty.
  by rewrite bool_decide_eq_true_2 by (unfold LRU.Len; simpl; lia).
Qed.

Lemma setup_state cfg points st :
  Z.of_nat (length points) ≤ maxRows →
  setup cfg points st
  = (initializePopulation (popSize cfg) (Z.of_nat (length points))
     ≫= λ population,
          evaluatePopulation population (createDistanceMatrix points)
          ≫= λ population,
               match population with
               | [] => raise IndexOutOfRange
               | best :: _ =>
                   mret (createDistanceMatrix points, (population, best))
               end)
      (mkState (heap st) (tape st) (cursor st)
               (LRU.NewLRUCache (cacheSize cfg)) (stdout st)).
Proof.
  intros Hrows. unfold setup. by rewrite bool_decide_eq_false_2 by lia.
Qed.

Lemma main_setup_panics sortSlice readPointsFromFile cfg points st e st' :
  inputFile cfg ≠ "" → readPointsFromFile (inputFile cfg) = Some points →
  setup cfg points st = (Panic e, st') →
  main sortSlice readPointsFromFile cfg st = (Panic e, st').
Proof.
  intros Hin Hread Hsetup. unfold main.
  rewrite bool_decide_eq_true_2 by done. rewrite Hread.
  by erewrite bind_Panic by exact Hsetup.
Qed.

(** X16. What [main] does with sizes it does not check.  On a readable
    input of at most [maxRows] points: a population size that is negative
    or above [maxRoutes], or no city with a population size of at least
    one, panics in [make]; a population size of zero panics on
    [population[0]]; a cache size of zero or less, with at least one city
    and a population size from one to [maxRoutes], panics in the first
    [Put] on the nil element that [Back] returns.  Nothing is printed
    before the panic. *)
Theorem main_unchecked_sizes (sortSlice : list Route → list Route)
    (readPointsFromFile : string → option (list Point))
    (cfg : Config) (points : list Point) (st : State) :
  inputFile cfg ≠ "" → readPointsFromFile (inputFile cfg) = Some points →
  Z.of_nat (length points) ≤ maxRows →
  (popSize cfg < 0 ∨ maxRoutes < popSize cfg ∨
   (1 ≤ popSize cfg ∧ points = []) →
   ∃ st', main sortSlice readPointsFromFile cfg st = (Panic MakeOutOfRange, st') ∧
          stdout st' = stdout st) ∧
  (popSize cfg = 0 →
   ∃ st', main sortSlice readPointsFromFile cfg st = (Panic IndexOutOfRange, st') ∧
          stdout st' = stdout st) ∧
  (1 ≤ popSize cfg ≤ maxRoutes → points ≠ [] → cacheSize cfg ≤ 0 →
   ∃ st', main sortSlice readPointsFromFile cfg st = (Panic NilDereference, st') ∧
          stdout st' = stdout st).
Proof.
  intros Hin Hread Hrows.
  set (st0 := mkState (heap st) (tape st) (cursor st)
                      (LRU.NewLRUCache (cacheSize cfg)) (stdout st)).
  split_and!.
  - intros Hbad. exists st0. split; [|done].
    apply (main_setup_panics _ _ _ points); try done.
    rewrite setup_state by done. fold st0.
    erewrite bind_Panic; [done|]. apply initializePopulation_panics.
    destruct Hbad as [?|[?|[? ->]]]; [by left | by right; left |].
    right. right. split; [done|]. left. simpl. lia.
  - intros Hzero. exists st0. split; [|done].
    apply (main_setup_panics _ _ _ points); try done.
    rewrite setup_state by done. fold st0.
    unfold initializePopulation. rewrite Hzero.
    by rewrite bool_decide_eq_false_2 by (by vm_compute; intros [|]).
  - intros Hpop Hpts Hcache.
    assert (HN : 1 ≤ Z.of_nat (length points))
      by (destruct points; [done | simpl; lia]).
    destruct (initializePopulation_ok (Z.of_nat (length points)) (popSize cfg) st0 HN)
      as (routes & ps & st1 & Hinit & Hh1 & Hps & Hroutes & Hlen & Ht1 & Hl1 & Ho1);
      [by apply maxRows_maxInts | lia |].
    destruct (Z.to_nat (popSize cfg)) as [|n] eqn:Hn; [lia|].
    destruct ps as [|p0 ps']; [done|]. apply Forall_cons in Hps as [Hp0 _].
    simpl in Hroutes. subst routes.
    assert (Hc0 : contentsAt st1 (length (heap st0)) = p0).
    { unfold contentsAt. rewrite Hh1. by rewrite list_lookup_middle. }
    destruct (EvolutionTheorems.calculateDistance_Ok (Z.of_nat (length points))
                (createDistanceMatrix points) p0
                (TourExtras.createDistanceMatrix_square points) HN Hp0) as [d Hd].
    exists st1. split; [|by rewrite Ho1].
    apply (main_setup_panics _ _ _ points); try done.
    rewrite setup_state by done. fold st0.
    erewrite bind_Ok by exact Hinit.
    erewrite bind_Panic; [done|].
    cbn [evaluatePopulation]. erewrite bind_Panic; [done|].
    unfold evaluateRoute. erewrite bind_Ok by reflexivity.
    simpl (path _).
    change (default [] (heap st1 !! length (heap st)))
      with (contentsAt st1 (length (heap st0))).
    rewrite Hc0.
    destruct st1 as [h1 t1 c1 l1 o1]. simpl in Hl1. subst l1.
    unfold mbind, M_bind, bind, cacheGet, cachePut. simpl. rewrite Hd. simpl.
    unfold LRU.Get. simpl. rewrite lookup_empty. simpl.
    by rewrite Put_empty_nonpositive.
Qed.

Lemma main_unchecked_sizes_witness :
  (∃ st', main insertionSort (λ _, Some [mkPoint 0 0; mkPoint 3 4])
            (mkConfig "cities.tsp" (2 ^ 43 + 1) 3 2 0.125 1 10)
            (Examples.stateOf [] [] 0)
          = (Panic MakeOutOfRange, st') ∧ stdout st' = []) ∧
  (∃ st', main insertionSort (λ _, Some [mkPoint 0 0; mkPoint 3 4])
            (mkConfig "cities.tsp" 0 3 2 0.125 1 10) (Examples.stateOf [] [] 0)
          = (Panic IndexOutOfRange, st') ∧ stdout st' = []) ∧
  (∃ st', main insertionSort (λ _, Some [mkPoint 0 0; mkPoint 3 4])
            (mkConfig "cities.tsp" 4 3 2 0.125 1 0) (Examples.stateOf [] [] 0)
          = (Panic NilDereference, st') ∧ stdout st' = []).
Proof.
  split_and!.
  - apply (proj1 (main_unchecked_sizes insertionSort
                    (λ _, Some [mkPoint 0 0; mkPoint 3 4])
                    (mkConfig "cities.tsp" (2 ^ 43 + 1) 3 2 0.125 1 10)
                    [mkPoint 0 0; mkPoint 3 4] (Examples.stateOf [] [] 0)
                    ltac:(done) eq_refl ltac:(by vm_compute))).
    right. left. by vm_compute.
  - apply (proj1 (proj2 (main_unchecked_sizes insertionSort
                    (λ _, Some [mkPoint 0 0; mkPoint 3 4])
                    (mkConfig "cities.tsp" 0 3 2 0.125 1 10)
                    [mkPoint 0 0; mkPoint 3 4] (Examples.stateOf [] [] 0)
                    ltac:(done) eq_refl ltac:(by vm_compute)))).
    reflexivity.
  - apply (proj2 (proj2 (main_unchecked_sizes insertionSort
                    (λ _, Some [mkPoint 0 0; mkPoint 3 4])
                    (mkConfig "cities.tsp" 4 3 2 0.125 1 0)
                    [mkPoint 0 0; mkPoint 3 4] (Examples.stateOf [] [] 0)
                    ltac:(done) eq_refl ltac:(by vm_compute)))).
    + by vm_compute.
    + done.
    + simpl. lia.
Defined.

Lemma cachedCrossoverLoop_panics n parent1 parent2 st e st' :
  crossover parent1 parent2 st = (Panic e, st') →
  cachedCrossoverLoop n parent1 parent2 st = (Panic e, st').
Proof.
  intros Hx. destruct n as [|n]; [done|].
  cbn [cachedCrossoverLoop]. by erewrite bind_Panic by exact Hx.
Qed.

Section FirstGeneration.

Variable sortSlice : list Route → list Route.
Hypothesis sort_perm : ∀ l, sortSlice l ≡ₚ l.

Lemma main_first_generation_panics
    (readPointsFromFile : string → option (list Point)) cfg points st
    population best st1 e st' :
  inputFile cfg ≠ "" → readPointsFromFile (inputFile cfg) = Some points →
  1 ≤ generations cfg →
  setup cfg points st
  = (Ok (createDistanceMatrix points, (population, best)), st1) →
  generation sortSlice cfg (createDistanceMatrix points) 0 (population, best) st1
  = (Panic e, st') →
  main sortSlice readPointsFromFile cfg st = (Panic e, st').
Proof.
  intros Hin Hread Hgens Hsetup Hgen. unfold main.
  rewrite bool_decide_eq_true_2 by done. rewrite Hread.
  erewrite bind_Ok by exact Hsetup. cbv beta iota.
  erewrite bind_Panic; [done|].
  destruct (Z.to_nat (generations cfg)) as [|n] eqn:Hn; [lia|].
  cbn [evolve]. by erewrite bind_Panic by exact Hgen.
Qed.

(** X17. An elite size above the population size is not rejected.  On a
    readable input with at least one city, a cache size of at least one,
    sizes that [make] accepts with a population size of at least one, and
    at least one generation: the set-up completes with a population of
    [popSize] routes and prints nothing, and the first generation panics
    with an index out of range in the very state the set-up left, before
    any random draw of a selection: the panic is the one of
    [population[:eliteSize]].  [main] ends with that panic. *)
Theorem main_elite_above_population
    (readPointsFromFile : string → option (list Point))
    (cfg : Config) (points : list Point) (st : State) :
  inputFile cfg ≠ "" → readPointsFromFile (inputFile cfg) = Some points →
  points ≠ [] → Z.of_nat (length points) ≤ maxRows →
  1 ≤ popSize cfg ≤ maxRoutes → 1 ≤ cacheSize cfg → heap st = [] →
  1 ≤ generations cfg → popSize cfg < eliteSize cfg →
  ∃ population best st1,
    setup cfg points st
    = (Ok (createDistanceMatrix points, (population, best)), st1) ∧
    Z.of_nat (length population) = popSize cfg ∧
    stdout st1 = stdout st ∧
    generation sortSlice cfg (createDistanceMatrix points) 0
      (population, best) st1
    = (Panic IndexOutOfRange, st1) ∧
    main sortSlice readPointsFromFile cfg st = (Panic IndexOutOfRange, st1).
Proof.
  intros Hin Hread Hpts Hrows Hpop Hcache Hheap Hgens Helite.
  destruct (setup_ok cfg points st Hpts Hrows Hpop Hcache Hheap)
    as (pop & best & st1 & Hsetup & HI1 & Ho1).
  destruct HI1 as (_ & _ & _ & Hlen & _). simpl in Hlen.
  assert (Hgen : generation sortSlice cfg (createDistanceMatrix points) 0
                   (pop, best) st1 = (Panic IndexOutOfRange, st1)).
  { unfold generation.
    pose proof (sort_perm pop) as Hperm.
    assert (Hlen' : Z.of_nat (length (sortSlice pop)) = popSize cfg)
      by (by rewrite Hperm).
    destruct (sortSlice pop) as [|first sorted']; [simpl in Hlen'; lia|].
    erewrite bind_Panic; [done|].
    rewrite bool_decide_eq_true_2 by lia.
    by rewrite bool_decide_eq_false_2 by lia. }
  exists pop, best, st1. split_and!; try done.
  by eapply main_first_generation_panics.
Qed.

(** X18. An input with a single city is not rejected either: every tour
    is then empty.  With a cache size of at least one, a population size
    from one to [maxRoutes], an elite size below the population size and at
    least one generation: the set-up completes, the two tournament
    selections of the first generation return their parents, and the
    first [crossover], the one of these two parents, panics in
    [rand.Intn(0)].  [main] ends with that panic, in the state of that
    call, and nothing has been printed. *)
Theorem main_single_city
    (readPointsFromFile : string → option (list Point))
    (cfg : Config) (point : Point) (st : State) :
  inputFile cfg ≠ "" → readPointsFromFile (inputFile cfg) = Some [point] →
  1 ≤ popSize cfg ≤ maxRoutes → 1 ≤ cacheSize cfg → heap st = [] →
  1 ≤ generations cfg → eliteSize cfg < popSize cfg →
  ∃ population best st1 parent1 parent2 st2 st3,
    setup cfg [point] st
    = (Ok (createDistanceMatrix [point], (population, best)), st1) ∧
    tournamentSelection (sortSlice population) (tournament cfg) st1
    = (Ok parent1, st2) ∧
    tournamentSelection (sortSlice population) (tournament cfg) st2
    = (Ok parent2, st3) ∧
    crossover parent1 parent2 st3 = (Panic InvalidIntnArgument, st3) ∧
    main sortSlice readPointsFromFile cfg st
    = (Panic InvalidIntnArgument, st3) ∧
    stdout st3 = stdout st.
Proof.
  intros Hin Hread Hpop Hcache Hheap Hgens Helite.
  destruct (setup_ok cfg [point] st ltac:(done) ltac:(by vm_compute)
              Hpop Hcache Hheap)
    as (pop & best & st1 & Hsetup & HI1 & Ho1).
  destruct HI1 as (HInv & _ & Halloc & Hlen & _). simpl in HInv, Halloc, Hlen.
  pose proof (sort_perm pop) as Hperm.
  assert (Hlen' : Z.of_nat (length (sortSlice pop)) = popSize cfg) by (by rewrite Hperm).
  assert (Halloc' : Forall (allocated st1) (sortSlice pop)) by (by rewrite Hperm).
  destruct (sortSlice pop) as [|first sorted'] eqn:Hsorted; [simpl in Hlen'; lia|].
  set (sorted := first :: sorted') in *.
  assert (Hne : sorted ≠ []) by done.
  set (elite := if bool_decide (eliteSize cfg > 0)
                then take (Z.to_nat (eliteSize cfg)) sorted else []).
  assert (Hel : (if bool_decide (eliteSize cfg > 0)
                 then if bool_decide (eliteSize cfg ≤ Z.of_nat (length sorted))
                      then mret (take (Z.to_nat (eliteSize cfg)) sorted)
                      else raise IndexOutOfRange
                 else mret []) st1 = (Ok elite, st1)).
  { subst elite. case_bool_decide; [|done].
    by rewrite bool_decide_eq_true_2 by lia. }
  assert (Hshort : Z.of_nat (length elite) < popSize cfg).
  { subst elite. case_bool_decide; [rewrite length_take|simpl]; lia. }
  destruct (tournamentSelection_draws sorted (tournament cfg) st1 Hne)
    as (parent1 & Hsel1 & Hin1 & _).
  set (st2 := advance (Z.to_nat (Z.max 1 (tournament cfg))) st1) in *.
  destruct (tournamentSelection_draws sorted (tournament cfg) st2 Hne)
    as (parent2 & Hsel2 & Hin2 & _).
  set (st3 := advance (Z.to_nat (Z.max 1 (tournament cfg))) st2) in *.
  assert (Hempty : contentsAt st3 (path parent1) = []).
  { rewrite Forall_forall in Halloc'.
    pose proof (allocated_valid 1 (cacheSize cfg) st1 parent1 HInv
                  (Halloc' _ Hin1)) as Hv.
    unfold validTour in Hv. simpl in Hv. by apply Permutation_nil_r in Hv. }
  assert (Hx : crossover parent1 parent2 st3 = (Panic InvalidIntnArgument, st3)).
  { unfold crossover. erewrite bind_Ok by reflexivity.
    erewrite bind_Ok by reflexivity.
    fold (contentsAt st3 (path parent1)). rewrite Hempty.
    erewrite bind_Panic; [done|]. by apply Intn_Panic. }
  exists pop, best, st1, parent1, parent2, st2, st3.
  rewrite Hsorted. split_and!; try done.
  eapply main_first_generation_panics; try done.
  unfold generation. rewrite Hsorted. subst sorted. cbv iota.
  erewrite bind_Ok by exact Hel. erewrite bind_Panic; [done|].
  destruct (Z.to_nat (popSize cfg)) as [|fuel] eqn:Hfuel; [lia|].
  cbn [breed]. rewrite bool_decide_eq_true_2 by done.
  erewrite bind_Ok by exact Hsel1. erewrite bind_Ok by exact Hsel2.
  erewrite bind_Panic; [done|].
  unfold cachedCrossover. by apply cachedCrossoverLoop_panics.
Qed.

End FirstGeneration.

Lemma main_elite_above_population_witness :
  ∃ population best st1,
    setup (mkConfig "cities.tsp" 2 3 2 0.125 5 10)
      [mkPoint 0 0; mkPoint 3 4; mkPoint 6 8] (Examples.stateOf [] [] 0)
    = (Ok (createDistanceMatrix [mkPoint 0 0; mkPoint 3 4; mkPoint 6 8],
           (population, best)), st1) ∧
    Z.of_nat (length population) = 2 ∧
    stdout st1 = [] ∧
    generation insertionSort (mkConfig "cities.tsp" 2 3 2 0.125 5 10)
      (createDistanceMatrix [mkPoint 0 0; mkPoint 3 4; mkPoint 6 8]) 0
      (population, best) st1
    = (Panic IndexOutOfRange, st1) ∧
    main insertionSort (λ _, Some [mkPoint 0 0; mkPoint 3 4; mkPoint 6 8])
      (mkConfig "cities.tsp" 2 3 2 0.125 5 10) (Examples.stateOf [] [] 0)
    = (Panic IndexOutOfRange, st1).
Proof.
  apply (main_elite_above_population insertionSort insertionSort_perm
           (λ _, Some [mkPoint 0 0; mkPoint 3 4; mkPoint 6 8])
           (mkConfig "cities.tsp" 2 3 2 0.125 5 10)
           [mkPoint 0 0; mkPoint 3 4; mkPoint 6 8] (Examples.stateOf [] [] 0)).
  - done.
  - reflexivity.
  - done.
  - by vm_compute.
  - by vm_compute.
  - simpl. lia.
  - reflexivity.
  - simpl. lia.
  - simpl. lia.
Defined.

Lemma main_single_city_witness :
  ∃ population best st1 parent1 parent2 st2 st3,
    setup (mkConfig "cities.tsp" 2 3 2 0.125 1 10) [mkPoint 1 2]
      (Examples.stateOf [] [] 0)
    = (Ok (createDistanceMatrix [mkPoint 1 2], (population, best)), st1) ∧
    tournamentSelection (insertionSort population) 2 st1 = (Ok parent1, st2) ∧
    tournamentSelection (insertionSort population) 2 st2 = (Ok parent2, st3) ∧
    crossover parent1 parent2 st3 = (Panic InvalidIntnArgument, st3) ∧
    main insertionSort (λ _, Some [mkPoint 1 2])
      (mkConfig "cities.tsp" 2 3 2 0.125 1 10) (Examples.stateOf [] [] 0)
    = (Panic InvalidIntnArgument, st3) ∧
    stdout st3 = [].
Proof.
  apply (main_single_city insertionSort insertionSort_perm
           (λ _, Some [mkPoint 1 2])
           (mkConfig "cities.tsp" 2 3 2 0.125 1 10)
           (mkPoint 1 2) (Examples.stateOf [] [] 0)).
  - done.
  - reflexivity.
  - by vm_compute.
  - simpl. lia.
  - reflexivity.
  - simpl. lia.
  - simpl. lia.
Defined.

End RunTheorems.

(** * Reading the cities *)

Module ReaderExtras.
Import Tour GoStrings Reader.

Section Read.

Variable ParseFloat : string → float.

Lemma setPoint_Ok line r :
  sized r →
  ∃ r', setPoint ParseFloat line r = Ok r' ∧ sized r' ∧
        dimension r' = dimension r ∧ inCoordSection r' = inCoordSection r.
Proof.
  intros Hs. unfold setPoint.
  destruct (Fields line) as [|p0 [|p1 [|p2 ps]]]; try by exists r.
  case_bool_decide as Hidx; [|by exists r].
  rewrite bool_decide_eq_true_2 by (unfold sized in Hs; lia).
  eexists. split; [done|]. unfold sized. simpl. by rewrite length_insert.
Qed.

Lemma readLine_cases text r :
  sized r →
  (∃ r' stop, readLine ParseFloat text r = Ok (r', stop) ∧ sized r' ∧
     ((dimension r' = dimension r ∧ length (points r') = length (points r) ∧
       (HasPrefix (TrimSpace text) "DIMENSION" = false → inCoordSection r = false →
        points r' = points r)) ∨
      (HasPrefix (TrimSpace text) "DIMENSION" = true ∧
       dimensionOf (TrimSpace text) = Ok (dimension r')))) ∨
  (∃ e, readLine ParseFloat text r = Panic e ∧
        HasPrefix (TrimSpace text) "DIMENSION" = true ∧
        dimensionOf (TrimSpace text) = Panic e).
Proof.
  intros Hs. unfold readLine. set (line := TrimSpace text).
  case_bool_decide as Hempty.
  { left. exists r, false. split_and!; try done. by left. }
  destruct (HasPrefix line "DIMENSION") eqn:Hdim.
  - destruct (dimensionOf line) as [d|e] eqn:Hd; [|right; by exists e].
    assert (Hd0 : 0 ≤ d).
    { unfold dimensionOf in Hd. destruct (_ !! 1%nat); [|done].
      case_bool_decide; [done|]. injection Hd as <-. lia. }
    set (r1 := mkReader d (replicate (Z.to_nat d) (mkPoint 0 0)) (inCoordSection r)).
    assert (Hs1 : sized r1).
    { unfold sized, r1. simpl. rewrite length_replicate. lia. }
    left. destruct (HasPrefix line "NODE_COORD_SECTION").
    { eexists _, _. split; [done|]. split; [done|]. by right. }
    destruct (inCoordSection r1 && HasPrefix line "EOF").
    { eexists _, _. split; [done|]. split; [done|]. by right. }
    destruct (inCoordSection r1) eqn:Hin.
    + destruct (setPoint_Ok line r1 Hs1) as (r' & -> & Hs' & Hd' & _).
      eexists _, _. split; [done|]. split; [done|]. right. by rewrite Hd'.
    + eexists _, _. split; [done|]. split; [done|]. by right.
  - left. destruct (HasPrefix line "NODE_COORD_SECTION").
    { eexists _, _. split; [done|]. split; [done|]. by left. }
    destruct (inCoordSection r && HasPrefix line "EOF").
    { eexists _, _. split; [done|]. split; [done|]. by left. }
    destruct (inCoordSection r) eqn:Hin.
    + destruct (setPoint_Ok line r Hs) as (r' & -> & Hs' & Hd' & _).
      eexists _, _. split; [done|]. split; [done|]. left.
      split; [done|]. split; [unfold sized in *; lia | done].
    + eexists _, _. split; [done|]. split; [done|]. by left.
Qed.

Lemma scan_cases lines : ∀ r,
  sized r →
  (∃ r', scan ParseFloat lines r = Ok r' ∧ sized r' ∧
         ((dimension r' = dimension r ∧ length (points r') = length (points r)) ∨
          ∃ text, text ∈ lines ∧ HasPrefix (TrimSpace text) "DIMENSION" = true ∧
                  dimensionOf (TrimSpace text) = Ok (dimension r'))) ∨
  (∃ e text, scan ParseFloat lines r = Panic e ∧ text ∈ lines ∧
             HasPrefix (TrimSpace text) "DIMENSION" = true ∧
             dimensionOf (TrimSpace text) = Panic e).
Proof.
  induction lines as [|text rest IH]; intros r Hs.
  - left. exists r. split_and!; try done. by left.
  - cbn [scan].
    destruct (readLine_cases text r Hs)
      as [(r1 & stop & -> & Hs1 & Hstep)|(e & -> & Hdim & Hd)].
    2:{ right. exists e, text. split_and!; try done. left. }
    assert (Hhere : (dimension r1 = dimension r ∧
                     length (points r1) = length (points r)) ∨
                    ∃ t, t ∈ text :: rest ∧
                         HasPrefix (TrimSpace t) "DIMENSION" = true ∧
                         dimensionOf (TrimSpace t) = Ok (dimension r1)).
    { destruct Hstep as [(? & ? & _)|[? ?]]; [by left|].
      right. exists text. split_and!; try done. left. }
    destruct stop.
    { left. exists r1. by split_and!. }
    destruct (IH r1 Hs1) as [(r' & -> & Hs' & Hrest)|(e & t & -> & Hin & Hdim & Hd)].
    + left. exists r'. split_and!; try done.
      destruct Hrest as [[Hd' Hl']|(t & Hin & Hdim & Hd)].
      * destruct Hhere as [[? ?]|(t & Hin & Hdim & Hd)].
        -- left. split; congruence.
        -- right. exists t. split_and!; try done. by rewrite Hd'.
      * right. exists t. split_and!; try done. by right.
    + right. exists e, t. split_and!; try done. by right.
Qed.

(** X20. [readPointsFromFile] panics only on a DIMENSION line (one with
    no value after a colon or a blank, or with a value that [make]
    refuses): the
    assignment [points[idx-1]] is never out of range, because the slice
    always has the length of the last dimension read.  When it returns
    points, there are none or as many as a DIMENSION line of the file says;
    when the file cannot be opened it returns the error. *)
Theorem readPointsFromFile_outcomes (open : string → option (list string))
    (filename : string) :
  (open filename = None →
   readPointsFromFile ParseFloat open filename = Ok None) ∧
  (∀ e, readPointsFromFile ParseFloat open filename = Panic e →
        ∃ lines text,
          open filename = Some lines ∧ text ∈ lines ∧
          HasPrefix (TrimSpace text) "DIMENSION" = true ∧
          dimensionOf (TrimSpace text) = Panic e) ∧
  (∀ pts, readPointsFromFile ParseFloat open filename = Ok (Some pts) →
          pts = [] ∨
          ∃ lines text,
            open filename = Some lines ∧ text ∈ lines ∧
            HasPrefix (TrimSpace text) "DIMENSION" = true ∧
            dimensionOf (TrimSpace text) = Ok (Z.of_nat (length pts))).
Proof.
  unfold readPointsFromFile. split_and!.
  - by intros ->.
  - intros e. destruct (open filename) as [lines|]; [|done].
    destruct (scan_cases lines (mkReader 0 [] false) eq_refl)
      as [(r' & -> & _)|(e' & text & -> & Hin & Hdim & Hd)]; [done|].
    intros [= <-]. by exists lines, text.
  - intros pts. destruct (open filename) as [lines|]; [|done].
    destruct (scan_cases lines (mkReader 0 [] false) eq_refl)
      as [(r' & -> & Hs & Hr)|(e' & text & -> & _)]; [|done].
    intros [= <-]. destruct Hr as [[_ Hlen]|(text & Hin & Hdim & Hd)].
    + left. simpl in Hlen. by destruct (points r').
    + right. exists lines, text. split_and!; try done. by rewrite Hs.
Qed.

End Read.

Lemma readPointsFromFile_outcomes_witness :
  (∃ lines text,
     (λ _ : string, Some ["NAME: x"; "DIMENSION"; "EOF"]) "f" = Some lines ∧
     text ∈ lines ∧
     HasPrefix (TrimSpace text) "DIMENSION" = true ∧
     dimensionOf (TrimSpace text) = Panic IndexOutOfRange) ∧
  ([mkPoint 0 0; mkPoint 0 0] = [] ∨
   ∃ lines text,
     (λ _ : string, Some ["DIMENSION 2"; "1 5 5"]) "f" = Some lines ∧
     text ∈ lines ∧
     HasPrefix (TrimSpace text) "DIMENSION" = true ∧
     dimensionOf (TrimSpace text)
     = Ok (Z.of_nat (length [mkPoint 0 0; mkPoint 0 0]))).
Proof.
  split.
  - apply (proj1 (proj2 (readPointsFromFile_outcomes (λ _, 0%float)
                           (λ _, Some ["NAME: x"; "DIMENSION"; "EOF"]) "f"))).
    reflexivity.
  - apply (proj2 (proj2 (readPointsFromFile_outcomes (λ _, 0%float)
                           (λ _, Some ["DIMENSION 2"; "1 5 5"]) "f"))).
    reflexivity.
Defined.

(** ** Texts without blanks *)

Import TspFile.

Lemma rev_app_app s1 : ∀ s2 t,
  String.rev_app (s1 +:+ s2) t = String.rev_app s2 (String.rev_app s1 t).
Proof. induction s1 as [|a s1 IH]; intros s2 t; [done|]. apply IH. Qed.

Lemma rev_app_rev_app s : ∀ t u,
  String.rev_app (String.rev_app s t) u = String.rev_app t (s +:+ u).
Proof.
  induction s as [|a s IH]; intros t u; [done|].
  cbn [String.rev_app]. by rewrite IH.
Qed.

Lemma rev_involutive s : String.rev (String.rev s) = s.
Proof.
  unfold String.rev. rewrite rev_app_rev_app. simpl.
  apply TourExtras.append_nil_r.
Qed.

Lemma rev_snoc s z :
  String.rev (s +:+ String z EmptyString) = String z (String.rev s).
Proof. unfold String.rev. by rewrite rev_app_app. Qed.

Lemma plain_space1 a : plain a → space1 a = false.
Proof.
  unfold plain, space1. intros [H1 H2].
  destruct (N.leb_spec 9 (code a)), (N.leb_spec (code a) 13),
    (N.eqb_spec (code a) 32); simpl; try done; lia.
Qed.

Lemma plain_space2 a b : plain a → space2 a b = false.
Proof.
  unfold plain, space2. intros [H1 H2].
  destruct (N.eqb_spec (code a) 0xC2); [lia | done].
Qed.

Lemma plain_space3 a b c : plain a → space3 a b c = false.
Proof.
  unfold plain, space3. intros [H1 H2].
  destruct (N.eqb_spec (code a) 0xE1); [lia|].
  destruct (N.eqb_spec (code a) 0xE2); [lia|].
  destruct (N.eqb_spec (code a) 0xE3); [lia|]. done.
Qed.

Lemma plain_last_space2 a b : plain b → space2 a b = false.
Proof.
  unfold plain, space2. intros [H1 H2].
  destruct (N.eqb_spec (code b) 0x85); [lia|].
  destruct (N.eqb_spec (code b) 0xA0); [lia|].
  by rewrite andb_false_r.
Qed.

Lemma plain_last_space3 a b c : plain c → space3 a b c = false.
Proof.
  unfold plain, space3. intros [H1 H2].
  destruct (N.eqb_spec (code c) 0x80); [lia|].
  destruct (N.eqb_spec (code c) 0xA8); [lia|].
  destruct (N.eqb_spec (code c) 0xA9); [lia|].
  destruct (N.eqb_spec (code c) 0xAF); [lia|].
  destruct (N.eqb_spec (code c) 0x9F); [lia|].
  destruct (N.leb_spec 0x80 (code c)); [lia|].
  by rewrite !andb_false_r.
Qed.

Lemma trimLeft_plain a s : plain a → trimLeft (String a s) = String a s.
Proof.
  intros Ha. cbn [trimLeft]. rewrite plain_space1 by done.
  destruct s as [|b [|c s]]; [done| |].
  - by rewrite plain_space2.
  - by rewrite plain_space2, plain_space3.
Qed.

Lemma trimReversed_plain c s : plain c → trimReversed (String c s) = String c s.
Proof.
  intros Hc. cbn [trimReversed]. rewrite plain_space1 by done.
  destruct s as [|b [|a s]]; [done| |].
  - by rewrite plain_last_space2.
  - by rewrite plain_last_space2, plain_last_space3.
Qed.

Lemma trimRight_plain s z :
  plain z → trimRight (s +:+ String z EmptyString) = s +:+ String z EmptyString.
Proof.
  intros Hz. unfold trimRight. rewrite rev_snoc, trimReversed_plain by done.
  by rewrite <- rev_snoc, rev_involutive.
Qed.

Lemma token_snoc s : token s → ∃ s' z, s = s' +:+ String z EmptyString ∧ plain z.
Proof.
  intros [Hne Hall]. induction s as [|a s IH]; [done|].
  destruct Hall as [Ha Hall]. destruct s as [|b s].
  - by exists EmptyString, a.
  - destruct IH as (s' & z & Heq & Hz); [done|done|].
    exists (String a s'), z. split; [|done].
    change (String a (String b s) = String a (s' +:+ String z EmptyString)).
    by rewrite <- Heq.
Qed.

Lemma trimLeft_blank k s : trimLeft (blank k +:+ s) = trimLeft s.
Proof. induction k as [|k IH]; [done|]. exact IH. Qed.

Lemma TrimSpace_fixed a s s' z :
  String a s = s' +:+ String z EmptyString → plain a → plain z →
  TrimSpace (String a s) = String a s.
Proof.
  intros Heq Ha Hz. unfold TrimSpace. rewrite trimLeft_plain by done.
  rewrite Heq. by apply trimRight_plain.
Qed.

Lemma allBytes_app P s1 s2 :
  allBytes P (s1 +:+ s2) ↔ allBytes P s1 ∧ allBytes P s2.
Proof.
  induction s1 as [|a s1 IH]; [simpl; tauto|].
  change (P a ∧ allBytes P (s1 +:+ s2) ↔ (P a ∧ allBytes P s1) ∧ allBytes P s2).
  rewrite IH. tauto.
Qed.

Lemma allBytes_impl (P Q : ascii → Prop) s :
  (∀ a, P a → Q a) → allBytes P s → allBytes Q s.
Proof.
  intros HPQ. induction s as [|a s IH]; [done|].
  intros [Ha Hs]. split; [by apply HPQ | by apply IH].
Qed.

(** *** [strings.Fields] on tokens *)

Lemma fieldsLoop_plain field a s :
  plain a →
  fieldsLoop field (String a s) = fieldsLoop (field +:+ String a EmptyString) s.
Proof.
  intros Ha. cbn [fieldsLoop]. rewrite plain_space1 by done.
  destruct s as [|b [|c s]]; [done| |].
  - by rewrite plain_space2.
  - by rewrite plain_space2, plain_space3.
Qed.

Lemma fieldsLoop_token tok : ∀ field rest,
  allBytes plain tok →
  fieldsLoop field (tok +:+ rest) = fieldsLoop (field +:+ tok) rest.
Proof.
  induction tok as [|a tok IH]; intros field rest Hall.
  - by rewrite TourExtras.append_nil_r.
  - destruct Hall as [Ha Hall].
    change (String a tok +:+ rest) with (String a (tok +:+ rest)).
    rewrite fieldsLoop_plain by done. rewrite IH by done.
    by rewrite TourExtras.append_assoc.
Qed.

Lemma fieldsLoop_blank field rest :
  field ≠ EmptyString →
  fieldsLoop field (String " " rest) = field :: fieldsLoop EmptyString rest.
Proof.
  intros Hne. cbn [fieldsLoop].
  change (space1 " ") with true. cbv iota.
  by rewrite bool_decide_eq_false_2.
Qed.

Lemma Fields_three t1 t2 t3 :
  token t1 → token t2 → token t3 →
  Fields (t1 +:+ " " +:+ t2 +:+ " " +:+ t3) = [t1; t2; t3].
Proof.
  intros [Hn1 Ha1] [Hn2 Ha2] [Hn3 Ha3]. unfold Fields.
  rewrite fieldsLoop_token by done.
  change (EmptyString +:+ t1) with t1.
  change (" " +:+ t2 +:+ " " +:+ t3) with (String " " (t2 +:+ " " +:+ t3)).
  rewrite fieldsLoop_blank by done. rewrite fieldsLoop_token by done.
  change (EmptyString +:+ t2) with t2.
  change (" " +:+ t3) with (String " " t3).
  rewrite fieldsLoop_blank by done.
  rewrite <- (TourExtras.append_nil_r t3) at 1.
  rewrite fieldsLoop_token by done.
  change (EmptyString +:+ t3) with t3. simpl.
  by rewrite bool_decide_eq_false_2.
Qed.

(** *** [strconv.Atoi] after [strconv.Itoa] *)

Lemma numeral_uint d : allBytes numeral (NilEmpty.string_of_uint d).
Proof. induction d; simpl; (split; [by compute|]) || done; done. Qed.

Lemma digits_acc d : ∀ p,
  digits (Z.pos p) (NilEmpty.string_of_uint d) = Some (Z.pos (Pos.of_uint_acc d p)).
Proof.
  induction d as [|d IH|d IH|d IH|d IH|d IH|d IH|d IH|d IH|d IH|d IH];
    intros p; [done|..];
    cbn [NilEmpty.string_of_uint digits Pos.of_uint_acc];
    change ((48 <=? code _)%N && (code _ <=? 57)%N) with true; cbv iota;
    rewrite <- IH; f_equal;
    match goal with |- context [code ?a] =>
      let v := eval vm_compute in (code a) in change (code a) with v
    end; lia.
Qed.

Lemma digits_uint d :
  digits 0 (NilEmpty.string_of_uint d) = Some (Z.of_N (Pos.of_uint d)).
Proof.
  induction d as [|d IH|d IH|d IH|d IH|d IH|d IH|d IH|d IH|d IH|d IH];
    [done|exact IH|..];
    cbn [NilEmpty.string_of_uint digits Pos.of_uint];
    change ((48 <=? code _)%N && (code _ <=? 57)%N) with true; cbv iota;
    match goal with |- context [code ?a] =>
      let v := eval vm_compute in (code a) in change (code a) with v
    end; simpl Z.add; apply digits_acc.
Qed.

Lemma numeral_not_sign a :
  numeral a → Ascii.eqb a "-" = false ∧ Ascii.eqb a "+" = false.
Proof.
  intros Ha. unfold numeral in Ha. split; apply Ascii.eqb_neq; intros ->.
  - change (code "-") with 45%N in Ha. lia.
  - change (code "+") with 43%N in Ha. lia.
Qed.

Lemma string_of_uint_cons d :
  d ≠ Decimal.Nil →
  ∃ a s, NilEmpty.string_of_uint d = String a s ∧ numeral a ∧ allBytes numeral s.
Proof.
  intros Hd. pose proof (numeral_uint d) as Hall.
  destruct d; [done|..]; simpl in *; destruct Hall; by eexists _, _.
Qed.

Lemma Atoi_uint d :
  d ≠ Decimal.Nil →
  Atoi (NilEmpty.string_of_uint d)
  = Z.max (- 2 ^ 63) (Z.min (2 ^ 63 - 1) (Z.of_N (Pos.of_uint d))).
Proof.
  intros Hd. destruct (string_of_uint_cons d Hd) as (a & s & Heq & Ha & _).
  pose proof (digits_uint d) as Hdig. rewrite Heq in *.
  destruct (numeral_not_sign a Ha) as [Hm Hp].
  unfold Atoi. rewrite Hm, Hp. cbn [orb]. cbv iota zeta. by rewrite Hdig.
Qed.

Lemma Atoi_Itoa n : - 2 ^ 63 ≤ n < 2 ^ 63 → Atoi (Itoa n) = n.
Proof.
  intros Hn. unfold Itoa. destruct n as [|p|p].
  - done.
  - cbn [Z.to_int NilZero.string_of_int].
    pose proof (DecimalPos.Unsigned.to_uint_nonnil p) as Hnn.
    replace (NilZero.string_of_uint (Pos.to_uint p))
      with (NilEmpty.string_of_uint (Pos.to_uint p))
      by (by destruct (Pos.to_uint p)).
    rewrite Atoi_uint, DecimalPos.Unsigned.of_to by done. lia.
  - cbn [Z.to_int NilZero.string_of_int].
    pose proof (DecimalPos.Unsigned.to_uint_nonnil p) as Hnn.
    replace (NilZero.string_of_uint (Pos.to_uint p))
      with (NilEmpty.string_of_uint (Pos.to_uint p))
      by (by destruct (Pos.to_uint p)).
    destruct (string_of_uint_cons _ Hnn) as (a & s & Heq & Ha & _).
    pose proof (digits_uint (Pos.to_uint p)) as Hdig.
    rewrite DecimalPos.Unsigned.of_to in Hdig. rewrite Heq in *.
    unfold Atoi. change (Ascii.eqb "-" "-") with true. cbn [orb]. cbv iota zeta.
    rewrite Hdig. lia.
Qed.

Lemma Itoa_bytes n : allBytes (λ a, a = "-"%char ∨ numeral a) (Itoa n).
Proof.
  assert (H : ∀ d, allBytes (λ a, a = "-"%char ∨ numeral a)
                     (NilZero.string_of_uint d)).
  { intros d. apply (allBytes_impl numeral); [tauto|].
    destruct d; try apply numeral_uint. simpl. split; [by compute | done]. }
  unfold Itoa. destruct (Z.to_int n); simpl; [apply H|].
  split; [by left | apply H].
Qed.

Lemma Itoa_token n : token (Itoa n).
Proof.
  split; [apply TourExtras.Itoa_nonempty|].
  eapply allBytes_impl; [|apply Itoa_bytes].
  intros a [->|Ha]; unfold plain; [by compute|].
  unfold numeral in Ha. lia.
Qed.

Lemma Itoa_cons n :
  ∃ a s, Itoa n = String a s ∧ (a = "-"%char ∨ numeral a).
Proof.
  pose proof (Itoa_bytes n) as Hall. pose proof (TourExtras.Itoa_nonempty n).
  destruct (Itoa n) as [|a s]; [done|]. destruct Hall. by eexists _, _.
Qed.

(** *** [strings.Split] *)

Lemma Split_none s sep : allBytes (λ a, a ≠ sep) s → Split s sep = [s].
Proof.
  induction s as [|a s IH]; [done|]. intros [Ha Hs].
  cbn [Split]. rewrite (proj2 (Ascii.eqb_neq a sep)) by done.
  by rewrite IH.
Qed.

Lemma Split_first s1 s2 sep :
  allBytes (λ a, a ≠ sep) s1 →
  Split (s1 +:+ String sep s2) sep = s1 :: Split s2 sep.
Proof.
  induction s1 as [|a s1 IH]; intros Hall.
  - change (EmptyString +:+ String sep s2) with (String sep s2).
    cbn [Split]. by rewrite Ascii.eqb_refl.
  - destruct Hall as [Ha Hs].
    change (String a s1 +:+ String sep s2) with (String a (s1 +:+ String sep s2)).
    cbn [Split]. rewrite (proj2 (Ascii.eqb_neq a sep)) by done.
    by rewrite IH.
Qed.

Lemma blank_bytes k : allBytes (λ a, a ≠ ":"%char) (blank k).
Proof. induction k; [done|]. split; [done|assumption]. Qed.

Lemma Itoa_no_colon n : allBytes (λ a, a ≠ ":"%char) (Itoa n).
Proof.
  eapply allBytes_impl; [|apply Itoa_bytes].
  intros a [->|Ha]; [done|]. intros ->. unfold numeral in Ha.
  change (code ":") with 58%N in Ha. lia.
Qed.

(** *** The lines of a file *)

Lemma TrimSpace_token s : token s → TrimSpace s = s.
Proof.
  intros Htok. destruct (token_snoc s Htok) as (s' & z & Heq & Hz).
  destruct Htok as [Hne Hall]. destruct s as [|a s0]; [done|].
  destruct Hall as [Ha _]. by eapply TrimSpace_fixed.
Qed.

Lemma TrimSpace_ends a s tok :
  plain a → token tok →
  TrimSpace (String a (s +:+ tok)) = String a (s +:+ tok).
Proof.
  intros Ha Htok. destruct (token_snoc tok Htok) as (s' & z & -> & Hz).
  eapply (TrimSpace_fixed a _ (String a (s +:+ s')) z); [|done|done].
  change (String a (s +:+ s') +:+ String z EmptyString)
    with (String a ((s +:+ s') +:+ String z EmptyString)).
  by rewrite TourExtras.append_assoc.
Qed.

Lemma TrimSpace_blank k tok : token tok → TrimSpace (blank k +:+ tok) = tok.
Proof.
  intros Htok. unfold TrimSpace. rewrite trimLeft_blank.
  by apply TrimSpace_token.
Qed.

Lemma dimensionOf_line k1 k2 n :
  0 ≤ n ≤ maxPoints → dimensionOf (dimensionLine k1 k2 n) = Ok n.
Proof.
  intros Hn. unfold maxPoints in Hn. unfold dimensionOf, dimensionLine.
  assert (Hsplit : Split ("DIMENSION" +:+ blank k1 +:+ ":" +:+ blank k2 +:+ Itoa n) ":"
                   = ["DIMENSION" +:+ blank k1; blank k2 +:+ Itoa n]).
  { rewrite <- TourExtras.append_assoc.
    change (":" +:+ blank k2 +:+ Itoa n) with (String ":" (blank k2 +:+ Itoa n)).
    rewrite Split_first.
    - rewrite Split_none; [done|].
      apply allBytes_app. split; [apply blank_bytes | apply Itoa_no_colon].
    - apply allBytes_app. split; [|apply blank_bytes]. by repeat split. }
  rewrite Hsplit. simpl length. rewrite bool_decide_eq_false_2 by lia.
  simpl lookup. cbv iota.
  rewrite TrimSpace_blank by apply Itoa_token.
  rewrite Atoi_Itoa by lia.
  by rewrite bool_decide_eq_false_2 by (unfold maxPoints; lia).
Qed.

Lemma prefix_app p s : String.prefix p (p +:+ s) = true.
Proof.
  induction p as [|a p IH]; [by destruct s|].
  change (String a p +:+ s) with (String a (p +:+ s)). cbn [String.prefix].
  by destruct (ascii_dec a a).
Qed.

Lemma prefix_first_differs a p b s : a ≠ b → String.prefix (String a p) (String b s) = false.
Proof. intros Hne. cbn [String.prefix]. by destruct (ascii_dec a b). Qed.

Section Lines.

Variable ParseFloat : string → float.

Lemma readLine_neutral text r :
  neutral text → inCoordSection r = false →
  readLine ParseFloat text r = Ok (r, false).
Proof.
  intros [Hd Hn] Hin. unfold readLine. case_bool_decide; [done|].
  by rewrite Hd, Hn, Hin.
Qed.

Lemma readLine_dimension k1 k2 n r :
  0 ≤ n ≤ maxPoints → inCoordSection r = false →
  readLine ParseFloat (dimensionLine k1 k2 n) r
  = Ok (mkReader n (replicate (Z.to_nat n) (mkPoint 0 0)) false, false).
Proof.
  intros Hn Hin. unfold readLine.
  assert (Htrim : TrimSpace (dimensionLine k1 k2 n) = dimensionLine k1 k2 n).
  { unfold dimensionLine.
    change ("DIMENSION" +:+ blank k1 +:+ ":" +:+ blank k2 +:+ Itoa n)
      with (String "D" ("IMENSION" +:+ blank k1 +:+ ":" +:+ blank k2 +:+ Itoa n)).
    rewrite <- !(TourExtras.append_assoc _ _ (Itoa n)).
    rewrite <- !(TourExtras.append_assoc _ _ (blank k2)).
    rewrite <- !(TourExtras.append_assoc _ _ ":").
    apply TrimSpace_ends; [by compute | apply Itoa_token]. }
  rewrite Htrim. rewrite bool_decide_eq_false_2 by done.
  assert (Hpre : HasPrefix (dimensionLine k1 k2 n) "DIMENSION" = true)
    by apply prefix_app.
  rewrite Hpre. rewrite dimensionOf_line by done.
  change (HasPrefix (dimensionLine k1 k2 n) "NODE_COORD_SECTION") with false.
  cbv iota. simpl. by rewrite Hin.
Qed.

Lemma readLine_section r :
  readLine ParseFloat "NODE_COORD_SECTION" r
  = Ok (mkReader (dimension r) (points r) true, false).
Proof. done. Qed.

Lemma readLine_EOF r :
  inCoordSection r = true → readLine ParseFloat "EOF" r = Ok (r, true).
Proof.
  intros Hin. unfold readLine.
  change (TrimSpace "EOF") with "EOF". simpl. by rewrite Hin.
Qed.

Lemma readLine_coord i c n pts :
  token c.1 → token c.2 →
  Z.of_nat i < n < 2 ^ 63 → Z.of_nat (length pts) = n →
  readLine ParseFloat (coordLine i c) (mkReader n pts true)
  = Ok (mkReader n (<[i := mkPoint (ParseFloat c.1) (ParseFloat c.2)]> pts) true,
        false).
Proof.
  intros Hx Hy Hi Hlen. unfold readLine, coordLine.
  destruct (Itoa_cons (Z.of_nat i + 1)) as (a & s & Hit & Ha).
  assert (Hplain : plain a).
  { destruct Ha as [->|Ha]; unfold plain; [by compute|].
    unfold numeral in Ha. lia. }
  set (line := Itoa (Z.of_nat i + 1) +:+ " " +:+ c.1 +:+ " " +:+ c.2).
  assert (Hline : line = String a (s +:+ " " +:+ c.1 +:+ " " +:+ c.2)).
  { unfold line. by rewrite Hit. }
  assert (Htrim : TrimSpace line = line).
  { rewrite Hline.
    rewrite <- !(TourExtras.append_assoc _ _ c.2).
    by apply TrimSpace_ends. }
  rewrite Htrim. rewrite bool_decide_eq_false_2 by (by rewrite Hline).
  assert (Hno : ∀ b p, numeral b ∨ b = "-"%char → False →
                       HasPrefix line (String b p) = false) by done.
  assert (Hpre : ∀ b p, (65 ≤ code b ≤ 90)%N →
                        HasPrefix line (String b p) = false).
  { intros b p Hb. rewrite Hline. apply prefix_first_differs. intros ->.
    destruct Ha as [->|Ha].
    - change (code "-") with 45%N in Hb. lia.
    - unfold numeral in Ha. lia. }
  rewrite (Hpre "D"%char) by (by compute).
  rewrite (Hpre "N"%char) by (by compute).
  rewrite (Hpre "E"%char) by (by compute).
  simpl. unfold setPoint, line.
  rewrite Fields_three by (done || apply Itoa_token).
  rewrite Atoi_Itoa by lia. simpl.
  rewrite bool_decide_eq_true_2 by lia.
  rewrite bool_decide_eq_true_2 by lia.
  by replace (Z.to_nat (Z.of_nat i + 1 - 1)) with i by lia.
Qed.

Lemma scan_coords n trailer : ∀ rest done,
  Z.of_nat (length done + length rest) = n → n < 2 ^ 63 →
  Forall (λ c, token c.1 ∧ token c.2) rest →
  scan ParseFloat
    (imap (λ i, coordLine (length done + i)) rest ++ ["EOF"] ++ trailer)
    (mkReader n (done ++ replicate (length rest) (mkPoint 0 0)) true)
  = Ok (mkReader n (done ++ (pointOf ParseFloat <$> rest)) true).
Proof.
  induction rest as [|c rest IH]; intros done Hlen Hn Hall.
  - change (imap _ [] ++ ["EOF"] ++ trailer) with ("EOF" :: trailer).
    cbn [scan]. by rewrite readLine_EOF.
  - apply Forall_cons in Hall as [[Hx Hy] Hall].
    rewrite imap_cons. cbn [app scan].
    rewrite Nat.add_0_r.
    rewrite readLine_coord; [|done|done|simpl in Hlen; lia|].
    2:{ rewrite length_app, length_replicate. lia. }
    simpl replicate.
    rewrite insert_app_r_alt by lia. rewrite Nat.sub_diag. simpl insert.
    rewrite fmap_cons.
    specialize (IH (done ++ [pointOf ParseFloat c])).
    rewrite length_app in IH. simpl in IH.
    rewrite <- !app_assoc in IH. simpl in IH.
    rewrite <- IH; [|simpl in Hlen; lia|done|done].
    unfold pointOf. f_equal. f_equal.
    apply imap_ext. intros j c' _. simpl. f_equal. lia.
Qed.

Lemma scan_header header rest r :
  Forall neutral header → inCoordSection r = false →
  scan ParseFloat (header ++ rest) r = scan ParseFloat rest r.
Proof.
  intros Hall Hin. induction header as [|text header IH]; [done|].
  apply Forall_cons in Hall as [Hn Hall]. cbn [app scan].
  rewrite readLine_neutral by done. by apply IH.
Qed.

Lemma Split_length s sep :
  (length (Split s sep) < 2)%nat ↔ allBytes (λ a, a ≠ sep) s.
Proof.
  assert (Hne : ∀ s, Split s sep ≠ []).
  { clear s. intros s. induction s as [|a s IH]; [done|]. cbn [Split].
    destruct (Ascii.eqb a sep); [done|]. by destruct (Split s sep). }
  induction s as [|a s IH]; [by simpl; split; [|lia]|].
  cbn [Split allBytes]. destruct (Ascii.eqb a sep) eqn:Ha.
  - apply Ascii.eqb_eq in Ha. specialize (Hne s).
    destruct (Split s sep); [done|]. simpl. split; [lia|tauto].
  - apply Ascii.eqb_neq in Ha. specialize (Hne s).
    destruct (Split s sep) as [|piece pieces]; [done|].
    simpl in *. tauto.
Qed.

Lemma dimensionOf_IndexOutOfRange line :
  dimensionOf line = Panic IndexOutOfRange
  ↔ allBytes (λ a, a ≠ ":"%char ∧ a ≠ " "%char) line.
Proof.
  assert (Hboth : allBytes (λ a, a ≠ ":"%char ∧ a ≠ " "%char) line
                  ↔ allBytes (λ a, a ≠ ":"%char) line ∧
                    allBytes (λ a, a ≠ " "%char) line).
  { induction line as [|a line IH]; [simpl; tauto|]. cbn [allBytes]. tauto. }
  rewrite Hboth, <- !Split_length. unfold dimensionOf.
  assert (Hlook : ∀ parts : list string,
            match parts !! 1%nat with
            | Some p1 =>
                if bool_decide (Atoi (TrimSpace p1) < 0 ∨
                                maxPoints < Atoi (TrimSpace p1))
                then Panic MakeOutOfRange else Ok (Atoi (TrimSpace p1))
            | None => Panic IndexOutOfRange
            end = Panic IndexOutOfRange ↔ (length parts < 2)%nat).
  { intros [|p0 [|p1 parts]]; simpl; [split; [lia|done] ..|].
    case_bool_decide; split; (done || lia). }
  case_bool_decide as Hcolon; rewrite Hlook; [tauto | lia].
Qed.

Lemma readLine_dimension_panic text r :
  HasPrefix (TrimSpace text) "DIMENSION" = true →
  allBytes (λ a, a ≠ ":"%char ∧ a ≠ " "%char) (TrimSpace text) →
  readLine ParseFloat text r = Panic IndexOutOfRange.
Proof.
  intros Hdim Hall. unfold readLine.
  case_bool_decide as Hempty; [by rewrite Hempty in Hdim|].
  rewrite Hdim. by rewrite (proj2 (dimensionOf_IndexOutOfRange _) Hall).
Qed.

Lemma readLine_undimensioned text r :
  HasPrefix (TrimSpace text) "DIMENSION" = false →
  dimension r = 0 →
  ∃ r' stop, readLine ParseFloat text r = Ok (r', stop) ∧
             dimension r' = 0 ∧ points r' = points r.
Proof.
  intros Hdim Hzero. unfold readLine. case_bool_decide; [by exists r, false|].
  rewrite Hdim. destruct (HasPrefix _ "NODE_COORD_SECTION"); [by eexists _, _|].
  destruct (inCoordSection r && _); [by eexists _, _|].
  destruct (inCoordSection r); [|by eexists _, _].
  unfold setPoint.
  destruct (Fields _) as [|p0 [|p1 [|p2 ps]]]; try by eexists _, _.
  rewrite bool_decide_eq_false_2 by lia. by eexists _, _.
Qed.

Lemma scan_undimensioned lines : ∀ r,
  Forall (λ text, HasPrefix (TrimSpace text) "DIMENSION" = false) lines →
  dimension r = 0 →
  ∃ r', scan ParseFloat lines r = Ok r' ∧ points r' = points r.
Proof.
  induction lines as [|text rest IH]; intros r Hall Hzero; [by exists r|].
  apply Forall_cons in Hall as [Hdim Hall]. cbn [scan].
  destruct (readLine_undimensioned text r Hdim Hzero)
    as (r1 & stop & -> & Hz1 & Hp1).
  destruct stop; [by exists r1|].
  destruct (IH r1 Hall Hz1) as (r' & -> & Hp'). exists r'. split; congruence.
Qed.

(** X21. A file in the TSPLIB layout is read back as its cities.  After
    any lines that name neither the dimension nor the section, a line
    DIMENSION : n (any number of blanks around the colon), the line
    NODE_COORD_SECTION, one line [i x y] for each city in order and the
    line EOF, the points returned are the coordinates of the file, as
    [strconv.ParseFloat] reads them, in the order of the file; nothing
    after the line EOF is looked at. *)
Theorem readPointsFromFile_reads_back (open : string → option (list string))
    (filename : string) (header : list string) (k1 k2 : nat)
    (coords : list (string * string)) (trailer : list string) :
  open filename = Some (tspFile header k1 k2 coords trailer) →
  Forall neutral header →
  Forall (λ c, token c.1 ∧ token c.2) coords →
  Z.of_nat (length coords) ≤ maxPoints →
  readPointsFromFile ParseFloat open filename
  = Ok (Some (pointOf ParseFloat <$> coords)).
Proof.
  intros Hopen Hheader Hcoords Hn. unfold readPointsFromFile, tspFile in *.
  rewrite Hopen. rewrite scan_header by done.
  cbn [app scan]. rewrite readLine_dimension by (done || lia).
  rewrite readLine_section. cbn [dimension points].
  rewrite Nat2Z.id.
  pose proof (scan_coords (Z.of_nat (length coords)) trailer coords []) as Hscan.
  cbn [app length Nat.add] in Hscan.
  change (imap (λ i, coordLine i) coords) with (imap coordLine coords) in Hscan.
  by rewrite Hscan by (done || unfold maxPoints in Hn; lia).
Qed.

(** X22. Without a DIMENSION line there are no cities: when no line of
    the file, once trimmed, starts with DIMENSION, [readPointsFromFile]
    returns the nil slice, whatever coordinates the file lists. *)
Theorem readPointsFromFile_without_dimension
    (open : string → option (list string)) (filename : string)
    (lines : list string) :
  open filename = Some lines →
  Forall (λ text, HasPrefix (TrimSpace text) "DIMENSION" = false) lines →
  readPointsFromFile ParseFloat open filename = Ok (Some []).
Proof.
  intros Hopen Hall. unfold readPointsFromFile. rewrite Hopen.
  destruct (scan_undimensioned lines (mkReader 0 [] false) Hall eq_refl)
    as (r' & -> & ->).
  done.
Qed.

(** X23. The index panic of [readPointsFromFile] is [parts[1]] on a
    DIMENSION line that has neither a colon nor a blank after trimming
    (the word alone, or a value behind a tab).  Such a line is the only
    origin of the panic, and it does panic when the lines before it name
    neither the dimension nor the section. *)
Theorem readPointsFromFile_index_panic (open : string → option (list string))
    (filename : string) :
  (readPointsFromFile ParseFloat open filename = Panic IndexOutOfRange →
   ∃ lines text,
     open filename = Some lines ∧ text ∈ lines ∧
     HasPrefix (TrimSpace text) "DIMENSION" = true ∧
     allBytes (λ a, a ≠ ":"%char ∧ a ≠ " "%char) (TrimSpace text)) ∧
  (∀ header text rest,
     open filename = Some (header ++ text :: rest) →
     Forall neutral header →
     HasPrefix (TrimSpace text) "DIMENSION" = true →
     allBytes (λ a, a ≠ ":"%char ∧ a ≠ " "%char) (TrimSpace text) →
     readPointsFromFile ParseFloat open filename = Panic IndexOutOfRange).
Proof.
  unfold readPointsFromFile. split.
  - destruct (open filename) as [lines|]; [|done].
    destruct (scan_cases ParseFloat lines (mkReader 0 [] false) eq_refl)
      as [(r' & -> & _)|(e' & text & -> & Hin & Hdim & Hd)]; [done|].
    intros [= ->]. exists lines, text. split_and!; try done.
    by apply dimensionOf_IndexOutOfRange.
  - intros header text rest -> Hheader Hdim Hall.
    rewrite scan_header by done. cbn [scan].
    by rewrite readLine_dimension_panic.
Qed.

End Lines.

Lemma readPointsFromFile_reads_back_witness :
  readPointsFromFile (λ s, if String.eqb s "3" then 3%float else 0%float)
    (λ _, Some ["NAME : two"; "  "; "DIMENSION : 2"; "NODE_COORD_SECTION";
                "1 0.0 0.0"; "2 3 4e0"; "EOF"; "3 7 7"]) "two.tsp"
  = Ok (Some [mkPoint 0 0; mkPoint 3 0]).
Proof.
  apply (readPointsFromFile_reads_back
           (λ s, if String.eqb s "3" then 3%float else 0%float)
           (λ _, Some ["NAME : two"; "  "; "DIMENSION : 2"; "NODE_COORD_SECTION";
                       "1 0.0 0.0"; "2 3 4e0"; "EOF"; "3 7 7"]) "two.tsp"
           ["NAME : two"; "  "] 1 1 [("0.0", "0.0"); ("3", "4e0")] ["3 7 7"]).
  - reflexivity.
  - by repeat constructor.
  - repeat constructor; try done; simpl; unfold plain; vm_compute; try done.
  - vm_compute. discriminate.
Defined.

Lemma readPointsFromFile_without_dimension_witness :
  readPointsFromFile (λ _, 1%float)
    (λ _, Some ["NODE_COORD_SECTION"; "1 0 0"; "2 3 4"; "EOF"]) "bare.tsp"
  = Ok (Some []).
Proof.
  apply (readPointsFromFile_without_dimension (λ _, 1%float)
           (λ _, Some ["NODE_COORD_SECTION"; "1 0 0"; "2 3 4"; "EOF"]) "bare.tsp"
           ["NODE_COORD_SECTION"; "1 0 0"; "2 3 4"; "EOF"]).
  - reflexivity.
  - by repeat constructor.
Defined.

Lemma readPointsFromFile_index_panic_witness :
  readPointsFromFile (λ _, 1%float)
    (λ _, Some ["NAME: tabbed"; "DIMENSION=5"; "NODE_COORD_SECTION"])
    "tabbed.tsp"
  = Panic IndexOutOfRange.
Proof.
  apply (proj2 (readPointsFromFile_index_panic (λ _, 1%float)
                  (λ _, Some ["NAME: tabbed"; "DIMENSION=5"; "NODE_COORD_SECTION"])
                  "tabbed.tsp") ["NAME: tabbed"] "DIMENSION=5"
               ["NODE_COORD_SECTION"]).
  - reflexivity.
  - by repeat constructor.
  - reflexivity.
  - simpl. repeat split; discriminate.
Defined.

End ReaderExtras.
